(** * A shallow embedding of [Vector/vector.h]

    The header defines two class templates: [RawMemory<T>], which owns a
    block of uninitialised storage, and [Vector<T>], which manages the
    lifetime of the objects placed in such a block.

    The embedding keeps the two layers apart in the same way.  Storage lives
    in a heap of blocks; a block is a sequence of slots and a slot is either
    raw memory ([None]) or holds a live object ([Some x]).  The methods are
    written in state-passing style over the fields of the object and the
    heap.  Counts and indices have type [size_t] in the source; they are
    integers here and every subtraction, multiplication and increment the
    source performs on them is reduced modulo [2^64]. *)

From stdpp Require Import gmap list.
From Stdlib Require Import ZArith Lia.

Local Open Scope Z_scope.

(** ** size_t *)

Definition size_bits : Z := 64.
Definition size_modulus : Z := 2 ^ size_bits.

(** Conversion of an integer result to [size_t]. *)
Definition wrap (z : Z) : Z := z mod size_modulus.

(** The values a [size_t] variable can hold. *)
Definition is_size_t (z : Z) : Prop := 0 ≤ z < size_modulus.

(** ** Results of running a piece of code

    [Ok a]: normal completion.  [BadAlloc]: [operator new] threw
    [std::bad_alloc]; every allocation in the header happens before the
    operation has changed anything, so the state at the throw is the state
    before the call.  [Fault]: a failed [assert] or undefined behaviour
    (access outside a block, use of an object that is not alive, release of
    a pointer that no allocation returned). *)

Inductive outcome (A : Type) : Type :=
  | Ok (a : A)
  | BadAlloc
  | Fault.

Arguments Ok {A} a.
Arguments BadAlloc {A}.
Arguments Fault {A}.

#[global] Instance outcome_ret : MRet outcome := λ A a, Ok a.

#[global] Instance outcome_bind : MBind outcome := λ A B f m,
  match m with
  | Ok a => f a
  | BadAlloc => BadAlloc
  | Fault => Fault
  end.

(** [assert(c)] *)
Definition assert (c : bool) : outcome unit := if c then Ok () else Fault.

(** ** Pointers

    A [T*] is null or designates slot [i] of block [b].  Arithmetic moves
    the slot index and leaves the null pointer alone. *)

Abbreviation addr := nat (only parsing).

Inductive ptr : Type :=
  | nullptr
  | Ptr (b : addr) (i : Z).

Definition ptr_add (p : ptr) (k : Z) : ptr :=
  match p with
  | nullptr => nullptr
  | Ptr b i => Ptr b (i + k)
  end.

(** [std::distance(first, last)] on pointers: defined for two pointers
    into one block and for two null pointers. *)
Definition distance (first last : ptr) : outcome Z :=
  match first, last with
  | nullptr, nullptr => Ok 0
  | Ptr a i, Ptr b j => if Nat.eqb a b then Ok (j - i) else Fault
  | _, _ => Fault
  end.

(** ** What the element type provides

    [value_init] is the result of [T()], [moved_from x] the state in which an
    object holding [x] is left after it has been moved from; the two flags
    are the type traits the header queries; [sizeof_T] is [sizeof(T)], a
    [size_t] that is at least 1.  Constructors and assignments of [T] do
    not throw in this model. *)

Class Element (T : Type) : Type := {
  value_init : T;
  moved_from : T → T;
  is_nothrow_move_constructible : bool;
  is_copy_constructible : bool;
  sizeof_T : Z;
  sizeof_T_range : 0 < sizeof_T < size_modulus;
}.

(** ** The heap *)

Abbreviation heap T := (gmap nat (list (option T))).

Section Memory.
Context {T : Type} `{!Element T}.

(** Whether [operator new] serves the request that [Allocate(n)] makes in
    heap [h]; the allocator is not part of the repository. *)
Variable new_ok : heap T → Z → bool.

Definition slot_at (h : heap T) (p : ptr) : option (option T) :=
  match p with
  | nullptr => None
  | Ptr b i => if 0 <=? i then blk ← h !! b; blk !! Z.to_nat i else None
  end.

(** Reading the value of the object [*p]. *)
Definition load (p : ptr) (h : heap T) : outcome T :=
  match slot_at h p with
  | Some (Some x) => Ok x
  | _ => Fault
  end.

(** Overwriting slot [p], which must lie inside an allocated block. *)
Definition write (p : ptr) (s : option T) (h : heap T) : outcome (heap T) :=
  match p with
  | nullptr => Fault
  | Ptr b i =>
      match h !! b with
      | Some blk =>
          if (0 <=? i) && (i <? Z.of_nat (length blk))
          then Ok (<[b := <[Z.to_nat i := s]> blk]> h)
          else Fault
      | None => Fault
      end
  end.

(** [new (p) T(x)] *)
Definition construct_at (p : ptr) (x : T) (h : heap T) : outcome (heap T) :=
  write p (Some x) h.

(** [p->~T()] *)
Definition destroy_at (p : ptr) (h : heap T) : outcome (heap T) :=
  _ ← load p h; write p None h.

(** [*p = x] where [x] is a value already read. *)
Definition assign (p : ptr) (x : T) (h : heap T) : outcome (heap T) :=
  _ ← load p h; write p (Some x) h.

(** Reading [std::move( *p )] into a constructor or an assignment: the
    value is taken and the object stays alive in its moved-from state. *)
Definition move_out (p : ptr) (h : heap T) : outcome (T * heap T) :=
  x ← load p h; h' ← write p (Some (moved_from x)) h; Ok (x, h').

(** *** The algorithms of <memory> and <algorithm> the header calls

    The count is the number of iterations of the library's loop. *)

Fixpoint uninitialized_value_construct_n (first : ptr) (n : nat) (h : heap T)
    : outcome (heap T) :=
  match n with
  | O => Ok h
  | S k =>
      h1 ← construct_at first value_init h;
      uninitialized_value_construct_n (ptr_add first 1) k h1
  end.

Fixpoint uninitialized_copy_n (first : ptr) (n : nat) (d_first : ptr) (h : heap T)
    : outcome (heap T) :=
  match n with
  | O => Ok h
  | S k =>
      x ← load first h;
      h1 ← construct_at d_first x h;
      uninitialized_copy_n (ptr_add first 1) k (ptr_add d_first 1) h1
  end.

Fixpoint uninitialized_move_n (first : ptr) (n : nat) (d_first : ptr) (h : heap T)
    : outcome (heap T) :=
  match n with
  | O => Ok h
  | S k =>
      '(x, h1) ← move_out first h;
      h2 ← construct_at d_first x h1;
      uninitialized_move_n (ptr_add first 1) k (ptr_add d_first 1) h2
  end.

Fixpoint destroy_n (first : ptr) (n : nat) (h : heap T) : outcome (heap T) :=
  match n with
  | O => Ok h
  | S k => h1 ← destroy_at first h; destroy_n (ptr_add first 1) k h1
  end.

(** [std::destroy(first, last)]; [first, last) must be a range. *)
Definition destroy (first last : ptr) (h : heap T) : outcome (heap T) :=
  n ← distance first last;
  _ ← assert (0 <=? n);
  destroy_n first (Z.to_nat n) h.

(** The loop of [std::move(first, last, d_first)]:
    [*d_first++ = std::move( *first++ )]. *)
Fixpoint move_loop (n : nat) (first d_first : ptr) (h : heap T) : outcome (heap T) :=
  match n with
  | O => Ok h
  | S k =>
      '(x, h1) ← move_out first h;
      h2 ← assign d_first x h1;
      move_loop k (ptr_add first 1) (ptr_add d_first 1) h2
  end.

Definition move (first last d_first : ptr) (h : heap T) : outcome (heap T) :=
  n ← distance first last;
  _ ← assert (0 <=? n);
  move_loop (Z.to_nat n) first d_first h.

(** The loop of [std::move_backward(first, last, d_last)]:
    [*(--d_last) = std::move( *(--last) )]. *)
Fixpoint move_backward_loop (n : nat) (last d_last : ptr) (h : heap T)
    : outcome (heap T) :=
  match n with
  | O => Ok h
  | S k =>
      '(x, h1) ← move_out (ptr_add last (-1)) h;
      h2 ← assign (ptr_add d_last (-1)) x h1;
      move_backward_loop k (ptr_add last (-1)) (ptr_add d_last (-1)) h2
  end.

Definition move_backward (first last d_last : ptr) (h : heap T) : outcome (heap T) :=
  n ← distance first last;
  _ ← assert (0 <=? n);
  move_backward_loop (Z.to_nat n) last d_last h.

(** ** RawMemory *)

Record RawMemory : Type := {
  buffer_ : ptr;
  capacity_ : Z;
}.

(** [RawMemory() = default] *)
Definition RawMemory_default : RawMemory :=
  {| buffer_ := nullptr; capacity_ := 0 |}.

(** [Allocate(n)]: a request for no element yields the null pointer; any
    other request calls [operator new(n * sizeof(T))].  The product is
    computed in [size_t], so the request is for [wrap (n * sizeof_T)] bytes,
    and the block obtained, at an address not in use, has room for that
    many bytes: [wrap (n * sizeof_T) / sizeof_T] raw slots, which is [n]
    slots when the product did not wrap around and fewer when it did.
    [new_ok h n] says whether [operator new] serves the request that
    [Allocate(n)] makes. *)
Definition Allocate (n : Z) (h : heap T) : outcome (ptr * heap T) :=
  if n =? 0 then Ok (nullptr, h)
  else if new_ok h n
  then
    let b := fresh (dom h) in
    let bytes := wrap (n * sizeof_T) in
    Ok (Ptr b 0, <[b := replicate (Z.to_nat (bytes / sizeof_T)) None]> h)
  else BadAlloc.

(** [Deallocate(buf)]: [operator delete] accepts the null pointer and the
    pointers [operator new] returned that have not been released yet; the
    block goes away with whatever its slots hold. *)
Definition Deallocate (buf : ptr) (h : heap T) : outcome (heap T) :=
  match buf with
  | nullptr => Ok h
  | Ptr b i =>
      match h !! b with
      | Some _ => if i =? 0 then Ok (delete b h) else Fault
      | None => Fault
      end
  end.

(** [explicit RawMemory(size_t capacity)] *)
Definition RawMemory_new (capacity : Z) (h : heap T) : outcome (RawMemory * heap T) :=
  '(buf, h1) ← Allocate capacity h;
  Ok ({| buffer_ := buf; capacity_ := capacity |}, h1).

(** [RawMemory(RawMemory&& other)]: the new object and [other] afterwards. *)
Definition RawMemory_move (other : RawMemory) : RawMemory * RawMemory :=
  ({| buffer_ := buffer_ other; capacity_ := capacity_ other |},
   {| buffer_ := nullptr; capacity_ := 0 |}).

(** [RawMemory& operator=(RawMemory&& rhs)]: [*this] and [rhs] afterwards.
    The two arguments are separate objects, so the guard [this != &rhs]
    holds; both fields of [*this] are overwritten and the buffer they
    designated is not released. *)
Definition RawMemory_move_assign (this rhs : RawMemory) : RawMemory * RawMemory :=
  ({| buffer_ := buffer_ rhs; capacity_ := capacity_ rhs |},
   {| buffer_ := nullptr; capacity_ := 0 |}).

(** [~RawMemory()] *)
Definition RawMemory_destroy (m : RawMemory) (h : heap T) : outcome (heap T) :=
  Deallocate (buffer_ m) h.

(** [T* operator+(size_t offset)] *)
Definition RawMemory_plus (m : RawMemory) (offset : Z) : outcome ptr :=
  _ ← assert (offset <=? capacity_ m);
  Ok (ptr_add (buffer_ m) offset).

(** [T& operator[](size_t index)]: the reference is the slot's address. *)
Definition RawMemory_at (m : RawMemory) (index : Z) : outcome ptr :=
  _ ← assert (index <? capacity_ m);
  Ok (ptr_add (buffer_ m) index).

(** [void Swap(RawMemory& other)]: [*this] and [other] afterwards. *)
Definition RawMemory_Swap (this other : RawMemory) : RawMemory * RawMemory :=
  ({| buffer_ := buffer_ other; capacity_ := capacity_ other |},
   {| buffer_ := buffer_ this; capacity_ := capacity_ this |}).

Definition GetAddress (m : RawMemory) : ptr := buffer_ m.

Definition RawMemory_Capacity (m : RawMemory) : Z := capacity_ m.

(** [std::exchange(obj, RawMemory<T>{})] as the header instantiates it:
    the old value is moved out of [obj], the temporary is move-assigned
    into [obj] and then destroyed.  Returns the old value and [obj]
    afterwards. *)
Definition exchange_RawMemory (obj new_value : RawMemory) (h : heap T)
    : outcome (RawMemory * RawMemory * heap T) :=
  let '(old_value, obj1) := RawMemory_move obj in
  let '(obj2, tmp) := RawMemory_move_assign obj1 new_value in
  h1 ← RawMemory_destroy tmp h;
  Ok (old_value, obj2, h1).

End Memory.

(** ** Vector *)

Section VectorCode.
Context {T : Type} `{!Element T}.
Variable new_ok : heap T → Z → bool.

Record Vector : Type := {
  data_ : RawMemory;
  size_ : Z;
}.

Definition begin (v : Vector) : ptr := GetAddress (data_ v).
Definition end_ (v : Vector) : ptr := ptr_add (GetAddress (data_ v)) (size_ v).
Definition cbegin (v : Vector) : ptr := GetAddress (data_ v).
Definition cend (v : Vector) : ptr := ptr_add (GetAddress (data_ v)) (size_ v).

(** [Vector() = default] *)
Definition Vector_default : Vector :=
  {| data_ := RawMemory_default; size_ := 0 |}.

(** [explicit Vector(size_t size)] *)
Definition Vector_sized (size : Z) (h : heap T) : outcome (Vector * heap T) :=
  '(d, h1) ← RawMemory_new new_ok size h;
  h2 ← uninitialized_value_construct_n (GetAddress d) (Z.to_nat size) h1;
  Ok ({| data_ := d; size_ := size |}, h2).

(** [Vector(const Vector& other)] *)
Definition Vector_copy (other : Vector) (h : heap T) : outcome (Vector * heap T) :=
  '(d, h1) ← RawMemory_new new_ok (size_ other) h;
  h2 ← uninitialized_copy_n (GetAddress (data_ other)) (Z.to_nat (size_ other))
         (GetAddress d) h1;
  Ok ({| data_ := d; size_ := size_ other |}, h2).

(** [Vector(Vector&& other) noexcept]: the new object and [other]
    afterwards. *)
Definition Vector_move (other : Vector) (h : heap T)
    : outcome (Vector * Vector * heap T) :=
  '(d, other_data, h1) ← exchange_RawMemory (data_ other) RawMemory_default h;
  Ok ({| data_ := d; size_ := size_ other |},
      {| data_ := other_data; size_ := 0 |}, h1).

Definition Size (v : Vector) : Z := size_ v.

Definition Capacity (v : Vector) : Z := RawMemory_Capacity (data_ v).

(** [T& operator[](size_t index)] *)
Definition Vector_at (v : Vector) (index : Z) : outcome ptr :=
  _ ← assert (index <? size_ v);
  RawMemory_at (data_ v) index.

(** The relocation both [Reserve] and [Emplace] select with
    [if constexpr (std::is_nothrow_move_constructible_v<T> ||
    !std::is_copy_constructible_v<T>)]. *)
Definition relocate_n (first : ptr) (n : nat) (d_first : ptr) (h : heap T)
    : outcome (heap T) :=
  if is_nothrow_move_constructible || negb is_copy_constructible
  then uninitialized_move_n first n d_first h
  else uninitialized_copy_n first n d_first h.

(** [void Reserve(size_t new_capacity)] *)
Definition Reserve (new_capacity : Z) (v : Vector) (h : heap T)
    : outcome (Vector * heap T) :=
  if new_capacity <=? RawMemory_Capacity (data_ v) then Ok (v, h)
  else
    '(new_data, h1) ← RawMemory_new new_ok new_capacity h;
    h2 ← relocate_n (GetAddress (data_ v)) (Z.to_nat (size_ v))
           (GetAddress new_data) h1;
    h3 ← destroy_n (GetAddress (data_ v)) (Z.to_nat (size_ v)) h2;
    let '(d, new_data') := RawMemory_Swap (data_ v) new_data in
    h4 ← RawMemory_destroy new_data' h3;
    Ok ({| data_ := d; size_ := size_ v |}, h4).

(** [void Swap(Vector& other) noexcept]: [*this] and [other] afterwards. *)
Definition Swap (this other : Vector) : Vector * Vector :=
  let '(d, od) := RawMemory_Swap (data_ this) (data_ other) in
  let temp_size := size_ this in
  ({| data_ := d; size_ := size_ other |},
   {| data_ := od; size_ := temp_size |}).

(** [~Vector()], followed by the destructor of the member [data_]. *)
Definition Vector_destroy (v : Vector) (h : heap T) : outcome (heap T) :=
  h1 ← destroy (GetAddress (data_ v)) (ptr_add (GetAddress (data_ v)) (size_ v)) h;
  RawMemory_destroy (data_ v) h1.

(** The loop [for (size_t id = 0; id < n; ++id) data_[id] = rhs.data_[id];]
    of the copy assignment, started at [id] with [k] iterations to go. *)
Fixpoint assign_elements (dst src : RawMemory) (id : Z) (k : nat) (h : heap T)
    : outcome (heap T) :=
  match k with
  | O => Ok h
  | S k' =>
      q ← RawMemory_at src id;
      x ← load q h;
      p ← RawMemory_at dst id;
      h1 ← assign p x h;
      assign_elements dst src (wrap (id + 1)) k' h1
  end.

(** The body of [Vector& operator=(const Vector& rhs)] under its guard
    [this != &rhs]: [*this] afterwards ([rhs] is not modified). *)
Definition copy_assign (this rhs : Vector) (h : heap T) : outcome (Vector * heap T) :=
  if size_ rhs >? RawMemory_Capacity (data_ this) then
    '(copy, h1) ← Vector_copy rhs h;
    let '(this', copy') := Swap this copy in
    h2 ← Vector_destroy copy' h1;
    Ok (this', h2)
  else
    h2 ←
      (if size_ rhs <? size_ this then
         let ts := wrap (size_ this - size_ rhs) in
         h1 ← assign_elements (data_ this) (data_ rhs) 0 (Z.to_nat (size_ rhs)) h;
         destroy_n (ptr_add (GetAddress (data_ this)) (size_ rhs)) (Z.to_nat ts) h1
       else
         let ts := wrap (size_ rhs - size_ this) in
         h1 ← assign_elements (data_ this) (data_ rhs) 0 (Z.to_nat (size_ this)) h;
         uninitialized_copy_n (ptr_add (GetAddress (data_ this)) (size_ this))
           (Z.to_nat ts) (ptr_add (GetAddress (data_ this)) (size_ this)) h1);
    Ok ({| data_ := data_ this; size_ := size_ rhs |}, h2).

(** The body of [Vector& operator=(Vector&& rhs) noexcept] under its guard:
    [*this] and [rhs] afterwards.  The temporary that [std::exchange]
    returns is move-assigned into [data_] and then destroyed. *)
Definition move_assign (this rhs : Vector) (h : heap T)
    : outcome (Vector * Vector * heap T) :=
  '(tmp, rhs_data, h1) ← exchange_RawMemory (data_ rhs) RawMemory_default h;
  let '(d, tmp') := RawMemory_move_assign (data_ this) tmp in
  h2 ← RawMemory_destroy tmp' h1;
  Ok ({| data_ := d; size_ := size_ rhs |},
      {| data_ := rhs_data; size_ := 0 |}, h2).

(** [void Resize(size_t new_size)] *)
Definition Resize (new_size : Z) (v : Vector) (h : heap T)
    : outcome (Vector * heap T) :=
  '(v1, h1) ←
    (if RawMemory_Capacity (data_ v) >? new_size then
       h' ← destroy_n (ptr_add (GetAddress (data_ v)) new_size)
              (Z.to_nat (wrap (size_ v - new_size))) h;
       Ok (v, h')
     else if RawMemory_Capacity (data_ v) <? new_size then
       '(v', h') ← Reserve new_size v h;
       h'' ← uninitialized_value_construct_n (GetAddress (data_ v'))
               (Z.to_nat (wrap (new_size - size_ v'))) h';
       Ok (v', h'')
     else Ok (v, h));
  Ok ({| data_ := data_ v1; size_ := new_size |}, h1).

(** [void PopBack()] *)
Definition PopBack (v : Vector) (h : heap T) : outcome (Vector * heap T) :=
  p ← RawMemory_at (data_ v) (wrap (size_ v - 1));
  h1 ← destroy_at p h;
  Ok ({| data_ := data_ v; size_ := wrap (size_ v - 1) |}, h1).

(** The argument pack of [Emplace] as [Insert] and [PushBack] instantiate
    it: one reference to a [T].  [Value x] is a reference to an object
    holding [x] that lives outside the heap (a local or a temporary of the
    caller); [ConstRef p] is a [const T&] and [RvalueRef p] a [T&&] bound to
    the heap object at [p]. *)
Inductive arg : Type :=
  | Value (x : T)
  | ConstRef (p : ptr)
  | RvalueRef (p : ptr).

(** Evaluating [T(std::forward<Args>(args)...)]: the argument is read when
    the constructor runs. *)
Definition construct_from (a : arg) (h : heap T) : outcome (T * heap T) :=
  match a with
  | Value x => Ok (x, h)
  | ConstRef p => x ← load p h; Ok (x, h)
  | RvalueRef p => move_out p h
  end.

(** [template <typename... Args> iterator Emplace(const_iterator pos, Args&&... args)] *)
Definition Emplace (pos : ptr) (a : arg) (v : Vector) (h : heap T)
    : outcome (ptr * Vector * heap T) :=
  d ← distance (cbegin v) pos;
  let begin1 := wrap d in
  '(v1, h1) ←
    (if size_ v =? RawMemory_Capacity (data_ v) then
       let new_size := if size_ v =? 0 then 1 else wrap (size_ v * 2) in
       e ← distance pos (cend v);
       let end1 := wrap e in
       '(tv, h1) ← RawMemory_new new_ok new_size h;
       '(x, h2) ← construct_from a h1;
       h3 ← construct_at (ptr_add (GetAddress tv) begin1) x h2;
       h4 ← relocate_n (begin v) (Z.to_nat begin1) (GetAddress tv) h3;
       h5 ← relocate_n (ptr_add (begin v) begin1) (Z.to_nat end1)
              (ptr_add (ptr_add (GetAddress tv) begin1) 1) h4;
       h6 ← destroy_n (begin v) (Z.to_nat (size_ v)) h5;
       let '(d, tv') := RawMemory_Swap (data_ v) tv in
       h7 ← RawMemory_destroy tv' h6;
       Ok ({| data_ := d; size_ := size_ v |}, h7)
     else if negb (size_ v =? begin1) then
       '(x, h1) ← move_out (ptr_add (end_ v) (-1)) h;
       h2 ← construct_at (end_ v) x h1;
       h3 ← move_backward (ptr_add (begin v) begin1) (ptr_add (end_ v) (-1))
              (end_ v) h2;
       '(t, h4) ← construct_from a h3;
       p ← RawMemory_at (data_ v) begin1;
       h5 ← assign p t h4;
       Ok (v, h5)
     else
       '(x, h1) ← construct_from a h;
       h2 ← construct_at (ptr_add (begin v) begin1) x h1;
       Ok (v, h2));
  let v2 := {| data_ := data_ v1; size_ := wrap (size_ v1 + 1) |} in
  Ok (ptr_add (begin v2) begin1, v2, h1).

(** [template <typename... Args> T& EmplaceBack(Args&&... args)] *)
Definition EmplaceBack (a : arg) (v : Vector) (h : heap T)
    : outcome (ptr * Vector * heap T) :=
  Emplace (ptr_add (begin v) (size_ v)) a v h.

(** [void PushBack(const T& value)] and [void PushBack(T&& value)]; the
    overload is the constructor of [arg]. *)
Definition PushBack (value : arg) (v : Vector) (h : heap T)
    : outcome (Vector * heap T) :=
  '(_, v', h') ← EmplaceBack value v h;
  Ok (v', h').

(** [iterator Insert(const_iterator pos, const T& value)] and
    [iterator Insert(const_iterator pos, T&& value)] *)
Definition Insert (pos : ptr) (value : arg) (v : Vector) (h : heap T)
    : outcome (ptr * Vector * heap T) :=
  Emplace pos value v h.

(** [iterator Erase(const_iterator pos)] *)
Definition Erase (pos : ptr) (v : Vector) (h : heap T)
    : outcome (ptr * Vector * heap T) :=
  d ← distance (cbegin v) pos;
  let pos1 := wrap d in
  h1 ← move (ptr_add (ptr_add (begin v) pos1) 1) (end_ v)
         (ptr_add (begin v) pos1) h;
  h2 ← destroy_n (ptr_add (end_ v) (-1)) 1 h1;
  let v' := {| data_ := data_ v; size_ := wrap (size_ v - 1) |} in
  Ok (ptr_add (begin v') pos1, v', h2).

End VectorCode.

Arguments arg T : clear implicits.

(** ** Objects with identity

    The two assignment operators compare [this] with [&rhs].  For them the
    vectors are kept in a store of named objects, next to the heap, and the
    operators receive names. *)

Section Objects.
Context {T : Type} `{!Element T}.
Variable new_ok : heap T → Z → bool.

Record World : Type := {
  mem : heap T;
  objs : gmap nat Vector;
}.

(** [Vector& operator=(const Vector& rhs)] *)
Definition Vector_copy_assign (this rhs : nat) (w : World) : outcome World :=
  match objs w !! this, objs w !! rhs with
  | Some a, Some b =>
      if bool_decide (this ≠ rhs) then
        '(a', h') ← copy_assign new_ok a b (mem w);
        Ok {| mem := h'; objs := <[this := a']> (objs w) |}
      else Ok w
  | _, _ => Fault
  end.

(** [Vector& operator=(Vector&& rhs) noexcept] *)
Definition Vector_move_assign (this rhs : nat) (w : World) : outcome World :=
  match objs w !! this, objs w !! rhs with
  | Some a, Some b =>
      if bool_decide (this ≠ rhs) then
        '(a', b', h') ← move_assign a b (mem w);
        Ok {| mem := h'; objs := <[rhs := b']> (<[this := a']> (objs w)) |}
      else Ok w
  | _, _ => Fault
  end.

(** [Vector name(std::move(other));]: a new object [name] is move-constructed
    from the object [other]. *)
Definition Vector_move_construct (name other : nat) (w : World) : outcome World :=
  match objs w !! name, objs w !! other with
  | None, Some b =>
      '(a', b', h') ← Vector_move b (mem w);
      Ok {| mem := h'; objs := <[name := a']> (<[other := b']> (objs w)) |}
  | _, _ => Fault
  end.

End Objects.

Arguments World T : clear implicits.
Arguments Build_World {T} mem objs.

(** ** Reading a vector and the states it can be in *)

Section Abstraction.
Context {T : Type} `{!Element T}.
Variable new_ok : heap T → Z → bool.

(** Reading [v[index]]. *)
Definition get (v : Vector) (index : Z) (h : heap T) : outcome T :=
  p ← Vector_at v index; load p h.

(** The slots of the block a [RawMemory] designates: none for the null
    pointer, the block itself for a pointer to the start of a block. *)
Definition storage (h : heap T) (m : RawMemory) : option (list (option T)) :=
  match buffer_ m with
  | nullptr => Some []
  | Ptr b i => if i =? 0 then h !! b else None
  end.

(** [repr h v xs]: in heap [h] the vector [v] holds the elements [xs].
    Slots [0 .. Size) of its block hold the live objects [xs], in order, the
    slots [Size .. Capacity) are raw, and the capacity is a [size_t]. *)
Definition repr (h : heap T) (v : Vector) (xs : list T) : Prop :=
  ∃ extra : nat,
    storage h (data_ v) = Some ((Some <$> xs) ++ replicate extra None) ∧
    Capacity v = Z.of_nat (length xs + extra) ∧
    Capacity v < size_modulus ∧
    Size v = Z.of_nat (length xs).

(** The state invariant of the dynamic array: indices [0, size) hold live
    objects, indices [size, capacity) are uninitialised, and size does not
    exceed capacity. *)
Definition invariant (h : heap T) (v : Vector) : Prop :=
  ∃ xs, repr h v xs.

(** The length of block [b], if it is allocated. *)
Definition block_length (h : heap T) (b : nat) : option nat :=
  length <$> (h !! b).

(** What relocation leaves in the source slots it has read: moved-from
    objects or the objects as they were. *)
Definition left_behind (xs : list T) : list T :=
  if is_nothrow_move_constructible || negb is_copy_constructible
  then moved_from <$> xs else xs.

(** The operations that change one vector in place.  [Swap] and the move
    operations hand whole blocks from one object to another and are not
    among them. *)
Inductive operation : Type :=
  | OpReserve (new_capacity : Z)
  | OpResize (new_size : Z)
  | OpPushBack (value : arg T)
  | OpEmplaceBack (a : arg T)
  | OpPopBack
  | OpEmplace (pos : ptr) (a : arg T)
  | OpInsert (pos : ptr) (value : arg T)
  | OpErase (pos : ptr)
  | OpCopyAssign (rhs : Vector).

Definition drop_result {A} (r : outcome (A * Vector * heap T))
    : outcome (Vector * heap T) :=
  '(_, v, h) ← r; Ok (v, h).

Definition perform (op : operation) (v : Vector) (h : heap T)
    : outcome (Vector * heap T) :=
  match op with
  | OpReserve k => Reserve new_ok k v h
  | OpResize n => Resize new_ok n v h
  | OpPushBack a => PushBack new_ok a v h
  | OpEmplaceBack a => drop_result (EmplaceBack new_ok a v h)
  | OpPopBack => PopBack v h
  | OpEmplace pos a => drop_result (Emplace new_ok pos a v h)
  | OpInsert pos a => drop_result (Insert new_ok pos a v h)
  | OpErase pos => drop_result (Erase pos v h)
  | OpCopyAssign rhs => copy_assign new_ok v rhs h
  end.

(** The state after the object [src] has been moved into the object [dst]:
    [src] is empty, with no capacity, and [dst] holds [xs]. *)
Definition moved_into (w : World T) (dst src : nat) (xs : list T) : Prop :=
  ∃ a b,
    objs w !! dst = Some a ∧ objs w !! src = Some b ∧
    Size b = 0 ∧ Capacity b = 0 ∧ repr (mem w) a xs.

(** Appending the values [vs], one [PushBack] each. *)
Fixpoint append_all (vs : list T) (v : Vector) (h : heap T)
    : outcome (Vector * heap T) :=
  match vs with
  | [] => Ok (v, h)
  | x :: vs' => '(v', h') ← PushBack new_ok (Value x) v h; append_all vs' v' h'
  end.

End Abstraction.

(** ** A concrete element type and allocator

    [int] elements: value-initialisation gives [0], moving an [int] leaves
    it as it was, both traits hold, and an [int] takes 4 bytes.  The
    allocator [always] serves every request. *)

#[global] Instance int_element : Element Z := {|
  value_init := 0;
  moved_from := λ x, x;
  is_nothrow_move_constructible := true;
  is_copy_constructible := true;
  sizeof_T := 4;
  sizeof_T_range := conj eq_refl eq_refl;
|}.

Definition always : heap Z → Z → bool := λ _ _, true.

(** The vector [1, 2, 3] built by three appends to an empty vector; it ends
    up with capacity 4. *)
Definition one_two_three : outcome (Vector * heap Z) :=
  append_all always [1; 2; 3] Vector_default ∅.

(** The vector [1, 2, 3] built with capacity 3. *)
Definition one_two_three_full : outcome (Vector * heap Z) :=
  '(v, h) ← Reserve always 3 Vector_default ∅;
  append_all always [1; 2; 3] v h.

(** The states these two programs end in. *)
Definition v123 : Vector :=
  {| data_ := {| buffer_ := Ptr 2 0; capacity_ := 4 |}; size_ := 3 |}.

Definition h123 : heap Z := {[ 2%nat := [Some 1; Some 2; Some 3; None] ]}.

Definition v123_full : Vector :=
  {| data_ := {| buffer_ := Ptr 0 0; capacity_ := 3 |}; size_ := 3 |}.

Definition h123_full : heap Z := {[ 0%nat := [Some 1; Some 2; Some 3] ]}.

(** Running the destructors of the objects [names] of a world, in that
    order; what is left of the heap. *)
Fixpoint destroy_objects {T : Type} `{!Element T} (names : list nat) (w : World T)
    : outcome (heap T) :=
  match names with
  | [] => Ok (mem w)
  | name :: names' =>
      match objs w !! name with
      | Some v =>
          h ← Vector_destroy v (mem w);
          destroy_objects names' {| mem := h; objs := delete name (objs w) |}
      | None => Fault
      end
  end.

(** [Vector<int> a(2), b(1); a = std::move(b);] and then the end of the
    scope: [b] and [a] are destroyed. *)
Definition move_assign_program : outcome (heap Z) :=
  '(a, h) ← Vector_sized always 2 ∅;
  '(b, h) ← Vector_sized always 1 h;
  w ← Vector_move_assign 0 1 {| mem := h; objs := {[ 0%nat := a; 1%nat := b ]} |};
  destroy_objects [1%nat; 0%nat] w.

(** [Vector<int> a(1), b(2); a = b;] and then the end of the scope.  The
    assignment takes the copy-and-swap path. *)
Definition copy_assign_program : outcome (heap Z) :=
  '(a, h) ← Vector_sized always 1 ∅;
  '(b, h) ← Vector_sized always 2 h;
  w ← Vector_copy_assign always 0 1 {| mem := h; objs := {[ 0%nat := a; 1%nat := b ]} |};
  destroy_objects [1%nat; 0%nat] w.

(** [Vector<int> a; a.Reserve(2); a.PushBack(1); Vector<int> b;
    b.PushBack(7); b.PushBack(8);]: the world in which [a = b] is then run. *)
Definition short_and_long : outcome (World Z) :=
  '(a, h) ← Reserve always 2 Vector_default ∅;
  '(a, h) ← PushBack always (Value 1) a h;
  '(b, h) ← append_all always [7; 8] Vector_default h;
  Ok {| mem := h; objs := {[ 0%nat := a; 1%nat := b ]} |}.

(** The world that [short_and_long] builds. *)
Definition short_and_long_world : World Z :=
  {| mem := {[ 0%nat := [Some 1; None]; 2%nat := [Some 7; Some 8] ]};
     objs := {[ 0%nat := {| data_ := {| buffer_ := Ptr 0 0; capacity_ := 2 |};
                            size_ := 1 |};
                1%nat := {| data_ := {| buffer_ := Ptr 2 0; capacity_ := 2 |};
                            size_ := 2 |} ]} |}.

(** A world with the vector [1, 2, 3] as object 1 and an empty vector as
    object 0. *)
Definition two_objects : World Z :=
  {| mem := h123; objs := {[ 0%nat := Vector_default; 1%nat := v123 ]} |}.


(** ** Calls of the member functions with positions given as indices, and
    the sequence they act on *)

Section Calls.
Context {T : Type} `{!Element T}.
Variable new_ok : heap T → Z → bool.

(** [owns h0 h v]: the heap [h] is the heap [h0] with, in addition, the
    block of [v]; a vector without a block adds nothing. *)
Definition owns (h0 h : heap T) (v : Vector) : Prop :=
  match buffer_ (data_ v) with
  | nullptr => h = h0
  | Ptr a _ => h0 !! a = None ∧ ∃ blk, h = <[a := blk]> h0
  end.

(** [within a h h']: the heap [h'] is the heap [h] except, possibly, for
    the contents of block [a]. *)
Definition within (a : nat) (h h' : heap T) : Prop :=
  h' = h ∨ ∃ blk, h' = <[a := blk]> h.

(** The capacity the doubling policy arrives at for [n] elements appended
    to an empty vector: none for none, and otherwise the power of two [c]
    with [n <= c < 2 * n]. *)
Definition doubled (n : nat) (c : Z) : Prop :=
  (n = 0%nat ∧ c = 0) ∨
  ∃ k : nat, c = 2 ^ Z.of_nat k ∧ Z.of_nat n ≤ c < 2 * Z.of_nat n.

(** Two vectors whose blocks are different blocks. *)
Definition separate (a b : Vector) : Prop :=
  ∀ c i j, buffer_ (data_ a) = Ptr c i → buffer_ (data_ b) ≠ Ptr c j.

(** A call of a member function by a client that holds no reference into
    the vector: values come from outside, positions are [begin() + k]. *)
Inductive call : Type :=
  | CallPushBack (x : T)
  | CallPopBack
  | CallInsert (k : nat) (x : T)
  | CallErase (k : nat)
  | CallReserve (n : Z)
  | CallResize (n : nat).

Definition run_call (c : call) (v : Vector) (h : heap T)
    : outcome (Vector * heap T) :=
  match c with
  | CallPushBack x => PushBack new_ok (Value x) v h
  | CallPopBack => PopBack v h
  | CallInsert k x =>
      drop_result (Insert new_ok (ptr_add (begin v) (Z.of_nat k)) (Value x) v h)
  | CallErase k => drop_result (Erase (ptr_add (begin v) (Z.of_nat k)) v h)
  | CallReserve n => Reserve new_ok n v h
  | CallResize n => Resize new_ok (Z.of_nat n) v h
  end.

Fixpoint run_calls (cs : list call) (v : Vector) (h : heap T)
    : outcome (Vector * heap T) :=
  match cs with
  | [] => Ok (v, h)
  | c :: cs' => '(v', h') ← run_call c v h; run_calls cs' v' h'
  end.

(** What a call does to the sequence of elements, when the call is one the
    header handles: [PopBack] and [Erase] need an element to remove, [Insert]
    a position up to the end, [Reserve] a count whose byte count
    [n * sizeof(T)] is a [size_t], and [Resize] a size that is not larger
    than the current one. *)
Definition list_call (c : call) (xs : list T) : option (list T) :=
  match c with
  | CallPushBack x => Some (xs ++ [x])
  | CallPopBack => if decide (xs = []) then None else Some (take (length xs - 1) xs)
  | CallInsert k x =>
      if decide (k ≤ length xs)%nat then Some (take k xs ++ x :: drop k xs) else None
  | CallErase k =>
      if decide (k < length xs)%nat then Some (take k xs ++ drop (S k) xs) else None
  | CallReserve n =>
      if decide (0 ≤ n ∧ n * sizeof_T < size_modulus) then Some xs else None
  | CallResize n => if decide (n ≤ length xs)%nat then Some (take n xs) else None
  end.

Fixpoint list_calls (cs : list call) (xs : list T) : option (list T) :=
  match cs with
  | [] => Some xs
  | c :: cs' => xs' ← list_call c xs; list_calls cs' xs'
  end.

End Calls.

Arguments call T : clear implicits.

(** An allocator that refuses every request. *)
Definition never : heap Z → Z → bool := λ _ _, false.

(** * Facts about the memory operations *)

Lemma bind_Ok {A B} (a : A) (f : A → outcome B) : (Ok a ≫= f) = f a.
Proof. reflexivity. Qed.

Section MemoryFacts.
Context {T : Type} `{!Element T}.
Implicit Types (h : heap T) (blk pre post : list (option T)) (xs ys : list T).

Lemma slot_at_Ptr h b z (i : nat) blk :
  h !! b = Some blk → z = Z.of_nat i → slot_at h (Ptr b z) = blk !! i.
Proof.
  intros Hb ->. unfold slot_at.
  destruct (Z.leb_spec 0 (Z.of_nat i)); [|lia].
  rewrite Hb. simpl. by rewrite Nat2Z.id.
Qed.

Lemma load_Ptr h b z (i : nat) blk x :
  h !! b = Some blk → z = Z.of_nat i → blk !! i = Some (Some x) →
  load (Ptr b z) h = Ok x.
Proof.
  intros Hb Hz Hi. unfold load. by rewrite (slot_at_Ptr h b z i blk), Hi.
Qed.

Lemma write_Ptr h b z (i : nat) blk s :
  h !! b = Some blk → z = Z.of_nat i → (i < length blk)%nat →
  write (Ptr b z) s h = Ok (<[b := <[i := s]> blk]> h).
Proof.
  intros Hb -> Hi. unfold write. rewrite Hb.
  destruct (Z.leb_spec 0 (Z.of_nat i)); [|lia].
  destruct (Z.ltb_spec (Z.of_nat i) (Z.of_nat (length blk))); [|lia].
  simpl. by rewrite Nat2Z.id.
Qed.

Lemma middle_lookup pre (s : option T) post (i : nat) :
  i = length pre → (pre ++ s :: post) !! i = Some s.
Proof. intros ->. by apply list_lookup_middle. Qed.

Lemma middle_insert pre (s s' : option T) post (i : nat) :
  i = length pre → <[i := s']> (pre ++ s :: post) = pre ++ s' :: post.
Proof.
  intros ->. rewrite insert_app_r_alt by lia.
  by rewrite Nat.sub_diag.
Qed.

Lemma middle_length pre (s : option T) post (i : nat) :
  i = length pre → (i < length (pre ++ s :: post))%nat.
Proof. intros ->. rewrite length_app. simpl. lia. Qed.

(** One-slot steps on a block written [pre ++ s :: post]. *)
Lemma load_middle h b z pre x post :
  h !! b = Some (pre ++ Some x :: post) → z = Z.of_nat (length pre) →
  load (Ptr b z) h = Ok x.
Proof.
  intros Hb Hz. eapply load_Ptr; eauto. by apply middle_lookup.
Qed.

Lemma write_middle h b z pre s s' post :
  h !! b = Some (pre ++ s :: post) → z = Z.of_nat (length pre) →
  write (Ptr b z) s' h = Ok (<[b := pre ++ s' :: post]> h).
Proof.
  intros Hb Hz. erewrite write_Ptr; eauto using middle_length.
  by rewrite middle_insert.
Qed.

Lemma construct_at_middle h b z pre s x post :
  h !! b = Some (pre ++ s :: post) → z = Z.of_nat (length pre) →
  construct_at (Ptr b z) x h = Ok (<[b := pre ++ Some x :: post]> h).
Proof. apply write_middle. Qed.

Lemma destroy_at_middle h b z pre x post :
  h !! b = Some (pre ++ Some x :: post) → z = Z.of_nat (length pre) →
  destroy_at (Ptr b z) h = Ok (<[b := pre ++ None :: post]> h).
Proof.
  intros Hb Hz. unfold destroy_at.
  rewrite (load_middle h b z pre x post) by done. rewrite bind_Ok.
  by apply write_middle with (s := Some x).
Qed.

Lemma assign_middle h b z pre x y post :
  h !! b = Some (pre ++ Some x :: post) → z = Z.of_nat (length pre) →
  assign (Ptr b z) y h = Ok (<[b := pre ++ Some y :: post]> h).
Proof.
  intros Hb Hz. unfold assign.
  rewrite (load_middle h b z pre x post) by done. rewrite bind_Ok.
  by apply write_middle with (s := Some x).
Qed.

Lemma move_out_middle h b z pre x post :
  h !! b = Some (pre ++ Some x :: post) → z = Z.of_nat (length pre) →
  move_out (Ptr b z) h = Ok (x, <[b := pre ++ Some (moved_from x) :: post]> h).
Proof.
  intros Hb Hz. unfold move_out.
  rewrite (load_middle h b z pre x post) by done. rewrite bind_Ok.
  by rewrite (write_middle h b z pre (Some x) _ post).
Qed.

End MemoryFacts.

#[local] Arguments load : simpl never.
#[local] Arguments write : simpl never.
#[local] Arguments construct_at : simpl never.
#[local] Arguments destroy_at : simpl never.
#[local] Arguments assign : simpl never.
#[local] Arguments move_out : simpl never.
#[local] Arguments ptr_add : simpl never.
#[local] Arguments mbind : simpl never.
#[local] Arguments Deallocate : simpl never.
#[local] Arguments distance : simpl never.
#[local] Arguments relocate_n : simpl never.

Section BulkFacts.
Context {T : Type} `{!Element T}.
Implicit Types (h : heap T) (blk pre post holes : list (option T)) (xs ys : list T).

Lemma ptr_add_Ptr b z k : ptr_add (Ptr b z) k = Ptr b (z + k).
Proof. reflexivity. Qed.

Lemma length_snoc {A} (l : list A) (x : A) :
  Z.of_nat (length l) + 1 = Z.of_nat (length (l ++ [x])).
Proof. rewrite length_app. simpl. lia. Qed.

Lemma insert_pair_absorb h (a b : nat) (A1 A2 B1 B2 : list (option T)) :
  a ≠ b →
  <[b := B2]> (<[a := A2]> (<[b := B1]> (<[a := A1]> h)))
  = <[b := B2]> (<[a := A2]> h).
Proof.
  intros Hab. apply map_eq. intros i.
  destruct (decide (i = b)) as [->|Hb]; [by rewrite !lookup_insert_eq|].
  rewrite !(lookup_insert_ne _ b) by done.
  destruct (decide (i = a)) as [->|Ha]; [by rewrite !lookup_insert_eq|].
  by rewrite !lookup_insert_ne by done.
Qed.

Lemma uninitialized_value_construct_n_block h b z pre holes post :
  h !! b = Some (pre ++ holes ++ post) → z = Z.of_nat (length pre) →
  uninitialized_value_construct_n (Ptr b z) (length holes) h
  = Ok (<[b := pre ++ replicate (length holes) (Some value_init) ++ post]> h).
Proof.
  revert h z pre. induction holes as [|s holes IH]; intros h z pre Hb Hz; simpl.
  - by rewrite insert_id.
  - erewrite construct_at_middle by eauto. rewrite bind_Ok, ptr_add_Ptr.
    erewrite (IH _ _ (pre ++ [Some value_init])).
    + by rewrite insert_insert_eq, <- app_assoc.
    + by rewrite lookup_insert_eq, <- app_assoc.
    + subst z. apply length_snoc.
Qed.

Lemma destroy_n_block h b z pre xs post :
  h !! b = Some (pre ++ (Some <$> xs) ++ post) → z = Z.of_nat (length pre) →
  destroy_n (Ptr b z) (length xs) h
  = Ok (<[b := pre ++ replicate (length xs) None ++ post]> h).
Proof.
  revert h z pre. induction xs as [|x xs IH]; intros h z pre Hb Hz; simpl.
  - by rewrite insert_id.
  - simpl in Hb. erewrite destroy_at_middle by eauto. rewrite bind_Ok, ptr_add_Ptr.
    erewrite (IH _ _ (pre ++ [None])).
    + by rewrite insert_insert_eq, <- app_assoc.
    + by rewrite lookup_insert_eq, <- app_assoc.
    + subst z. apply length_snoc.
Qed.

Lemma uninitialized_copy_n_blocks h a b za zb preA xs postA preB holes postB :
  a ≠ b →
  h !! a = Some (preA ++ (Some <$> xs) ++ postA) → za = Z.of_nat (length preA) →
  h !! b = Some (preB ++ holes ++ postB) → zb = Z.of_nat (length preB) →
  length holes = length xs →
  uninitialized_copy_n (Ptr a za) (length xs) (Ptr b zb) h
  = Ok (<[b := preB ++ (Some <$> xs) ++ postB]> h).
Proof.
  intros Hab. revert h za zb preA preB holes.
  induction xs as [|x xs IH]; intros h za zb preA preB holes Ha Hza Hb Hzb Hlen.
  - destruct holes; [|done]. simpl. by rewrite insert_id.
  - destruct holes as [|s holes]; [done|]. simpl in *.
    erewrite load_middle by eauto. rewrite bind_Ok.
    erewrite construct_at_middle by eauto. rewrite bind_Ok, !ptr_add_Ptr.
    erewrite (IH _ _ _ (preA ++ [Some x]) (preB ++ [Some x]) holes).
    + by rewrite insert_insert_eq, <- app_assoc.
    + by rewrite lookup_insert_ne, <- app_assoc.
    + subst za. apply length_snoc.
    + by rewrite lookup_insert_eq, <- app_assoc.
    + subst zb. apply length_snoc.
    + lia.
Qed.

Lemma uninitialized_move_n_blocks h a b za zb preA xs postA preB holes postB :
  a ≠ b →
  h !! a = Some (preA ++ (Some <$> xs) ++ postA) → za = Z.of_nat (length preA) →
  h !! b = Some (preB ++ holes ++ postB) → zb = Z.of_nat (length preB) →
  length holes = length xs →
  uninitialized_move_n (Ptr a za) (length xs) (Ptr b zb) h
  = Ok (<[b := preB ++ (Some <$> xs) ++ postB]>
          (<[a := preA ++ (Some <$> (moved_from <$> xs)) ++ postA]> h)).
Proof.
  intros Hab. revert h za zb preA preB holes.
  induction xs as [|x xs IH]; intros h za zb preA preB holes Ha Hza Hb Hzb Hlen.
  - destruct holes; [|done]. simpl. by rewrite !insert_id by (by rewrite ?lookup_insert_ne).
  - destruct holes as [|s holes]; [done|]. simpl in *.
    erewrite move_out_middle by eauto. rewrite bind_Ok.
    erewrite construct_at_middle; [| by rewrite lookup_insert_ne | done].
    rewrite bind_Ok, !ptr_add_Ptr.
    erewrite (IH _ _ _ (preA ++ [Some (moved_from x)]) (preB ++ [Some x]) holes).
    + rewrite <- !app_assoc. simpl. f_equal. by apply insert_pair_absorb.
    + rewrite lookup_insert_ne by done. by rewrite lookup_insert_eq, <- app_assoc.
    + subst za. apply length_snoc.
    + by rewrite lookup_insert_eq, <- app_assoc.
    + subst zb. apply length_snoc.
    + lia.
Qed.

End BulkFacts.

Ltac len := rewrite ?length_app, ?length_fmap, ?length_replicate; simpl; lia.

Section ShiftFacts.
Context {T : Type} `{!Element T}.
Implicit Types (h : heap T) (blk pre post holes : list (option T)) (xs ys : list T).

Lemma move_loop_block h b zf zd pre w ys post :
  h !! b = Some (pre ++ Some w :: (Some <$> ys) ++ post) →
  zd = Z.of_nat (length pre) → zf = zd + 1 →
  ∃ w', move_loop (length ys) (Ptr b zf) (Ptr b zd) h
        = Ok (<[b := pre ++ (Some <$> ys) ++ Some w' :: post]> h).
Proof.
  revert h zf zd pre w. induction ys as [|y ys IH]; intros h zf zd pre w Hb Hzd Hzf.
  - exists w. simpl. by rewrite insert_id.
  - simpl.
    erewrite (move_out_middle h b zf (pre ++ [Some w]) y ((Some <$> ys) ++ post));
      [| by rewrite <- app_assoc | len].
    rewrite bind_Ok.
    erewrite (assign_middle _ b zd pre w y);
      [| by rewrite lookup_insert_eq, <- app_assoc | done].
    rewrite bind_Ok, !ptr_add_Ptr, insert_insert_eq.
    destruct (IH (<[b := pre ++ Some y :: Some (moved_from y) :: (Some <$> ys) ++ post]> h)
                (zf + 1) (zd + 1) (pre ++ [Some y]) (moved_from y)) as [w' Hw'].
    + by rewrite lookup_insert_eq, <- app_assoc.
    + len.
    + lia.
    + exists w'. rewrite Hw'. by rewrite insert_insert_eq, <- app_assoc.
Qed.

Lemma move_backward_loop_block h b zl zd pre ys w post :
  h !! b = Some (pre ++ (Some <$> ys) ++ Some w :: post) →
  zl = Z.of_nat (length pre + length ys) → zd = zl + 1 →
  ∃ w', move_backward_loop (length ys) (Ptr b zl) (Ptr b zd) h
        = Ok (<[b := pre ++ Some w' :: (Some <$> ys) ++ post]> h).
Proof.
  revert h zl zd w post. induction ys as [|y ys IH] using rev_ind;
    intros h zl zd w post Hb Hzl Hzd.
  - exists w. simpl. by rewrite insert_id.
  - rewrite length_app, Nat.add_1_r. simpl. rewrite !ptr_add_Ptr.
    rewrite fmap_app in Hb. simpl in Hb.
    rewrite length_app in Hzl. simpl in Hzl.
    erewrite (move_out_middle h b _ (pre ++ (Some <$> ys)) y (Some w :: post));
      [| by rewrite Hb, <- !app_assoc | len].
    rewrite bind_Ok.
    erewrite (assign_middle _ b _ (pre ++ (Some <$> ys) ++ [Some (moved_from y)]) w y post);
      [| by rewrite lookup_insert_eq, <- !app_assoc | len].
    rewrite bind_Ok, insert_insert_eq.
    destruct (IH (<[b := (pre ++ (Some <$> ys) ++ [Some (moved_from y)]) ++ Some y :: post]> h)
                (zl + -1) (zd + -1) (moved_from y) (Some y :: post)) as [w' Hw'].
    + by rewrite lookup_insert_eq, <- !app_assoc.
    + lia.
    + lia.
    + exists w'. rewrite Hw'. rewrite insert_insert_eq, fmap_app, <- !app_assoc. done.
Qed.

End ShiftFacts.

(** * Facts about allocation and relocation *)

Lemma wrap_small z : is_size_t z → wrap z = z.
Proof. intros Hz. unfold wrap. apply Z.mod_small. exact Hz. Qed.

Lemma size_modulus_eq : size_modulus = 18446744073709551616.
Proof. reflexivity. Qed.

Section AllocFacts.
Context {T : Type} `{!Element T}.
Variable new_ok : heap T → Z → bool.
Implicit Types (h : heap T) (blk pre post holes : list (option T)) (xs ys : list T).

Lemma fresh_lookup h : h !! fresh (dom h) = None.
Proof. apply not_elem_of_dom, is_fresh. Qed.

Lemma fresh_ne h (a : nat) blk : h !! a = Some blk → a ≠ fresh (dom h).
Proof. intros Ha ->. by rewrite fresh_lookup in Ha. Qed.

Lemma sizeof_T_pos : 0 < sizeof_T.
Proof. apply sizeof_T_range. Qed.

(** A byte count that does not wrap around buys exactly [n] slots, and
    no byte count buys more. *)
Lemma slots_exact n :
  0 ≤ n → n * sizeof_T < size_modulus → wrap (n * sizeof_T) / sizeof_T = n.
Proof.
  intros Hn Hfit. pose proof sizeof_T_pos as Hs.
  rewrite wrap_small by (unfold is_size_t; nia).
  apply Z.div_mul. lia.
Qed.

Lemma slots_le n : 0 ≤ n → wrap (n * sizeof_T) / sizeof_T ≤ n.
Proof.
  intros Hn. pose proof sizeof_T_pos as Hs.
  assert (wrap (n * sizeof_T) ≤ n * sizeof_T) as Hle.
  { unfold wrap. apply Z.mod_le; [nia|]. by rewrite size_modulus_eq. }
  apply Z.div_le_upper_bound; [done|]. lia.
Qed.

Lemma bytes_is_size_t n : 0 ≤ n → n * sizeof_T < size_modulus → n < size_modulus.
Proof. intros Hn Hfit. pose proof sizeof_T_pos as Hs. nia. Qed.

Lemma Allocate_ok h n :
  0 < n → n * sizeof_T < size_modulus → new_ok h n = true →
  Allocate new_ok n h
  = Ok (Ptr (fresh (dom h)) 0, <[fresh (dom h) := replicate (Z.to_nat n) None]> h).
Proof.
  intros Hn Hfit Hok. unfold Allocate.
  destruct (Z.eqb_spec n 0); [lia|]. rewrite Hok. cbv zeta.
  by rewrite slots_exact by lia.
Qed.

Lemma RawMemory_new_ok h n :
  0 < n → n * sizeof_T < size_modulus → new_ok h n = true →
  RawMemory_new new_ok n h
  = Ok ({| buffer_ := Ptr (fresh (dom h)) 0; capacity_ := n |},
        <[fresh (dom h) := replicate (Z.to_nat n) None]> h).
Proof.
  intros Hn Hfit Hok. unfold RawMemory_new. by rewrite Allocate_ok.
Qed.

Lemma length_left_behind xs : length (left_behind xs) = length xs.
Proof. unfold left_behind. destruct (_ || _); by rewrite ?length_fmap. Qed.

Lemma relocate_n_blocks h a b za zb preA xs postA preB holes postB :
  a ≠ b →
  h !! a = Some (preA ++ (Some <$> xs) ++ postA) → za = Z.of_nat (length preA) →
  h !! b = Some (preB ++ holes ++ postB) → zb = Z.of_nat (length preB) →
  length holes = length xs →
  relocate_n (Ptr a za) (length xs) (Ptr b zb) h
  = Ok (<[b := preB ++ (Some <$> xs) ++ postB]>
          (<[a := preA ++ (Some <$> left_behind xs) ++ postA]> h)).
Proof.
  intros Hab Ha Hza Hb Hzb Hlen. unfold relocate_n, left_behind.
  destruct (_ || _).
  - by eapply uninitialized_move_n_blocks.
  - erewrite uninitialized_copy_n_blocks by eauto.
    by rewrite (insert_id h a).
Qed.

Lemma relocate_n_slots h a b za zb n preA xs postA preB holes postB :
  a ≠ b →
  h !! a = Some (preA ++ (Some <$> xs) ++ postA) → za = Z.of_nat (length preA) →
  h !! b = Some (preB ++ holes ++ postB) → zb = Z.of_nat (length preB) →
  length holes = length xs → n = length xs →
  relocate_n (Ptr a za) n (Ptr b zb) h
  = Ok (<[b := preB ++ (Some <$> xs) ++ postB]>
          (<[a := preA ++ (Some <$> left_behind xs) ++ postA]> h)).
Proof. intros ? ? ? ? ? ? ->. by eapply relocate_n_blocks. Qed.

Lemma destroy_n_slots h b z n pre xs post :
  h !! b = Some (pre ++ (Some <$> xs) ++ post) → z = Z.of_nat (length pre) →
  n = length xs →
  destroy_n (Ptr b z) n h = Ok (<[b := pre ++ replicate n None ++ post]> h).
Proof. intros ? ? ->. by apply destroy_n_block. Qed.

Lemma relocate_n_zero (p q : ptr) h : relocate_n p 0 q h = Ok h.
Proof. unfold relocate_n. by destruct (_ || _). Qed.

End AllocFacts.

(** * Facts about the representation *)

Section ReprFacts.
Context {T : Type} `{!Element T}.
Variable new_ok : heap T → Z → bool.
Implicit Types (h : heap T) (v : Vector) (blk pre post holes : list (option T)) (xs ys : list T).

Lemma repr_cases h v xs :
  repr h v xs →
  ∃ extra : nat,
    Capacity v = Z.of_nat (length xs + extra) ∧
    Capacity v < size_modulus ∧
    Size v = Z.of_nat (length xs) ∧
    ((buffer_ (data_ v) = nullptr ∧ xs = [] ∧ extra = 0%nat) ∨
     (∃ a, buffer_ (data_ v) = Ptr a 0 ∧
           h !! a = Some ((Some <$> xs) ++ replicate extra None))).
Proof.
  intros (extra & Hst & Hcap & Hlt & Hsz). exists extra.
  repeat split; try done. unfold storage in Hst.
  destruct (buffer_ (data_ v)) as [|a i].
  - left. injection Hst as Hst. symmetry in Hst.
    apply app_eq_nil in Hst as [Hxs Hex].
    apply fmap_nil_inv in Hxs. destruct extra; [done|discriminate].
  - right. destruct (Z.eqb_spec i 0) as [Hi|]; [|done]. subst i. by exists a.
Qed.

Lemma repr_default h : repr h Vector_default [].
Proof. exists 0%nat. by repeat split. Qed.

Lemma repr_size h v xs : repr h v xs → Size v = Z.of_nat (length xs).
Proof. by intros (? & _ & _ & _ & ?). Qed.

Lemma repr_unique h v xs ys : repr h v xs → repr h v ys → xs = ys.
Proof.
  intros (e1 & Hs1 & _ & _ & Hz1) (e2 & Hs2 & _ & _ & Hz2).
  rewrite Hs1 in Hs2. injection Hs2 as Heq.
  apply app_inj_1 in Heq as [Heq _]; [|rewrite !length_fmap; lia].
  by apply (inj (fmap Some)) in Heq.
Qed.

Lemma repr_get h v xs (i : nat) x :
  repr h v xs → xs !! i = Some x → get v (Z.of_nat i) h = Ok x.
Proof.
  intros Hr Hi. pose proof (lookup_lt_Some _ _ _ Hi) as Hlt.
  apply repr_cases in Hr as (extra & Hcap & _ & Hsz & [(_ & -> & _)|(a & Ha & Hb)]);
    [done|].
  unfold get, Vector_at, RawMemory_at. unfold Capacity, RawMemory_Capacity, Size in *.
  destruct (Z.ltb_spec (Z.of_nat i) (size_ v)); [|lia].
  destruct (Z.ltb_spec (Z.of_nat i) (capacity_ (data_ v))); [|lia].
  simpl. rewrite !bind_Ok, Ha. unfold ptr_add.
  eapply (load_Ptr _ a _ i); [done|lia|].
  rewrite lookup_app_l by (rewrite length_fmap; lia).
  by rewrite list_lookup_fmap, Hi.
Qed.

End ReprFacts.

(** * Reserve *)

Section ReserveFacts.
Context {T : Type} `{!Element T}.
Variable new_ok : heap T → Z → bool.
Implicit Types (h : heap T) (v : Vector) (blk pre post holes : list (option T)) (xs ys : list T).

Lemma Reserve_noop h v k :
  k ≤ Capacity v → Reserve new_ok k v h = Ok (v, h).
Proof.
  intros Hk. unfold Reserve, Capacity in *.
  by destruct (Z.leb_spec k (RawMemory_Capacity (data_ v))); [|lia].
Qed.

Lemma Deallocate_block h (a : nat) blk :
  h !! a = Some blk → Deallocate (Ptr a 0) h = Ok (delete a h).
Proof. intros Ha. unfold Deallocate. by rewrite Ha. Qed.

Lemma Reserve_grow h v xs k :
  repr h v xs → Capacity v < k → k * sizeof_T < size_modulus →
  new_ok h k = true →
  ∃ v' h', Reserve new_ok k v h = Ok (v', h') ∧
           repr h' v' xs ∧ Capacity v' = k ∧ Size v' = Size v.
Proof.
  intros Hr Hk Hfit Hok.
  apply repr_cases in Hr as (extra & Hcap & _ & Hsz & Hbuf).
  assert (Hlt : k < size_modulus) by (apply bytes_is_size_t; [lia|done]).
  destruct v as [[buf cap] sz]. unfold Capacity, Size, RawMemory_Capacity in *.
  simpl in *. subst cap sz.
  unfold Reserve, RawMemory_Capacity. simpl.
  destruct (Z.leb_spec k (Z.of_nat (length xs + extra))); [lia|].
  rewrite RawMemory_new_ok by (done || lia). rewrite bind_Ok.
  set (b := fresh (dom h)). unfold GetAddress. simpl.
  rewrite Nat2Z.id.
  assert (Hrep : replicate (Z.to_nat k) (@None T)
                 = [] ++ replicate (length xs) None
                      ++ replicate (Z.to_nat k - length xs) None).
  { simpl. rewrite <- replicate_add. f_equal. lia. }
  destruct Hbuf as [(-> & -> & ->)|(a & -> & Ha)].
  - simpl. rewrite relocate_n_zero, bind_Ok. simpl.
    eexists _, _. split; [reflexivity|]. split; [|done].
    exists (Z.to_nat k). unfold storage. simpl.
    rewrite lookup_insert_eq. repeat split; try done.
    unfold Capacity, RawMemory_Capacity. simpl in *. lia.
  - assert (Hab : a ≠ b) by (by eapply fresh_ne).
    erewrite (relocate_n_slots _ a b 0 0 _ [] xs (replicate extra None) []);
      [| done | by rewrite lookup_insert_ne | done
       | by rewrite lookup_insert_eq, Hrep | done | by rewrite length_replicate
       | done ].
    rewrite bind_Ok.
    erewrite (destroy_n_slots _ a 0 _ [] (left_behind xs) (replicate extra None));
      [| rewrite lookup_insert_ne by done; by rewrite lookup_insert_eq | done
       | by rewrite length_left_behind ].
    rewrite bind_Ok. unfold RawMemory_destroy. simpl.
    erewrite Deallocate_block by (by rewrite lookup_insert_eq).
    rewrite bind_Ok.
    eexists _, _. split; [reflexivity|]. split; [|done].
    exists (Z.to_nat k - length xs)%nat. unfold storage. simpl.
    rewrite lookup_delete_ne by done.
    rewrite lookup_insert_ne by done.
    rewrite lookup_insert_eq.
    repeat split; try done.
    unfold Capacity, RawMemory_Capacity. simpl. lia.
Qed.

End ReserveFacts.

(** * PopBack and Erase *)

Lemma distance_Ptr (a : nat) i j : distance (Ptr a i) (Ptr a j) = Ok (j - i).
Proof. unfold distance. by rewrite Nat.eqb_refl. Qed.

Lemma assert_true : assert true = Ok ().
Proof. reflexivity. Qed.

Ltac zify_sizes :=
  unfold Capacity, Size, RawMemory_Capacity, GetAddress, begin, end_, cbegin, cend,
    is_size_t in *;
  simpl in *; rewrite ?size_modulus_eq in *.

Section RemovalFacts.
Context {T : Type} `{!Element T}.
Implicit Types (h : heap T) (v : Vector) (blk pre post holes : list (option T)) (xs ys : list T).

Lemma PopBack_spec h v xs l :
  repr h v (xs ++ [l]) →
  ∃ a blk,
    buffer_ (data_ v) = Ptr a 0 ∧ h !! a = Some blk ∧
    PopBack v h = Ok ({| data_ := data_ v; size_ := Size v - 1 |},
                      <[a := <[length xs := None]> blk]> h) ∧
    repr (<[a := <[length xs := None]> blk]> h)
         {| data_ := data_ v; size_ := Size v - 1 |} xs.
Proof.
  intros Hr.
  apply repr_cases in Hr as (extra & Hcap & Hlt & Hsz & [(_ & Hnil & _)|(a & Hbuf & Ha)]).
  { by destruct xs. }
  destruct v as [[buf cap] sz]. zify_sizes. subst buf cap sz.
  rewrite length_app in *. simpl in *.
  exists a, ((Some <$> xs ++ [l]) ++ replicate extra None). split; [done|]. split; [done|].
  assert (Hblk : (Some <$> xs ++ [l]) ++ replicate extra None
                 = (Some <$> xs) ++ Some l :: replicate extra (@None T)).
  { by rewrite fmap_app, <- app_assoc. }
  assert (Hins : <[length xs := None]> ((Some <$> xs ++ [l]) ++ replicate extra (@None T))
                 = (Some <$> xs) ++ None :: replicate extra None).
  { rewrite Hblk. apply middle_insert. by rewrite length_fmap. }
  rewrite Hins. split.
  - unfold PopBack, RawMemory_at. simpl.
    rewrite wrap_small by (zify_sizes; lia).
    destruct (Z.ltb_spec (Z.of_nat (length xs + 1) - 1)
                (Z.of_nat (length xs + 1 + extra))); [|lia].
    simpl. rewrite !bind_Ok. rewrite ptr_add_Ptr.
    erewrite (destroy_at_middle h a _ (Some <$> xs) l);
      [| by rewrite Ha, Hblk | rewrite length_fmap; lia].
    by rewrite bind_Ok.
  - exists (S extra). unfold storage. simpl. rewrite lookup_insert_eq.
    zify_sizes. repeat split; try done; lia.
Qed.

Lemma Erase_spec h v xs x ys :
  repr h v (xs ++ x :: ys) →
  ∃ v' h',
    Erase (ptr_add (begin v) (Z.of_nat (length xs))) v h
    = Ok (ptr_add (begin v') (Z.of_nat (length xs)), v', h') ∧
    repr h' v' (xs ++ ys) ∧ Capacity v' = Capacity v.
Proof.
  intros Hr.
  apply repr_cases in Hr as (extra & Hcap & Hlt & Hsz & [(_ & Hnil & _)|(a & Hbuf & Ha)]).
  { by destruct xs. }
  destruct v as [[buf cap] sz]. zify_sizes. subst buf cap sz.
  rewrite length_app in *. simpl in *.
  rewrite fmap_app in Ha. simpl in Ha. rewrite <- app_assoc in Ha. simpl in Ha.
  unfold Erase. zify_sizes. unfold ptr_add. rewrite distance_Ptr, bind_Ok.
  rewrite wrap_small by (zify_sizes; lia).
  unfold move. rewrite distance_Ptr, bind_Ok.
  match goal with |- context [assert (0 <=? ?d)] =>
    destruct (Z.leb_spec 0 d); [|lia];
    replace (Z.to_nat d) with (length ys) by lia
  end.
  rewrite assert_true, bind_Ok.
  match goal with |- context [move_loop _ (Ptr a ?zf) (Ptr a ?zd) h] =>
    destruct (move_loop_block h a zf zd (Some <$> xs) x ys
                (replicate extra None)) as [w Hw];
      [done | rewrite length_fmap; lia | lia |]
  end.
  rewrite Hw, bind_Ok. simpl.
  erewrite (destroy_at_middle _ a _ ((Some <$> xs) ++ (Some <$> ys)) w);
    [| by rewrite lookup_insert_eq, <- app_assoc | len].
  rewrite !bind_Ok, insert_insert_eq.
  rewrite wrap_small by (zify_sizes; lia).
  replace (0 + (0 + Z.of_nat (length xs) - 0)) with (0 + Z.of_nat (length xs)) by lia.
  eexists (Build_Vector (Build_RawMemory (Ptr a 0) _) _), _.
  split; [reflexivity|]. split; [|done].
  exists (S extra). unfold storage. simpl. rewrite lookup_insert_eq.
  zify_sizes. rewrite fmap_app, <- app_assoc, length_app.
  repeat split; try done; lia.
Qed.

End RemovalFacts.

(** * Emplace without reallocation *)

Section EmplaceInPlace.
Context {T : Type} `{!Element T}.
Variable new_ok : heap T → Z → bool.
Implicit Types (h : heap T) (v : Vector) (xs ys : list T).

(** Insertion at the end, room left. *)
Lemma Emplace_at_end h a cap xs (extra : nat) x :
  h !! a = Some ((Some <$> xs) ++ replicate (S extra) None) →
  cap = Z.of_nat (length xs + S extra) → cap < size_modulus →
  let v := {| data_ := {| buffer_ := Ptr a 0; capacity_ := cap |};
              size_ := Z.of_nat (length xs) |} in
  let v' := {| data_ := {| buffer_ := Ptr a 0; capacity_ := cap |};
               size_ := Z.of_nat (length xs) + 1 |} in
  let h' := <[a := (Some <$> xs ++ [x]) ++ replicate extra None]> h in
  Emplace new_ok (ptr_add (begin v) (Z.of_nat (length xs))) (Value x) v h
  = Ok (ptr_add (begin v') (Z.of_nat (length xs)), v', h').
Proof.
  intros Ha Hcap Hlt v v' h'. subst v v' h'.
  unfold Emplace. zify_sizes. unfold ptr_add. rewrite !distance_Ptr, bind_Ok.
  rewrite !wrap_small by (zify_sizes; lia).
  destruct (Z.eqb_spec (Z.of_nat (length xs)) cap); [lia|].
  destruct (Z.eqb_spec (Z.of_nat (length xs)) (0 + Z.of_nat (length xs) - 0)); [|lia].
  simpl. rewrite bind_Ok.
  erewrite (construct_at_middle h a _ (Some <$> xs) None x (replicate extra None));
    [| done | rewrite length_fmap; lia].
  rewrite !bind_Ok. simpl.
  rewrite wrap_small by (zify_sizes; lia).
  rewrite fmap_app, <- app_assoc. simpl. repeat f_equal; lia.
Qed.

(** Insertion before the end, room left: the tail is shifted right. *)
Lemma Emplace_shift h a cap xs ms l (extra : nat) x :
  h !! a = Some ((Some <$> xs ++ ms ++ [l]) ++ replicate (S extra) None) →
  cap = Z.of_nat (length (xs ++ ms ++ [l]) + S extra) → cap < size_modulus →
  let v := {| data_ := {| buffer_ := Ptr a 0; capacity_ := cap |};
              size_ := Z.of_nat (length (xs ++ ms ++ [l])) |} in
  let v' := {| data_ := {| buffer_ := Ptr a 0; capacity_ := cap |};
               size_ := Z.of_nat (length (xs ++ ms ++ [l])) + 1 |} in
  let h' := <[a := (Some <$> xs ++ x :: ms ++ [l]) ++ replicate extra None]> h in
  Emplace new_ok (ptr_add (begin v) (Z.of_nat (length xs))) (Value x) v h
  = Ok (ptr_add (begin v') (Z.of_nat (length xs)), v', h').
Proof.
  intros Ha Hcap Hlt v v' h'. subst v v' h'.
  rewrite !length_app in *. simpl in *.
  rewrite !fmap_app, <- !app_assoc in Ha. simpl in Ha.
  unfold Emplace. zify_sizes. unfold ptr_add. rewrite !distance_Ptr, bind_Ok.
  rewrite !wrap_small by (zify_sizes; lia).
  destruct (Z.eqb_spec (Z.of_nat (length xs + (length ms + 1))) cap); [lia|].
  destruct (Z.eqb_spec (Z.of_nat (length xs + (length ms + 1)))
              (0 + Z.of_nat (length xs) - 0)); [lia|].
  simpl.
  erewrite (move_out_middle h a _ ((Some <$> xs) ++ (Some <$> ms)) l);
    [| by rewrite Ha, <- app_assoc | len].
  rewrite bind_Ok.
  erewrite (construct_at_middle _ a _
              ((Some <$> xs) ++ (Some <$> ms) ++ [Some (moved_from l)]) None l
              (replicate extra None));
    [| by rewrite lookup_insert_eq, <- !app_assoc | len].
  rewrite bind_Ok, insert_insert_eq.
  unfold move_backward. rewrite distance_Ptr, bind_Ok.
  match goal with |- context [assert (0 <=? ?d)] =>
    destruct (Z.leb_spec 0 d); [|lia];
    replace (Z.to_nat d) with (length ms) by lia
  end.
  rewrite assert_true, bind_Ok.
  match goal with |- context [move_backward_loop _ (Ptr a ?zl) (Ptr a ?zd) ?g] =>
    destruct (move_backward_loop_block g a zl zd (Some <$> xs) ms (moved_from l)
                (Some l :: replicate extra None)) as [w Hw];
      [ by rewrite lookup_insert_eq, <- !app_assoc | rewrite length_fmap; lia | lia |]
  end.
  rewrite Hw, bind_Ok, insert_insert_eq.
  unfold RawMemory_at. simpl.
  destruct (Z.ltb_spec (0 + Z.of_nat (length xs) - 0) cap); [|lia].
  rewrite assert_true, !bind_Ok. unfold ptr_add.
  erewrite (assign_middle _ a _ (Some <$> xs) w x);
    [| by rewrite lookup_insert_eq | rewrite length_fmap; lia].
  rewrite !bind_Ok, insert_insert_eq.
  rewrite wrap_small by (zify_sizes; lia).
  rewrite !fmap_app, <- !app_assoc. simpl. rewrite fmap_app, <- !app_assoc. simpl.
  repeat f_equal; lia.
Qed.

End EmplaceInPlace.

(** * Emplace with reallocation *)

Lemma replicate_split {A} (n k m : nat) (x : A) :
  n = (k + S m)%nat → replicate n x = replicate k x ++ x :: replicate m x.
Proof. intros ->. by rewrite replicate_add. Qed.

Ltac lookup_heap :=
  repeat first
    [ rewrite lookup_insert_eq
    | rewrite lookup_insert_ne by done
    | rewrite lookup_delete_ne by done ].

Section EmplaceGrow.
Context {T : Type} `{!Element T}.
Variable new_ok : heap T → Z → bool.
Implicit Types (h : heap T) (v : Vector) (xs ys : list T).

(** The capacity [Emplace] asks for when the vector is full. *)
Lemma doubled_capacity (n : nat) :
  2 * Z.of_nat n < size_modulus →
  (if Z.of_nat n =? 0 then 1 else wrap (Z.of_nat n * 2))
  = Z.of_nat (Nat.max 1 (2 * n)).
Proof.
  intros Hn. destruct (Z.eqb_spec (Z.of_nat n) 0).
  - destruct n; [done|lia].
  - rewrite wrap_small by (unfold is_size_t; lia). lia.
Qed.

Lemma Emplace_grow_null h x :
  new_ok h 1 = true →
  let v := {| data_ := {| buffer_ := nullptr; capacity_ := 0 |}; size_ := 0 |} in
  let b := fresh (dom h) in
  let v' := {| data_ := {| buffer_ := Ptr b 0; capacity_ := 1 |}; size_ := 1 |} in
  Emplace new_ok (ptr_add (begin v) 0) (Value x) v h
  = Ok (ptr_add (begin v') 0, v', <[b := [Some x]]> h).
Proof.
  intros Hok v b v'. subst v v'.
  unfold Emplace. zify_sizes. unfold ptr_add, distance. rewrite !bind_Ok. simpl.
  rewrite !(wrap_small 0) by (zify_sizes; lia).
  change (Z.to_nat 0) with 0%nat.
  rewrite RawMemory_new_ok by (done || lia || (rewrite Z.mul_1_l; apply sizeof_T_range)).
  rewrite bind_Ok. fold b. simpl.
  rewrite bind_Ok. unfold ptr_add.
  erewrite (construct_at_middle _ b _ [] None x []);
    [| by rewrite lookup_insert_eq | done].
  rewrite bind_Ok, insert_insert_eq.
  rewrite relocate_n_zero, bind_Ok, relocate_n_zero, bind_Ok. simpl.
  rewrite !bind_Ok. unfold RawMemory_destroy, Deallocate. simpl.
  rewrite !bind_Ok. rewrite wrap_small by (zify_sizes; lia). done.
Qed.

Lemma Emplace_grow_block h a xs ys x :
  let n := length (xs ++ ys) in
  let new_cap := Z.of_nat (Nat.max 1 (2 * n)) in
  h !! a = Some (Some <$> xs ++ ys) →
  2 * Z.of_nat n * sizeof_T < size_modulus → new_ok h new_cap = true →
  let v := {| data_ := {| buffer_ := Ptr a 0; capacity_ := Z.of_nat n |};
              size_ := Z.of_nat n |} in
  ∃ b h',
    let v' := {| data_ := {| buffer_ := Ptr b 0; capacity_ := new_cap |};
                 size_ := Z.of_nat n + 1 |} in
    Emplace new_ok (ptr_add (begin v) (Z.of_nat (length xs))) (Value x) v h
    = Ok (ptr_add (begin v') (Z.of_nat (length xs)), v', h') ∧
    h' !! b = Some ((Some <$> xs ++ x :: ys)
                    ++ replicate (Nat.max 1 (2 * n) - S n) None).
Proof.
  intros n new_cap Ha Hn Hok v. subst v.
  exists (fresh (dom h)). set (b := fresh (dom h)).
  assert (Hab : a ≠ b) by (by eapply fresh_ne).
  assert (Hlen : n = (length xs + length ys)%nat) by (subst n; by rewrite length_app).
  pose proof sizeof_T_range as [Hs HsM].
  assert (Hn2 : 2 * Z.of_nat n < size_modulus) by nia.
  assert (Hfit : new_cap * sizeof_T < size_modulus).
  { unfold new_cap. destruct (Nat.max_spec 1 (2 * n)) as [[_ ->]|[_ ->]]; lia. }
  clear Hn. rename Hn2 into Hn.
  rewrite fmap_app in Ha.
  unfold Emplace. zify_sizes. unfold ptr_add. rewrite !distance_Ptr, !bind_Ok.
  rewrite Z.eqb_refl.
  rewrite doubled_capacity by (rewrite size_modulus_eq; lia). fold new_cap.
  rewrite RawMemory_new_ok by (done || lia || (rewrite size_modulus_eq; exact Hfit)).
  rewrite bind_Ok. fold b. simpl.
  rewrite !wrap_small by (zify_sizes; lia).
  rewrite bind_Ok.
  set (m := (Nat.max 1 (2 * n) - S n)%nat).
  assert (Hm : Z.to_nat new_cap = (length xs + S (length ys + m))%nat) by lia.
  (* the new element goes to its slot of the new block *)
  erewrite (construct_at_middle _ b _ (replicate (length xs) None) None x
              (replicate (length ys + m) None));
    [| lookup_heap; f_equal; apply replicate_split; lia | rewrite length_replicate; lia].
  rewrite bind_Ok, insert_insert_eq.
  (* the elements before the position *)
  erewrite (relocate_n_slots _ a b 0 0 _ [] xs (Some <$> ys) []
              (replicate (length xs) None) (Some x :: replicate (length ys + m) None));
    [| done | by lookup_heap | done | by lookup_heap | done
     | by rewrite length_replicate | lia ].
  rewrite bind_Ok. simpl.
  (* the elements after the position *)
  erewrite (relocate_n_slots _ a b _ _ _ (Some <$> left_behind xs) ys []
              ((Some <$> xs) ++ [Some x]) (replicate (length ys) None)
              (replicate m None));
    [| done | lookup_heap; by rewrite app_nil_r
     | rewrite length_fmap, length_left_behind; lia
     | lookup_heap; by rewrite <- app_assoc, <- replicate_add
     | len | by rewrite length_replicate | lia ].
  rewrite bind_Ok.
  (* the old objects are destroyed and the old block is released *)
  erewrite (destroy_n_slots _ a 0 _ [] (left_behind xs ++ left_behind ys) []);
    [| lookup_heap; by rewrite fmap_app, <- app_assoc
     | done | rewrite length_app, !length_left_behind; lia ].
  rewrite bind_Ok. simpl. unfold RawMemory_destroy. simpl.
  erewrite Deallocate_block by (by lookup_heap).
  rewrite !bind_Ok. simpl.
  eexists. split.
  - rewrite wrap_small by (zify_sizes; lia).
    replace (0 + (0 + Z.of_nat (length xs) - 0)) with (0 + Z.of_nat (length xs)) by lia.
    reflexivity.
  - lookup_heap. f_equal.
    rewrite fmap_app, <- !app_assoc. simpl. done.
Qed.

End EmplaceGrow.

(** * Emplace of a value from outside the vector *)

Section EmplaceFacts.
Context {T : Type} `{!Element T}.
Variable new_ok : heap T → Z → bool.
Implicit Types (h : heap T) (v : Vector) (xs ys : list T).

Lemma Emplace_spec h v xs ys x :
  repr h v (xs ++ ys) →
  (Size v = Capacity v →
   2 * Size v * sizeof_T < size_modulus ∧
   new_ok h (if Size v =? 0 then 1 else wrap (Size v * 2)) = true) →
  ∃ v' h',
    Emplace new_ok (ptr_add (begin v) (Z.of_nat (length xs))) (Value x) v h
    = Ok (ptr_add (begin v') (Z.of_nat (length xs)), v', h') ∧
    repr h' v' (xs ++ x :: ys) ∧ Capacity v ≤ Capacity v'.
Proof.
  intros Hr Hfull.
  apply repr_cases in Hr as (extra & Hcap & Hlt & Hsz & Hbuf).
  destruct v as [[buf cap] sz]. zify_sizes.
  destruct Hbuf as [(-> & Hnil & ->)|(a & -> & Ha)].
  - apply app_eq_nil in Hnil as [-> ->]. simpl in *. subst cap sz.
    destruct Hfull as [_ Hok]; [done|]. simpl in Hok.
    eexists _, _. split; [by apply Emplace_grow_null|]. split.
    + exists 0%nat. unfold storage. simpl. rewrite lookup_insert_eq.
      zify_sizes. by repeat split.
    + zify_sizes. lia.
  - destruct extra as [|extra].
    + rewrite app_nil_r, Nat.add_0_r in *. subst cap sz.
      destruct Hfull as [Hdbl Hok]; [done|].
      assert (Hd2 : 2 * Z.of_nat (length (xs ++ ys)) < size_modulus)
        by (pose proof sizeof_T_pos; rewrite size_modulus_eq; nia).
      rewrite doubled_capacity in Hok by exact Hd2.
      rewrite size_modulus_eq in Hd2.
      destruct (Emplace_grow_block new_ok h a xs ys x) as (b & h' & Hrun & Hb);
        [by rewrite Ha | rewrite size_modulus_eq; lia | done |].
      eexists _, _. split; [exact Hrun|]. split.
      * eexists. unfold storage. simpl. rewrite Hb. zify_sizes.
        repeat split; try done.
        -- rewrite !length_app in *. simpl. lia.
        -- lia.
        -- rewrite !length_app. simpl. lia.
      * zify_sizes. lia.
    + subst cap sz. clear Hfull.
      destruct ys as [|l ms _] using rev_ind.
      * rewrite app_nil_r in *.
        eexists _, _. split; [by eapply Emplace_at_end|]. split.
        -- exists extra. unfold storage. simpl. rewrite lookup_insert_eq.
           zify_sizes. rewrite length_app. simpl. repeat split; try done; lia.
        -- zify_sizes. lia.
      * eexists _, _. split; [by eapply Emplace_shift|]. split.
        -- exists extra. unfold storage. simpl. rewrite lookup_insert_eq.
           zify_sizes. rewrite !length_app in *. simpl in *. rewrite !length_app. simpl.
           repeat split; try done; lia.
        -- zify_sizes. lia.
Qed.

End EmplaceFacts.

(** * Capacities *)

Lemma bind_BadAlloc {A B} (f : A → outcome B) : (BadAlloc ≫= f) = BadAlloc.
Proof. reflexivity. Qed.

Lemma bind_Fault {A B} (f : A → outcome B) : (Fault ≫= f) = Fault.
Proof. reflexivity. Qed.

(** Inversion of a successful sequence: its first step succeeded. *)
Ltac bind_inv H :=
  match type of H with
  | (?m ≫= _) = Ok _ =>
      let E := fresh "E" in
      destruct m eqn:E;
      [ rewrite bind_Ok in H
      | rewrite bind_BadAlloc in H; discriminate H
      | rewrite bind_Fault in H; discriminate H ]
  end.

Section BlockLengths.
Context {T : Type} `{!Element T}.
Variable new_ok : heap T → Z → bool.
Implicit Types (h : heap T) (v : Vector) (xs ys : list T).

Lemma write_block_length p s h h' b :
  write p s h = Ok h' → block_length h' b = block_length h b.
Proof.
  unfold write, block_length. destruct p as [|a i]; [done|].
  destruct (h !! a) as [blk|] eqn:Ha; [|done].
  destruct (_ && _); [|done]. intros [= <-].
  destruct (decide (a = b)) as [->|].
  - by rewrite lookup_insert_eq, Ha; simpl; rewrite length_insert.
  - by rewrite lookup_insert_ne.
Qed.

Lemma write_in_bounds b z s h h' :
  write (Ptr b z) s h = Ok h' →
  ∃ n : nat, block_length h b = Some n ∧ 0 ≤ z < Z.of_nat n.
Proof.
  unfold write, block_length.
  destruct (h !! b) as [blk|] eqn:Hb; [|done].
  destruct (Z.leb_spec 0 z), (Z.ltb_spec z (Z.of_nat (length blk))); try done.
  intros _. exists (length blk). simpl. split; [done|lia].
Qed.

Lemma move_out_block_length p h x h' b :
  move_out p h = Ok (x, h') → block_length h' b = block_length h b.
Proof.
  unfold move_out. intros H. bind_inv H. bind_inv H.
  injection H as _ <-. by eapply write_block_length.
Qed.

Lemma construct_from_block_length (a : arg T) h x h' b :
  construct_from a h = Ok (x, h') → block_length h' b = block_length h b.
Proof.
  destruct a as [y|p|p]; simpl.
  - by intros [= _ <-].
  - intros H. bind_inv H. by injection H as _ <-.
  - apply move_out_block_length.
Qed.

Lemma uninitialized_copy_n_block_length p n q h h' b :
  uninitialized_copy_n p n q h = Ok h' → block_length h' b = block_length h b.
Proof.
  revert p q h. induction n as [|n IH]; intros p q h; simpl.
  - by intros [= <-].
  - intros H. bind_inv H. bind_inv H.
    rewrite (IH _ _ _ H). by eapply write_block_length.
Qed.

Lemma uninitialized_move_n_block_length p n q h h' b :
  uninitialized_move_n p n q h = Ok h' → block_length h' b = block_length h b.
Proof.
  revert p q h. induction n as [|n IH]; intros p q h; simpl.
  - by intros [= <-].
  - intros H. bind_inv H. destruct a as [x h1]. bind_inv H.
    rewrite (IH _ _ _ H).
    erewrite write_block_length by eassumption.
    by eapply move_out_block_length.
Qed.

Lemma relocate_n_block_length p n q h h' b :
  relocate_n p n q h = Ok h' → block_length h' b = block_length h b.
Proof.
  unfold relocate_n. destruct (_ || _).
  - apply uninitialized_move_n_block_length.
  - apply uninitialized_copy_n_block_length.
Qed.

(** A relocation that succeeds has written inside the target block. *)
Lemma relocate_n_in_bounds p n b z h h' :
  relocate_n p (S n) (Ptr b z) h = Ok h' →
  ∃ k : nat, block_length h b = Some k ∧ 0 ≤ z ∧ z + Z.of_nat (S n) ≤ Z.of_nat k.
Proof.
  revert p z h. induction n as [|n IH]; intros p z h H.
  - unfold relocate_n in H. destruct (_ || _); simpl in H.
    + bind_inv H. destruct a as [x h1]. bind_inv H.
      apply write_in_bounds in E0 as (k & Hk & Hz).
      rewrite (move_out_block_length _ _ _ _ _ E) in Hk.
      exists k. split; [done|lia].
    + bind_inv H. bind_inv H.
      apply write_in_bounds in E0 as (k & Hk & Hz).
      exists k. split; [done|lia].
  - assert (∃ x h1 h2, block_length h1 b = block_length h b ∧
              construct_at (Ptr b z) x h1 = Ok h2 ∧
              relocate_n (ptr_add p 1) (S n) (Ptr b (z + 1)) h2 = Ok h')
      as (x & h1 & h2 & Hlen & Hw & Hrest).
    { unfold relocate_n in *. destruct (_ || _); simpl in H.
      - bind_inv H. destruct a as [x h1]. bind_inv H.
        exists x, h1, a. split; [by eapply move_out_block_length|]. done.
      - bind_inv H. bind_inv H. by exists a, h, a0. }
    apply IH in Hrest as (k & Hk & Hz & Hn).
    rewrite (write_block_length _ _ _ _ _ Hw), Hlen in Hk.
    apply write_in_bounds in Hw as (k' & _ & Hz').
    exists k. split; [done|lia].
Qed.

Lemma RawMemory_new_capacity n h m h' :
  RawMemory_new new_ok n h = Ok (m, h') → capacity_ m = n.
Proof.
  unfold RawMemory_new. intros H. bind_inv H. destruct a as [buf h1].
  by injection H as <- _.
Qed.

(** A fresh [RawMemory] is null when nothing was asked for and otherwise
    a block of at most the requested length. *)
Lemma RawMemory_new_block n h m h' :
  0 ≤ n → RawMemory_new new_ok n h = Ok (m, h') →
  (n = 0 ∧ buffer_ m = nullptr) ∨
  (∃ b (k : nat), buffer_ m = Ptr b 0 ∧ block_length h' b = Some k ∧
                  Z.of_nat k ≤ n).
Proof.
  unfold RawMemory_new, Allocate. intros Hn H.
  destruct (Z.eqb_spec n 0).
  - left. rewrite bind_Ok in H. by injection H as <- _.
  - right. destruct (new_ok h n); [|done]. rewrite bind_Ok in H.
    injection H as <- <-. eexists _, _. split; [done|].
    unfold block_length. rewrite lookup_insert_eq. simpl.
    rewrite length_replicate. split; [done|].
    pose proof (slots_le n Hn) as Hle. pose proof sizeof_T_pos as Hs.
    assert (0 ≤ wrap (n * sizeof_T) / sizeof_T)
      by (apply Z.div_pos; [apply Z.mod_pos_bound; by rewrite size_modulus_eq|done]).
    lia.
Qed.

End BlockLengths.

Lemma wrap_range z : 0 ≤ wrap z < size_modulus.
Proof. unfold wrap. apply Z.mod_pos_bound. reflexivity. Qed.

(** Two wrapped distances that add up to [c] modulo [2^64]. *)
Lemma wrap_split i c :
  0 ≤ c < size_modulus →
  wrap i + wrap (c - i) = c ∨ wrap i + wrap (c - i) = c + size_modulus.
Proof.
  intros Hc. unfold wrap. rewrite size_modulus_eq in *.
  Z.div_mod_to_equations. lia.
Qed.

Lemma distance_Ok_inv (a : nat) i q d :
  distance (Ptr a i) q = Ok d → ∃ j, q = Ptr a j ∧ d = j - i.
Proof.
  unfold distance. destruct q as [|b j]; [done|].
  destruct (Nat.eqb_spec a b) as [->|]; [|done].
  intros [= <-]. by exists j.
Qed.

Section CapacityFacts.
Context {T : Type} `{!Element T}.
Variable new_ok : heap T → Z → bool.
Implicit Types (h : heap T) (v : Vector) (xs ys : list T).

Lemma Reserve_capacity k v h v' h' :
  Reserve new_ok k v h = Ok (v', h') → Capacity v ≤ Capacity v'.
Proof.
  unfold Reserve, Capacity, RawMemory_Capacity. intros H.
  destruct (Z.leb_spec k (capacity_ (data_ v))).
  - injection H as <- _. lia.
  - bind_inv H. destruct a as [new_data h1].
    apply RawMemory_new_capacity in E.
    bind_inv H. bind_inv H. simpl in H. bind_inv H.
    injection H as <- _. simpl. lia.
Qed.

Lemma Resize_capacity n v h v' h' :
  Resize new_ok n v h = Ok (v', h') → Capacity v ≤ Capacity v'.
Proof.
  unfold Resize. intros H. bind_inv H. destruct a as [v1 h1].
  injection H as <- _.
  assert (Capacity v ≤ Capacity v1) as Hle; [|exact Hle].
  destruct (_ >? _).
  - bind_inv E. injection E as <- _. lia.
  - destruct (_ <? _).
    + bind_inv E. destruct a as [v2 h2]. bind_inv E. injection E as <- _.
      by eapply Reserve_capacity.
    + injection E as <- _. lia.
Qed.

Lemma PopBack_capacity v h v' h' :
  PopBack v h = Ok (v', h') → Capacity v' = Capacity v.
Proof.
  unfold PopBack. intros H. bind_inv H. bind_inv H. by injection H as <- _.
Qed.

Lemma Erase_capacity pos v h q v' h' :
  Erase pos v h = Ok (q, v', h') → Capacity v' = Capacity v.
Proof.
  unfold Erase. intros H. bind_inv H. bind_inv H. bind_inv H.
  by injection H as _ <- _.
Qed.

Lemma copy_assign_capacity v rhs h v' h' :
  copy_assign new_ok v rhs h = Ok (v', h') → Capacity v ≤ Capacity v'.
Proof.
  unfold copy_assign, Capacity, RawMemory_Capacity. intros H.
  destruct (Z.gtb_spec (size_ rhs) (capacity_ (data_ v))).
  - bind_inv H. destruct a as [copy h1].
    unfold Vector_copy in E. bind_inv E. destruct a as [d h0].
    apply RawMemory_new_capacity in E0. bind_inv E. injection E as <- _.
    simpl in H. bind_inv H. injection H as <- _. simpl. lia.
  - bind_inv H. injection H as <- _. simpl. lia.
Qed.

(** [Swap] hands each vector the block, and so the capacity, of the other. *)
Lemma Swap_capacity (this other : Vector) :
  Capacity (Swap this other).1 = Capacity other ∧
  Capacity (Swap this other).2 = Capacity this.
Proof. by destruct this as [[? ?] ?], other as [[? ?] ?]. Qed.

Lemma Emplace_capacity pos a v h q v' h' :
  invariant h v →
  Emplace new_ok pos a v h = Ok (q, v', h') → Capacity v ≤ Capacity v'.
Proof.
  intros [xs Hr] H.
  apply repr_cases in Hr as (extra & Hcap & Hlt & Hsz & Hbuf).
  unfold Emplace in H. bind_inv H. rename a0 into d, E into Hd.
  bind_inv H. destruct a0 as [v1 h1]. injection H as _ <- _.
  assert (Capacity v ≤ Capacity v1) as Hle; [|exact Hle].
  unfold Capacity, RawMemory_Capacity, Size, cbegin, cend, begin, end_, GetAddress in *.
  destruct (Z.eqb_spec (size_ v) (capacity_ (data_ v))) as [Hfull|Hroom].
  - (* reallocation *)
    bind_inv E. rename a0 into e, E0 into He.
    bind_inv E. destruct a0 as [tv h2]. rename E0 into Hnew.
    bind_inv E. destruct a0 as [x h3]. rename E0 into Hx.
    bind_inv E. rename a0 into h4, E0 into Hput.
    bind_inv E. rename a0 into h5, E0 into Hrel1.
    bind_inv E. rename a0 into h6, E0 into Hrel2.
    bind_inv E. simpl in E. bind_inv E. injection E as <- _. simpl.
    rewrite (RawMemory_new_capacity _ _ _ _ _ Hnew).
    destruct (Z.eqb_spec (size_ v) 0) as [Hz|Hnz]; [lia|].
    destruct (Z_lt_ge_dec (size_ v * 2) size_modulus) as [Hfit|Hover].
    { rewrite wrap_small by (unfold is_size_t; lia). lia. }
    exfalso.
    assert (Hnew_lt : wrap (size_ v * 2) < size_ v).
    { unfold wrap. rewrite size_modulus_eq in *. Z.div_mod_to_equations. lia. }
    destruct Hbuf as [(_ & -> & _)|(b & Hb & _)]; [simpl in *; lia|].
    rewrite Hb in *.
    apply distance_Ok_inv in Hd as (i & -> & ->).
    unfold ptr_add in He. rewrite distance_Ptr in He. injection He as <-.
    pose proof (wrap_range (size_ v * 2)) as Hr3.
    destruct (RawMemory_new_block new_ok _ _ _ _ (proj1 Hr3) Hnew)
      as [[_ Hnull]|(c & k0 & Hc & Hlen & Hk0)].
    { rewrite Hnull in Hput. discriminate Hput. }
    rewrite Hc in *. unfold ptr_add in *.
    rewrite <- (construct_from_block_length _ _ _ _ c Hx) in Hlen.
    pose proof (write_block_length _ _ _ _ c Hput) as Hlen4.
    apply write_in_bounds in Hput as (k & Hk & Hin).
    rewrite Hlen in Hk. injection Hk as <-.
    pose proof (relocate_n_block_length _ _ _ _ _ c Hrel1) as Hlen5.
    pose proof (wrap_range (i - 0)) as Hr1.
    pose proof (wrap_range (0 + size_ v - i)) as Hr2.
    pose proof (wrap_split (i - 0) (size_ v)) as Hsplit.
    replace (size_ v - (i - 0)) with (0 + size_ v - i) in Hsplit by lia.
    destruct (Z.to_nat (wrap (0 + size_ v - i))) as [|n] eqn:Hn.
    + lia.
    + apply relocate_n_in_bounds in Hrel2 as (k & Hk & Hz & Hfits).
      rewrite Hlen5, Hlen4, Hlen in Hk. injection Hk as <-. lia.
  - (* in place *)
    destruct (negb _).
    + bind_inv E. destruct a0 as [x h2]. bind_inv E. bind_inv E.
      bind_inv E. destruct a2 as [t h5]. bind_inv E. bind_inv E.
      injection E as <- _. lia.
    + bind_inv E. destruct a0 as [x h2]. bind_inv E. injection E as <- _. lia.
Qed.

End CapacityFacts.

(** * Resize to a smaller size, and the sized constructor *)

Section ResizeFacts.
Context {T : Type} `{!Element T}.
Variable new_ok : heap T → Z → bool.
Implicit Types (h : heap T) (v : Vector) (xs ys : list T).

Lemma Resize_truncates h v xs ys :
  repr h v (xs ++ ys) →
  ∃ h',
    Resize new_ok (Z.of_nat (length xs)) v h
    = Ok ({| data_ := data_ v; size_ := Z.of_nat (length xs) |}, h') ∧
    repr h' {| data_ := data_ v; size_ := Z.of_nat (length xs) |} xs.
Proof.
  intros Hr.
  apply repr_cases in Hr as (extra & Hcap & Hlt & Hsz & Hbuf).
  destruct v as [[buf cap] sz]. zify_sizes. rewrite length_app in *.
  unfold Resize. zify_sizes.
  destruct (Z.gtb_spec cap (Z.of_nat (length xs))) as [Hgt|Hle].
  - destruct Hbuf as [(-> & Hnil & ->)|(a & -> & Ha)].
    { apply app_eq_nil in Hnil as [-> ->]. simpl in *. lia. }
    subst cap sz. unfold ptr_add.
    rewrite wrap_small by (zify_sizes; lia).
    rewrite fmap_app, <- app_assoc in Ha.
    replace (Z.to_nat (Z.of_nat (length xs + length ys) - Z.of_nat (length xs)))
      with (length ys) by lia.
    erewrite (destroy_n_slots h a _ _ (Some <$> xs) ys (replicate extra None));
      [| done | rewrite length_fmap; lia | lia].
    rewrite !bind_Ok. simpl. eexists. split; [reflexivity|].
    exists (length ys + extra)%nat. unfold storage. simpl. rewrite lookup_insert_eq.
    zify_sizes. rewrite replicate_add. repeat split; try done; lia.
  - destruct (Z.ltb_spec cap (Z.of_nat (length xs))) as [Hlt'|_]; [lia|].
    rewrite bind_Ok. simpl. exists h. split; [done|].
    assert (ys = []) as -> by (destruct ys; [done|simpl in *; lia]).
    exists extra. rewrite app_nil_r in *. zify_sizes.
    destruct Hbuf as [(-> & -> & ->)|(a & -> & Ha)].
    + by repeat split.
    + unfold storage. simpl. rewrite Ha. repeat split; try done; simpl in *; lia.
Qed.

Lemma Vector_sized_spec h n :
  is_size_t n → n * sizeof_T < size_modulus → (n ≠ 0 → new_ok h n = true) →
  ∃ v h',
    Vector_sized new_ok n h = Ok (v, h') ∧
    repr h' v (replicate (Z.to_nat n) value_init) ∧ Capacity v = n.
Proof.
  intros Hn Hfit Hok. unfold Vector_sized. destruct (Z.eq_dec n 0) as [->|Hnz].
  - eexists _, _. split; [reflexivity|]. split; [|done]. by exists 0%nat.
  - rewrite RawMemory_new_ok by (auto; unfold is_size_t in Hn; lia).
    rewrite bind_Ok.
    set (b := fresh (dom h)). unfold GetAddress. simpl.
    replace (uninitialized_value_construct_n (Ptr b 0) (Z.to_nat n))
      with (uninitialized_value_construct_n (T:=T) (Ptr b 0)
              (length (replicate (Z.to_nat n) (@None T))))
      by (by rewrite length_replicate).
    erewrite (uninitialized_value_construct_n_block _ b 0 []
                (replicate (Z.to_nat n) None) []);
      [| by rewrite lookup_insert_eq, app_nil_r | done].
    rewrite bind_Ok, insert_insert_eq, length_replicate, app_nil_r. simpl.
    eexists _, _. split; [reflexivity|]. split; [|done].
    exists 0%nat. unfold storage. simpl. rewrite lookup_insert_eq.
    rewrite fmap_replicate, app_nil_r, length_replicate.
    unfold is_size_t in Hn. zify_sizes. repeat split; try done; lia.
Qed.

End ResizeFacts.

(** * The claims *)

Section Claims.
Context {T : Type} `{!Element T}.
Variable new_ok : heap T → Z → bool.
Implicit Types (h : heap T) (v : Vector) (xs ys vs : list T).

Lemma perform_capacity op v h v' h' :
  invariant h v → perform new_ok op v h = Ok (v', h') → Capacity v ≤ Capacity v'.
Proof.
  intros Hinv H. destruct op; cbn [perform] in H.
  - eapply Reserve_capacity, H.
  - eapply Resize_capacity, H.
  - unfold PushBack in H. bind_inv H. destruct a as [[q v1] h1].
    injection H as <- _. eapply Emplace_capacity; eassumption.
  - unfold drop_result in H. bind_inv H. destruct a0 as [[q v1] h1].
    injection H as <- _. eapply Emplace_capacity; eassumption.
  - pose proof (PopBack_capacity _ _ _ _ H). lia.
  - unfold drop_result in H. bind_inv H. destruct a0 as [[q v1] h1].
    injection H as <- _. eapply Emplace_capacity; eassumption.
  - unfold drop_result in H. bind_inv H. destruct a as [[q v1] h1].
    injection H as <- _. eapply Emplace_capacity; eassumption.
  - unfold drop_result in H. bind_inv H. destruct a as [[q v1] h1].
    injection H as <- _. pose proof (Erase_capacity _ _ _ _ _ _ E). lia.
  - eapply copy_assign_capacity, H.
Qed.

Lemma append_all_repr vs h v xs :
  repr h v xs →
  (∀ h' n, new_ok h' n = true) →
  2 * Z.of_nat (length xs + length vs) * sizeof_T ≤ size_modulus →
  ∃ v' h', append_all new_ok vs v h = Ok (v', h') ∧ repr h' v' (xs ++ vs).
Proof.
  revert h v xs. induction vs as [|x vs IH]; intros h v xs Hr Hok Hn; simpl.
  - exists v, h. by rewrite app_nil_r.
  - pose proof (repr_size _ _ _ Hr) as Hsz. unfold Size in Hsz.
    pose proof sizeof_T_pos as Hs.
    destruct (Emplace_spec new_ok h v xs [] x) as (v1 & h1 & Hrun & Hr1 & _).
    { by rewrite app_nil_r. }
    { intros _. split; [|apply Hok]. unfold Size. rewrite Hsz. simpl in Hn. nia. }
    unfold PushBack, EmplaceBack. rewrite Hsz, Hrun, bind_Ok.
    destruct (IH h1 v1 (xs ++ [x])) as (v2 & h2 & Hrun2 & Hr2); [done|done| |].
    { rewrite length_app. simpl in *. lia. }
    exists v2, h2. split; [done|]. by rewrite <- app_assoc in Hr2.
Qed.

(** C3.  Appending [n] values to an empty vector, whatever the heap holds:
    when the allocator serves every request and [2 * n * sizeof(T)], the
    largest byte count a doubling can ask for, does not exceed [2^64], the
    appends succeed, [Size()] is [n] afterwards and element [i] is the
    [i]-th value appended. *)
Theorem append_all_spec vs (h0 : heap T) :
  (∀ h n, new_ok h n = true) →
  2 * Z.of_nat (length vs) * sizeof_T ≤ size_modulus →
  ∃ v h,
    append_all new_ok vs Vector_default h0 = Ok (v, h) ∧
    Size v = Z.of_nat (length vs) ∧
    ∀ (i : nat) x, vs !! i = Some x → get v (Z.of_nat i) h = Ok x.
Proof.
  intros Hok Hn.
  destruct (append_all_repr vs h0 Vector_default []) as (v & h & Hrun & Hr);
    [apply repr_default | done | done |].
  exists v, h. split; [done|]. split.
  - by apply repr_size in Hr.
  - intros i x Hi. by eapply repr_get.
Qed.

(** C4.  Inserting a value that lives outside the vector at position
    [length xs] of the vector [xs ++ ys] and erasing at the position that
    [Insert] returned gives back a vector holding [xs ++ ys].  When the
    vector is full, [Insert] has to obtain a block of doubled size: the
    allocator serves that request and the byte count of the doubled size
    is a [size_t]. *)
Theorem Insert_then_Erase h v xs ys x :
  repr h v (xs ++ ys) →
  (Size v = Capacity v →
   2 * Size v * sizeof_T < size_modulus ∧
   new_ok h (if Size v =? 0 then 1 else wrap (Size v * 2)) = true) →
  ∃ p v1 h1 q v2 h2,
    Insert new_ok (ptr_add (begin v) (Z.of_nat (length xs))) (Value x) v h
    = Ok (p, v1, h1) ∧
    repr h1 v1 (xs ++ x :: ys) ∧
    Erase p v1 h1 = Ok (q, v2, h2) ∧
    repr h2 v2 (xs ++ ys).
Proof.
  intros Hr Hfull.
  destruct (Emplace_spec new_ok h v xs ys x Hr Hfull) as (v1 & h1 & Hins & Hr1 & _).
  destruct (Erase_spec h1 v1 xs x ys Hr1) as (v2 & h2 & Hers & Hr2 & _).
  eexists _, v1, h1, _, v2, h2. by repeat split.
Qed.

(** C8, as amended.  From a state in which the vector holds [xs]: none of
    the operations that change a vector in place returns with a smaller
    capacity; [Reserve(k)] with [k <= Capacity()] returns with the vector and
    the heap as they were; [Reserve(k)] with [k > Capacity()], when the byte
    count [k * sizeof(T)] of the request is a [size_t] and the allocator
    serves the request, returns with capacity at least [k], the same
    elements in the same order and the same size. *)
Theorem capacity_only_grows h v xs :
  repr h v xs →
  (∀ op v' h', perform new_ok op v h = Ok (v', h') → Capacity v ≤ Capacity v') ∧
  (∀ k, k ≤ Capacity v → Reserve new_ok k v h = Ok (v, h)) ∧
  (∀ k, Capacity v < k → k * sizeof_T < size_modulus → new_ok h k = true →
     ∃ v' h', Reserve new_ok k v h = Ok (v', h') ∧
              k ≤ Capacity v' ∧ repr h' v' xs ∧ Size v' = Size v).
Proof.
  intros Hr. split; [|split].
  - intros op v' h'. apply perform_capacity. by exists xs.
  - intros k. apply Reserve_noop.
  - intros k Hk Hlt Hok.
    destruct (Reserve_grow new_ok h v xs k Hr Hk Hlt Hok) as (v' & h' & Hrun & Hr' & Hc & Hs).
    exists v', h'. repeat split; try done. lia.
Qed.

(** C10.  [PopBack()] on a vector holding at least one element: it returns,
    the size is one less, the capacity is the same, the vector holds the
    elements it held without the last one, and the heap differs from the
    heap before in one slot only, the slot of the last element, which is raw
    afterwards. *)
Theorem PopBack_removes_last h v xs :
  repr h v xs → 0 < Size v →
  ∃ a blk v' h',
    buffer_ (data_ v) = Ptr a 0 ∧ h !! a = Some blk ∧
    PopBack v h = Ok (v', h') ∧
    Size v' = Size v - 1 ∧
    Capacity v' = Capacity v ∧
    repr h' v' (take (length xs - 1) xs) ∧
    h' = <[a := <[(length xs - 1)%nat := None]> blk]> h.
Proof.
  intros Hr Hpos. pose proof (repr_size _ _ _ Hr) as Hsz.
  destruct xs as [|l xs _] using rev_ind; [simpl in Hsz; lia|].
  destruct (PopBack_spec h v xs l Hr) as (a & blk & Hbuf & Ha & Hrun & Hr').
  rewrite length_app. simpl.
  replace (length xs + 1 - 1)%nat with (length xs) by lia.
  rewrite take_app_length.
  eexists a, blk, _, _.
  split; [exact Hbuf|]. split; [exact Ha|]. split; [exact Hrun|].
  split; [reflexivity|]. split; [reflexivity|]. split; [exact Hr'|]. reflexivity.
Qed.

End Claims.

Section MoveClaims.
Context {T : Type} `{!Element T}.
Implicit Types (h : heap T) (v : Vector) (xs : list T) (w : World T).

(** C6.  Let the object [rhs] hold [xs].  Move assignment into
    any other object, and move construction of a new object, return
    normally; afterwards [rhs] has [Size() == 0] and [Capacity() == 0] and
    the destination holds [xs].  Move assignment of [rhs] to itself returns
    normally with nothing changed. *)
Theorem move_leaves_source_empty w (rhs : nat) b xs :
  objs w !! rhs = Some b → repr (mem w) b xs →
  (∀ (this : nat) a, this ≠ rhs → objs w !! this = Some a →
     ∃ w', Vector_move_assign this rhs w = Ok w' ∧ moved_into w' this rhs xs) ∧
  (∀ name : nat, objs w !! name = None →
     ∃ w', Vector_move_construct name rhs w = Ok w' ∧ moved_into w' name rhs xs) ∧
  Vector_move_assign rhs rhs w = Ok w.
Proof.
  intros Hb Hr. destruct b as [[buf cap] sz]. split; [|split].
  - intros this a Hne Ha. unfold Vector_move_assign. rewrite Ha, Hb.
    rewrite bool_decide_eq_true_2 by done.
    eexists. split; [reflexivity|].
    eexists _, _. simpl. split; [|split; [|split; [|split]]].
    + by rewrite lookup_insert_ne, lookup_insert_eq.
    + by rewrite lookup_insert_eq.
    + reflexivity.
    + reflexivity.
    + exact Hr.
  - intros name Hnone. unfold Vector_move_construct. rewrite Hnone, Hb.
    assert (name ≠ rhs) as Hne by (intros ->; by rewrite Hb in Hnone).
    eexists. split; [reflexivity|].
    eexists _, _. simpl. split; [|split; [|split; [|split]]].
    + by rewrite lookup_insert_eq.
    + by rewrite lookup_insert_ne, lookup_insert_eq.
    + reflexivity.
    + reflexivity.
    + exact Hr.
  - unfold Vector_move_assign. rewrite Hb.
    by rewrite bool_decide_eq_false_2 by (intros Hne; by apply Hne).
Qed.

End MoveClaims.

(** * The claims on concrete vectors of [int] *)

Lemma one_two_three_runs : one_two_three = Ok (v123, h123).
Proof. vm_compute. reflexivity. Qed.

Lemma one_two_three_full_runs : one_two_three_full = Ok (v123_full, h123_full).
Proof. vm_compute. reflexivity. Qed.

Lemma short_and_long_runs : short_and_long = Ok short_and_long_world.
Proof. vm_compute. reflexivity. Qed.

Ltac concrete_repr extra :=
  exists extra; repeat split; vm_compute; reflexivity.

Lemma repr_v123 : repr h123 v123 [1; 2; 3].
Proof. concrete_repr 1%nat. Qed.

Lemma repr_v123_full : repr h123_full v123_full [1; 2; 3].
Proof. concrete_repr 0%nat. Qed.

(** [Resize(3)] on the vector [1] of capacity 4: the capacity exceeds the new
    size, so the first branch runs [destroy_n] from slot 3 with the count
    [size_ - new_size], which wraps around to [2^64 - 2]; slot 3 is raw. *)
Lemma Resize_within_capacity_faults :
  Resize always 3 {| data_ := {| buffer_ := Ptr 0 0; capacity_ := 4 |}; size_ := 1 |}
    {[ 0%nat := [Some 1; None; None; None] ]} = Fault.
Proof.
  unfold Resize.
  cbn [RawMemory_Capacity GetAddress data_ capacity_ buffer_ size_].
  change (4 >? 3) with true. cbv iota.
  assert (Hw : wrap (1 - 3) = 18446744073709551614) by reflexivity.
  destruct (Z.to_nat (wrap (1 - 3))) as [|n] eqn:E; [rewrite Hw in E; lia|].
  cbn [destroy_n].
  replace (destroy_at (ptr_add (Ptr 0 0) 3) {[ 0%nat := [Some 1; None; None; None] ]})
    with (@Fault (heap Z)) by (vm_compute; reflexivity).
  reflexivity.
Qed.

(** C1.  [Resize(4)] on the vector [1, 2, 3] of capacity 3 returns with
    size 4 and a block that holds [0, 2, 3] followed by a raw slot: the
    value-initialised element was constructed over element 0 and slot 3 was
    left uninitialised, where the claim has [1, 2, 3, 0]. *)
Theorem Resize_grow_overwrites_front :
  one_two_three_full = Ok (v123_full, h123_full) ∧
  repr h123_full v123_full [1; 2; 3] ∧
  Resize always 4 v123_full h123_full
  = Ok ({| data_ := {| buffer_ := Ptr 1 0; capacity_ := 4 |}; size_ := 4 |},
        {[ 1%nat := [Some 0; Some 2; Some 3; None] ]}).
Proof.
  split; [exact one_two_three_full_runs|]. split; [exact repr_v123_full|].
  vm_compute. reflexivity.
Qed.

(** C2.  [Insert(begin(), a[1])] on the vector [1, 2, 3] of capacity 4
    (no reallocation) returns with the vector holding [1, 1, 2, 3]: the
    reference is read after the tail has been shifted, when slot 1 holds the
    former element 0.  The claim has [2, 1, 2, 3], which is what the same
    call gives on the vector [1, 2, 3] of capacity 3, where the block is
    reallocated. *)
Theorem Insert_own_element_after_shift :
  one_two_three = Ok (v123, h123) ∧
  repr h123 v123 [1; 2; 3] ∧
  get v123 1 h123 = Ok 2 ∧
  (∃ v' h',
     Insert always (begin v123) (ConstRef (ptr_add (begin v123) 1)) v123 h123
     = Ok (Ptr 2 0, v', h') ∧
     repr h' v' [1; 1; 2; 3]) ∧
  (∃ p v' h',
     Insert always (begin v123_full) (ConstRef (ptr_add (begin v123_full) 1))
       v123_full h123_full
     = Ok (p, v', h') ∧
     repr h' v' [2; 1; 2; 3]).
Proof.
  split; [exact one_two_three_runs|]. split; [exact repr_v123|].
  split; [vm_compute; reflexivity|]. split.
  - eexists _, _. split; [vm_compute; reflexivity|]. concrete_repr 0%nat.
  - eexists _, _, _. split; [vm_compute; reflexivity|]. concrete_repr 2%nat.
Qed.

(** C5.  After [a = std::move(b)] and the destruction of both vectors the
    block that [a] owned before the assignment is still allocated and its
    two elements are still alive: they were neither destroyed nor released.
    The copy assignment that goes through copy-and-swap leaves nothing
    behind. *)
Theorem move_assign_leaks_old_block :
  move_assign_program = Ok {[ 0%nat := [Some 0; Some 0] ]} ∧
  copy_assign_program = Ok ∅.
Proof. split; vm_compute; reflexivity. Qed.

(** C8, as stated, fails at [Reserve(2^62)] on the vector [1, 2, 3] of
    [int] with capacity 4: the byte count [2^62 * 4] of the request wraps
    around to 0, [operator new(0)] is served with a block that has room for
    no element, and relocating the first element writes outside that block.
    The claim has [Capacity() >= 2^62] afterwards with the three elements
    preserved. *)
Lemma Reserve_wrapped_request_overruns :
  repr h123 v123 [1; 2; 3] ∧
  Capacity v123 < 2 ^ 62 ∧ is_size_t (2 ^ 62) ∧
  always h123 (2 ^ 62) = true ∧
  wrap (2 ^ 62 * sizeof_T (T := Z)) = 0 ∧
  Reserve always (2 ^ 62) v123 h123 = Fault ∧
  ¬ ∃ v' h',
      Reserve always (2 ^ 62) v123 h123 = Ok (v', h') ∧
      2 ^ 62 ≤ Capacity v' ∧ repr h' v' [1; 2; 3] ∧ Size v' = Size v123.
Proof.
  assert (Hrun : Reserve always (2 ^ 62) v123 h123 = Fault)
    by (vm_compute; reflexivity).
  split; [exact repr_v123|]. split; [reflexivity|].
  split; [split; [discriminate|reflexivity]|]. split; [reflexivity|].
  split; [reflexivity|]. split; [exact Hrun|].
  intros (v' & h' & Hok & _). rewrite Hrun in Hok. discriminate Hok.
Qed.

(** C7.  [a = b] with [a = [1]] of capacity 2 and [b = [7, 8]]: the source
    fits, the first element is assigned, and the tail is then copy-constructed
    from [a]'s own raw slot 1 instead of [b]'s element 1, which is a read of
    uninitialised storage.  The claim has [a = [7, 8]] afterwards. *)
Theorem copy_assign_reads_own_tail :
  short_and_long = Ok short_and_long_world ∧
  (∃ a b,
     objs short_and_long_world !! 0%nat = Some a ∧
     objs short_and_long_world !! 1%nat = Some b ∧
     repr (mem short_and_long_world) a [1] ∧ Capacity a = 2 ∧
     repr (mem short_and_long_world) b [7; 8]) ∧
  Vector_copy_assign always 0 1 short_and_long_world = Fault.
Proof.
  split; [exact short_and_long_runs|]. split.
  - eexists _, _. split; [vm_compute; reflexivity|].
    split; [vm_compute; reflexivity|].
    split; [concrete_repr 1%nat|]. split; [reflexivity|]. concrete_repr 0%nat.
  - vm_compute. reflexivity.
Qed.

(** C9.  [Resize(4)] on the vector [1, 2, 3] of capacity 4 returns with
    size 4 and slot 3 still raw: the invariant does not hold afterwards. *)
Theorem Resize_breaks_invariant :
  invariant h123 v123 ∧
  ∃ v',
    Resize always 4 v123 h123 = Ok (v', h123) ∧
    Size v' = 4 ∧ Capacity v' = 4 ∧
    get v' 3 h123 = Fault ∧
    ¬ invariant h123 v'.
Proof.
  split; [eexists; exact repr_v123|].
  eexists. split; [vm_compute; reflexivity|].
  split; [reflexivity|]. split; [reflexivity|].
  split; [vm_compute; reflexivity|].
  intros (xs & extra & Hst & _ & _ & Hsz).
  assert (E : storage h123
                (data_ {| data_ := {| buffer_ := Ptr 2 0; capacity_ := 4 |};
                          size_ := 4 |})
              = Some [Some 1; Some 2; Some 3; None])
    by (vm_compute; reflexivity).
  rewrite E in Hst. unfold Size in Hsz. simpl in Hsz.
  destruct xs as [|x1 [|x2 [|x3 [|x4 [|x5 xs]]]]]; simpl in Hsz; try lia.
  simpl in Hst. discriminate Hst.
Qed.

(** * The theorems at concrete inputs *)

Lemma append_all_spec_witness :
  (∀ (h : heap Z) n, always h n = true) ∧
  2 * Z.of_nat (length [1; 2; 3]) * sizeof_T (T := Z) ≤ size_modulus ∧
  ∃ v h,
    append_all always [1; 2; 3] Vector_default ∅ = Ok (v, h) ∧
    Size v = Z.of_nat (length [1; 2; 3]) ∧
    ∀ (i : nat) x, [1; 2; 3] !! i = Some x → get v (Z.of_nat i) h = Ok x.
Proof.
  assert (H1 : ∀ (h : heap Z) n, always h n = true) by reflexivity.
  assert (H2 : 2 * Z.of_nat (length [1; 2; 3]) * sizeof_T (T := Z) ≤ size_modulus)
    by (rewrite size_modulus_eq; simpl; lia).
  split; [exact H1|]. split; [exact H2|].
  exact (append_all_spec always [1; 2; 3] ∅ H1 H2).
Defined.

Lemma Insert_then_Erase_witness :
  repr h123_full v123_full ([1] ++ [2; 3]) ∧
  ∃ p v1 h1 q v2 h2,
    Insert always (ptr_add (begin v123_full) (Z.of_nat (length [1]))) (Value 9)
      v123_full h123_full
    = Ok (p, v1, h1) ∧
    repr h1 v1 ([1] ++ 9 :: [2; 3]) ∧
    Erase p v1 h1 = Ok (q, v2, h2) ∧
    repr h2 v2 ([1] ++ [2; 3]).
Proof.
  assert (H1 : repr h123_full v123_full ([1] ++ [2; 3])) by concrete_repr 0%nat.
  split; [exact H1|].
  apply (Insert_then_Erase always h123_full v123_full [1] [2; 3] 9 H1).
  intros _. split; [vm_compute; reflexivity | reflexivity].
Defined.

Lemma capacity_only_grows_witness :
  repr h123 v123 [1; 2; 3] ∧
  (∀ op v' h', perform always op v123 h123 = Ok (v', h') →
     Capacity v123 ≤ Capacity v') ∧
  (∀ k, k ≤ Capacity v123 → Reserve always k v123 h123 = Ok (v123, h123)) ∧
  (∀ k, Capacity v123 < k → k * sizeof_T (T := Z) < size_modulus →
     always h123 k = true →
     ∃ v' h', Reserve always k v123 h123 = Ok (v', h') ∧
              k ≤ Capacity v' ∧ repr h' v' [1; 2; 3] ∧ Size v' = Size v123).
Proof.
  assert (H1 : repr h123 v123 [1; 2; 3]) by concrete_repr 1%nat.
  split; [exact H1|].
  exact (capacity_only_grows always h123 v123 [1; 2; 3] H1).
Defined.

Lemma PopBack_removes_last_witness :
  repr h123 v123 [1; 2; 3] ∧ 0 < Size v123 ∧
  ∃ a blk v' h',
    buffer_ (data_ v123) = Ptr a 0 ∧ h123 !! a = Some blk ∧
    PopBack v123 h123 = Ok (v', h') ∧
    Size v' = Size v123 - 1 ∧
    Capacity v' = Capacity v123 ∧
    repr h' v' (take (length [1; 2; 3] - 1) [1; 2; 3]) ∧
    h' = <[a := <[(length [1; 2; 3] - 1)%nat := None]> blk]> h123.
Proof.
  assert (H1 : repr h123 v123 [1; 2; 3]) by concrete_repr 1%nat.
  assert (H2 : 0 < Size v123) by reflexivity.
  split; [exact H1|]. split; [exact H2|].
  exact (PopBack_removes_last h123 v123 [1; 2; 3] H1 H2).
Defined.

Lemma move_leaves_source_empty_witness :
  objs two_objects !! 1%nat = Some v123 ∧
  repr (mem two_objects) v123 [1; 2; 3] ∧
  (∀ (this : nat) a, this ≠ 1%nat → objs two_objects !! this = Some a →
     ∃ w', Vector_move_assign this 1 two_objects = Ok w' ∧
           moved_into w' this 1 [1; 2; 3]) ∧
  (∀ name : nat, objs two_objects !! name = None →
     ∃ w', Vector_move_construct name 1 two_objects = Ok w' ∧
           moved_into w' name 1 [1; 2; 3]) ∧
  Vector_move_assign 1 1 two_objects = Ok two_objects.
Proof.
  assert (H1 : objs two_objects !! 1%nat = Some v123) by (vm_compute; reflexivity).
  assert (H2 : repr (mem two_objects) v123 [1; 2; 3]) by concrete_repr 1%nat.
  split; [exact H1|]. split; [exact H2|].
  exact (move_leaves_source_empty two_objects 1 v123 [1; 2; 3] H1 H2).
Defined.

(** * Construction, destruction and indexed access *)

Section LifeCycle.
Context {T : Type} `{!Element T}.
Variable new_ok : heap T → Z → bool.
Implicit Types (h : heap T) (v : Vector) (xs ys : list T).

Lemma repr_load h v xs (i : nat) x :
  repr h v xs → xs !! i = Some x →
  load (ptr_add (begin v) (Z.of_nat i)) h = Ok x.
Proof.
  intros Hr Hi. pose proof (lookup_lt_Some _ _ _ Hi) as Hlt.
  apply repr_cases in Hr as (extra & _ & _ & _ & [(_ & -> & _)|(a & Ha & Hb)]);
    [done|].
  unfold begin, GetAddress. rewrite Ha. unfold ptr_add.
  eapply (load_Ptr _ a _ i); [done|lia|].
  rewrite lookup_app_l by (rewrite length_fmap; lia).
  by rewrite list_lookup_fmap, Hi.
Qed.

Lemma Vector_sized_heap h n :
  is_size_t n → n * sizeof_T < size_modulus → n ≠ 0 → new_ok h n = true →
  Vector_sized new_ok n h
  = Ok ({| data_ := {| buffer_ := Ptr (fresh (dom h)) 0; capacity_ := n |};
           size_ := n |},
        <[fresh (dom h) := replicate (Z.to_nat n) (Some value_init)]> h).
Proof.
  intros Hn Hfit Hnz Hok. unfold Vector_sized.
  rewrite RawMemory_new_ok by (auto; unfold is_size_t in Hn; lia).
  rewrite bind_Ok.
  set (b := fresh (dom h)). unfold GetAddress. simpl.
  replace (uninitialized_value_construct_n (Ptr b 0) (Z.to_nat n))
    with (uninitialized_value_construct_n (T:=T) (Ptr b 0)
            (length (replicate (Z.to_nat n) (@None T))))
    by (by rewrite length_replicate).
  erewrite (uninitialized_value_construct_n_block _ b 0 []
              (replicate (Z.to_nat n) None) []);
    [| by rewrite lookup_insert_eq, app_nil_r | done].
  by rewrite bind_Ok, insert_insert_eq, length_replicate, app_nil_r.
Qed.

Lemma Vector_sized_zero h :
  Vector_sized new_ok 0 h = Ok (Vector_default, h).
Proof. reflexivity. Qed.

Lemma Vector_destroy_spec h v xs :
  repr h v xs →
  Vector_destroy v h
  = Ok (match buffer_ (data_ v) with nullptr => h | Ptr a _ => delete a h end).
Proof.
  intros Hr.
  apply repr_cases in Hr as (extra & Hcap & Hlt & Hsz & Hbuf).
  destruct v as [[buf cap] sz]. zify_sizes. subst cap sz.
  unfold Vector_destroy, destroy, GetAddress. simpl.
  destruct Hbuf as [(-> & -> & ->)|(a & -> & Ha)].
  - reflexivity.
  - unfold ptr_add. rewrite distance_Ptr, bind_Ok.
    match goal with |- context [assert (0 <=? ?d)] =>
      destruct (Z.leb_spec 0 d); [|lia];
      replace (Z.to_nat d) with (length xs) by lia
    end.
    rewrite assert_true, bind_Ok.
    erewrite (destroy_n_slots h a 0 _ [] xs (replicate extra None));
      [| done | done | done].
    rewrite bind_Ok. unfold RawMemory_destroy. simpl.
    erewrite Deallocate_block by (by rewrite lookup_insert_eq).
    by rewrite delete_insert_eq.
Qed.

Lemma Vector_copy_spec h other xs :
  repr h other xs → Size other * sizeof_T < size_modulus →
  (xs ≠ [] → new_ok h (Size other) = true) →
  ∃ c h',
    Vector_copy new_ok other h = Ok (c, h') ∧
    repr h' c xs ∧ Capacity c = Size other ∧
    (buffer_ (data_ c) = nullptr ∧ h' = h ∨
     buffer_ (data_ c) = Ptr (fresh (dom h)) 0 ∧
     h' = <[fresh (dom h) := Some <$> xs]> h).
Proof.
  intros Hr Hfit Hok.
  apply repr_cases in Hr as (extra & Hcap & Hlt & Hsz & Hbuf).
  destruct other as [[buf cap] sz]. unfold Size in Hfit. simpl in Hfit.
  zify_sizes. subst cap sz.
  unfold Vector_copy. simpl.
  destruct xs as [|x xs].
  - simpl. eexists _, _. split; [reflexivity|]. split; [by exists 0%nat|].
    split; [done|]. by left.
  - destruct Hbuf as [(_ & Hnil & _)|(a & -> & Ha)]; [done|].
    rewrite RawMemory_new_ok
      by (auto || (simpl; lia) || (rewrite size_modulus_eq; exact Hfit)).
    rewrite bind_Ok.
    set (b := fresh (dom h)). unfold GetAddress.
    cbn [buffer_ data_ size_].
    assert (Hab : a ≠ b) by (by eapply fresh_ne).
    rewrite Nat2Z.id.
    erewrite (uninitialized_copy_n_blocks _ a b 0 0 [] (x :: xs)
                (replicate extra None) []
                (replicate (length (x :: xs)) None) []);
      [| done | by rewrite lookup_insert_ne | done
       | by rewrite lookup_insert_eq, app_nil_r | done
       | by rewrite length_replicate ].
    rewrite bind_Ok, insert_insert_eq, app_nil_r.
    eexists _, _. split; [reflexivity|]. split; [|split; [done|by right]].
    exists 0%nat. unfold storage. cbn [buffer_ data_]. rewrite lookup_insert_eq.
    rewrite app_nil_r. zify_sizes. repeat split; try done; lia.
Qed.

End LifeCycle.

(** * Which blocks an operation touches *)

Ltac heap_eq a b :=
  apply map_eq; intros ?c;
  destruct (decide (c = b)) as [->|];
    [ lookup_heap; done
    | destruct (decide (c = a)) as [->|];
        lookup_heap; rewrite ?lookup_delete_eq; lookup_heap; done ].

Section Footprint.
Context {T : Type} `{!Element T}.
Variable new_ok : heap T → Z → bool.
Implicit Types (h : heap T) (v : Vector) (xs ys : list T).

Lemma within_refl a h : within a h h.
Proof. by left. Qed.

Lemma within_trans a h1 h2 h3 : within a h1 h2 → within a h2 h3 → within a h1 h3.
Proof.
  intros [->|[b1 ->]] [->|[b2 ->]].
  - by left.
  - right. by exists b2.
  - right. by exists b1.
  - right. exists b2. by rewrite insert_insert_eq.
Qed.

Lemma write_within a z s h h' : write (Ptr a z) s h = Ok h' → within a h h'.
Proof.
  unfold write. destruct (h !! a) as [blk|]; [|done].
  destruct (_ && _); [|done]. intros [= <-]. right. by eexists.
Qed.

Lemma destroy_at_within a z h h' : destroy_at (Ptr a z) h = Ok h' → within a h h'.
Proof. unfold destroy_at. intros H. bind_inv H. by eapply write_within. Qed.

Lemma assign_within a z x h h' : assign (Ptr a z) x h = Ok h' → within a h h'.
Proof. unfold assign. intros H. bind_inv H. by eapply write_within. Qed.

Lemma move_out_within a z x h h' :
  move_out (Ptr a z) h = Ok (x, h') → within a h h'.
Proof.
  unfold move_out. intros H. bind_inv H. bind_inv H. injection H as _ <-.
  by eapply write_within.
Qed.

Lemma destroy_n_within a n z h h' :
  destroy_n (Ptr a z) n h = Ok h' → within a h h'.
Proof.
  revert z h. induction n as [|n IH]; intros z h; simpl.
  - intros [= <-]. apply within_refl.
  - intros H. bind_inv H. eapply within_trans; [by eapply destroy_at_within|].
    eapply IH, H.
Qed.

Lemma move_loop_within a n z1 z2 h h' :
  move_loop n (Ptr a z1) (Ptr a z2) h = Ok h' → within a h h'.
Proof.
  revert z1 z2 h. induction n as [|n IH]; intros z1 z2 h; simpl.
  - intros [= <-]. apply within_refl.
  - intros H. bind_inv H. destruct a0 as [x h1]. bind_inv H.
    eapply within_trans; [by eapply move_out_within|].
    eapply within_trans; [by eapply assign_within|].
    eapply IH, H.
Qed.

Lemma Erase_within pos v h q v' h' a i :
  buffer_ (data_ v) = Ptr a i →
  Erase pos v h = Ok (q, v', h') → within a h h' ∧ data_ v' = data_ v.
Proof.
  intros Hbuf H. unfold Erase, move, begin, end_, cbegin, GetAddress in H.
  rewrite Hbuf in H. unfold ptr_add in H.
  bind_inv H. bind_inv H. bind_inv E0. bind_inv E0. bind_inv H.
  injection H as _ <- <-. split; [|done].
  eapply within_trans; [by eapply move_loop_within|].
  by eapply destroy_n_within.
Qed.

Lemma Resize_within n v h v' h' a i :
  buffer_ (data_ v) = Ptr a i → n ≤ Capacity v →
  Resize new_ok n v h = Ok (v', h') → within a h h' ∧ data_ v' = data_ v.
Proof.
  intros Hbuf Hn H. unfold Resize, Capacity, GetAddress in *.
  bind_inv H. destruct a0 as [v1 h1]. injection H as <- <-.
  destruct (_ >? _).
  - rewrite Hbuf in E. bind_inv E. injection E as <- <-.
    split; [|done]. by eapply destroy_n_within.
  - destruct (Z.ltb_spec (RawMemory_Capacity (data_ v)) n).
    + unfold RawMemory_Capacity in *. lia.
    + injection E as <- <-. split; [apply within_refl|done].
Qed.

Lemma owns_within h0 h h' v v' a i :
  buffer_ (data_ v) = Ptr a i → data_ v' = data_ v →
  owns h0 h v → within a h h' → owns h0 h' v'.
Proof.
  intros Hbuf Hd Ho Hw. unfold owns in *. rewrite Hd, Hbuf in *.
  destruct Ho as [Hnone [blk ->]]. split; [done|].
  destruct Hw as [->|[blk' ->]]; [by eexists|].
  exists blk'. by rewrite insert_insert_eq.
Qed.

(** A fresh block next to the vector's: the old block released. *)
Lemma owns_realloc h0 h v cap sz blk :
  owns h0 h v →
  owns h0
    (<[fresh (dom h) := blk]>
       (match buffer_ (data_ v) with nullptr => h | Ptr a _ => delete a h end))
    {| data_ := {| buffer_ := Ptr (fresh (dom h)) 0; capacity_ := cap |};
       size_ := sz |}.
Proof.
  intros Ho. unfold owns in *. simpl.
  pose proof (fresh_lookup h) as Hf.
  destruct (buffer_ (data_ v)) as [|a i].
  - subst h0. split; [done|]. by eexists.
  - destruct Ho as [Hnone [blk0 ->]].
    assert (a ≠ fresh (dom (<[a:=blk0]> h0))) as Hne.
    { intros Heq. rewrite <- Heq in Hf. by rewrite lookup_insert_eq in Hf. }
    rewrite lookup_insert_ne in Hf by done. split; [done|].
    exists blk. by rewrite delete_insert_id.
Qed.

Lemma Reserve_grow_heap h v xs k :
  repr h v xs → Capacity v < k → k * sizeof_T < size_modulus →
  new_ok h k = true →
  Reserve new_ok k v h
  = Ok ({| data_ := {| buffer_ := Ptr (fresh (dom h)) 0; capacity_ := k |};
           size_ := size_ v |},
        <[fresh (dom h) := (Some <$> xs) ++ replicate (Z.to_nat k - length xs) None]>
          (match buffer_ (data_ v) with nullptr => h | Ptr a _ => delete a h end)).
Proof.
  intros Hr Hk Hfit Hok.
  apply repr_cases in Hr as (extra & Hcap & _ & Hsz & Hbuf).
  assert (Hlt : k < size_modulus) by (apply bytes_is_size_t; [lia|done]).
  destruct v as [[buf cap] sz]. unfold Capacity, Size, RawMemory_Capacity in *.
  simpl in *. subst cap sz.
  unfold Reserve, RawMemory_Capacity. simpl.
  destruct (Z.leb_spec k (Z.of_nat (length xs + extra))); [lia|].
  rewrite RawMemory_new_ok by (done || lia). rewrite bind_Ok.
  set (b := fresh (dom h)). unfold GetAddress. simpl.
  rewrite Nat2Z.id.
  assert (Hrep : replicate (Z.to_nat k) (@None T)
                 = [] ++ replicate (length xs) None
                      ++ replicate (Z.to_nat k - length xs) None).
  { simpl. rewrite <- replicate_add. f_equal. lia. }
  destruct Hbuf as [(-> & -> & ->)|(a & -> & Ha)].
  - simpl. rewrite relocate_n_zero, bind_Ok. simpl. rewrite !bind_Ok.
    unfold RawMemory_destroy, Deallocate. simpl. rewrite bind_Ok.
    by rewrite Nat.sub_0_r.
  - assert (Hab : a ≠ b) by (by eapply fresh_ne).
    erewrite (relocate_n_slots _ a b 0 0 _ [] xs (replicate extra None) []);
      [| done | by rewrite lookup_insert_ne | done
       | by rewrite lookup_insert_eq, Hrep | done | by rewrite length_replicate
       | done ].
    rewrite bind_Ok.
    erewrite (destroy_n_slots _ a 0 _ [] (left_behind xs) (replicate extra None));
      [| rewrite lookup_insert_ne by done; by rewrite lookup_insert_eq | done
       | by rewrite length_left_behind ].
    rewrite bind_Ok. unfold RawMemory_destroy. simpl.
    erewrite Deallocate_block by (by rewrite lookup_insert_eq).
    rewrite bind_Ok. do 2 f_equal. heap_eq a b.
Qed.

End Footprint.

(** * Emplace: the heap it leaves and the capacity it ends with *)

Section EmplaceHeap.
Context {T : Type} `{!Element T}.
Variable new_ok : heap T → Z → bool.
Implicit Types (h : heap T) (v : Vector) (xs ys : list T).

Lemma Emplace_grow_block_heap h a xs ys x :
  let n := length (xs ++ ys) in
  let new_cap := Z.of_nat (Nat.max 1 (2 * n)) in
  let b := fresh (dom h) in
  h !! a = Some (Some <$> xs ++ ys) →
  2 * Z.of_nat n * sizeof_T < size_modulus → new_ok h new_cap = true →
  let v := {| data_ := {| buffer_ := Ptr a 0; capacity_ := Z.of_nat n |};
              size_ := Z.of_nat n |} in
  let v' := {| data_ := {| buffer_ := Ptr b 0; capacity_ := new_cap |};
               size_ := Z.of_nat n + 1 |} in
  Emplace new_ok (ptr_add (begin v) (Z.of_nat (length xs))) (Value x) v h
  = Ok (ptr_add (begin v') (Z.of_nat (length xs)), v',
        <[b := (Some <$> xs ++ x :: ys) ++ replicate (Nat.max 1 (2 * n) - S n) None]>
          (delete a h)).
Proof.
  intros n new_cap b Ha Hn Hok v v'. subst v v'.
  assert (Hab : a ≠ b) by (by eapply fresh_ne).
  assert (Hlen : n = (length xs + length ys)%nat) by (subst n; by rewrite length_app).
  pose proof sizeof_T_range as [Hs HsM].
  assert (Hn2 : 2 * Z.of_nat n < size_modulus) by nia.
  assert (Hfit : new_cap * sizeof_T < size_modulus).
  { unfold new_cap. destruct (Nat.max_spec 1 (2 * n)) as [[_ ->]|[_ ->]]; lia. }
  clear Hn. rename Hn2 into Hn.
  rewrite fmap_app in Ha.
  unfold Emplace. zify_sizes. unfold ptr_add. rewrite !distance_Ptr, !bind_Ok.
  rewrite Z.eqb_refl.
  rewrite doubled_capacity by (rewrite size_modulus_eq; lia). fold new_cap.
  rewrite RawMemory_new_ok by (done || lia || (rewrite size_modulus_eq; exact Hfit)).
  rewrite bind_Ok. fold b. simpl.
  rewrite !wrap_small by (zify_sizes; lia).
  rewrite bind_Ok.
  set (m := (Nat.max 1 (2 * n) - S n)%nat).
  assert (Hm : Z.to_nat new_cap = (length xs + S (length ys + m))%nat) by lia.
  erewrite (construct_at_middle _ b _ (replicate (length xs) None) None x
              (replicate (length ys + m) None));
    [| lookup_heap; f_equal; apply replicate_split; lia | rewrite length_replicate; lia].
  rewrite bind_Ok, insert_insert_eq.
  erewrite (relocate_n_slots _ a b 0 0 _ [] xs (Some <$> ys) []
              (replicate (length xs) None) (Some x :: replicate (length ys + m) None));
    [| done | by lookup_heap | done | by lookup_heap | done
     | by rewrite length_replicate | lia ].
  rewrite bind_Ok. simpl.
  erewrite (relocate_n_slots _ a b _ _ _ (Some <$> left_behind xs) ys []
              ((Some <$> xs) ++ [Some x]) (replicate (length ys) None)
              (replicate m None));
    [| done | lookup_heap; by rewrite app_nil_r
     | rewrite length_fmap, length_left_behind; lia
     | lookup_heap; by rewrite <- app_assoc, <- replicate_add
     | len | by rewrite length_replicate | lia ].
  rewrite bind_Ok.
  erewrite (destroy_n_slots _ a 0 _ [] (left_behind xs ++ left_behind ys) []);
    [| lookup_heap; by rewrite fmap_app, <- app_assoc
     | done | rewrite length_app, !length_left_behind; lia ].
  rewrite bind_Ok. simpl. unfold RawMemory_destroy. simpl.
  erewrite Deallocate_block by (by lookup_heap).
  rewrite !bind_Ok. simpl.
  rewrite wrap_small by (zify_sizes; lia).
  replace (0 + (0 + Z.of_nat (length xs) - 0)) with (0 + Z.of_nat (length xs)) by lia.
  do 2 f_equal.
  rewrite fmap_app, <- !app_assoc. simpl. heap_eq a b.
Qed.

(** The capacity and the size a successful [Emplace] leaves. *)
Lemma Emplace_new_capacity pos (a : arg T) v h q v' h' :
  Emplace new_ok pos a v h = Ok (q, v', h') →
  Capacity v'
  = (if Size v =? Capacity v
     then if Size v =? 0 then 1 else wrap (Size v * 2)
     else Capacity v) ∧
  Size v' = wrap (Size v + 1).
Proof.
  intros H. unfold Emplace in H. bind_inv H.
  bind_inv H. destruct a1 as [v1 h1]. injection H as _ <- _.
  unfold Capacity, RawMemory_Capacity, Size in *. simpl.
  destruct (size_ v =? capacity_ (data_ v)).
  - bind_inv E0. bind_inv E0. destruct a2 as [tv h2].
    apply RawMemory_new_capacity in E2.
    bind_inv E0. destruct a2 as [x h3]. do 4 bind_inv E0.
    simpl in E0. bind_inv E0. injection E0 as <- _. simpl. by rewrite E2.
  - destruct (negb _).
    + bind_inv E0. destruct a1 as [x h2]. do 2 bind_inv E0.
      bind_inv E0. destruct a3 as [t h5]. do 2 bind_inv E0.
      by injection E0 as <- _.
    + bind_inv E0. destruct a1 as [x h2]. bind_inv E0. by injection E0 as <- _.
Qed.

Lemma Emplace_owns h0 h v xs ys x :
  repr h v (xs ++ ys) → owns h0 h v →
  (Size v = Capacity v →
   2 * Size v * sizeof_T < size_modulus ∧
   new_ok h (if Size v =? 0 then 1 else wrap (Size v * 2)) = true) →
  ∃ v' h',
    Emplace new_ok (ptr_add (begin v) (Z.of_nat (length xs))) (Value x) v h
    = Ok (ptr_add (begin v') (Z.of_nat (length xs)), v', h') ∧
    repr h' v' (xs ++ x :: ys) ∧ owns h0 h' v' ∧
    (Size v < Capacity v → data_ v' = data_ v).
Proof.
  intros Hr Ho Hfull.
  destruct (Emplace_spec new_ok h v xs ys x Hr Hfull) as (v' & h' & Hrun & Hr' & _).
  exists v', h'. split; [done|]. split; [done|].
  apply repr_cases in Hr as (extra & Hcap & Hlt & Hsz & Hbuf).
  destruct v as [[buf cap] sz]. zify_sizes.
  destruct Hbuf as [(-> & Hnil & ->)|(a & -> & Ha)].
  - apply app_eq_nil in Hnil as [-> ->]. simpl in *. subst cap sz.
    destruct Hfull as [_ Hok]; [done|]. simpl in Hok.
    pose proof (Emplace_grow_null new_ok h x Hok) as Hrun'.
    pose proof (eq_trans (eq_sym Hrun) Hrun') as Heq.
    injection Heq as _ -> ->. split; [|lia].
    apply (owns_realloc h0 h Vector_default 1 1 [Some x] Ho).
  - destruct extra as [|extra].
    + rewrite app_nil_r, Nat.add_0_r in *. subst cap sz.
      destruct Hfull as [Hdbl Hok]; [done|].
      assert (Hd2 : 2 * Z.of_nat (length (xs ++ ys)) < size_modulus)
        by (pose proof sizeof_T_pos; rewrite size_modulus_eq; nia).
      rewrite doubled_capacity in Hok by exact Hd2.
      rewrite size_modulus_eq in Hd2.
      pose proof (Emplace_grow_block_heap h a xs ys x
                    ltac:(by rewrite Ha) ltac:(rewrite size_modulus_eq; lia) Hok)
        as Hrun'.
      pose proof (eq_trans (eq_sym Hrun) Hrun') as Heq.
      injection Heq as _ -> ->. split; [|lia].
      apply (owns_realloc h0 h
               {| data_ := {| buffer_ := Ptr a 0;
                              capacity_ := Z.of_nat (length (xs ++ ys)) |};
                  size_ := Z.of_nat (length (xs ++ ys)) |} _ _ _ Ho).
    + subst cap sz. clear Hfull.
      assert (within a h h' ∧ data_ v' = {| buffer_ := Ptr a 0;
               capacity_ := Z.of_nat (length (xs ++ ys) + S extra) |}) as [Hw Hd].
      { destruct ys as [|l ms _] using rev_ind.
        - rewrite app_nil_r in *.
          pose proof (Emplace_at_end new_ok h a _ xs extra x Ha eq_refl Hlt) as Hrun'.
          pose proof (eq_trans (eq_sym Hrun) Hrun') as Heq.
          injection Heq as _ -> ->.
          split; [|done]. right. by eexists.
        - pose proof (Emplace_shift new_ok h a _ xs ms l extra x Ha eq_refl Hlt)
            as Hrun'.
          pose proof (eq_trans (eq_sym Hrun) Hrun') as Heq.
          injection Heq as _ -> ->.
          split; [|done]. right. by eexists. }
      split; [|done].
      match type of Ho with owns _ _ ?v =>
        apply (owns_within h0 h h' v v' a 0 eq_refl Hd Ho Hw)
      end.
Qed.

End EmplaceHeap.

(** * Sequences of calls *)

Section CallFacts.
Context {T : Type} `{!Element T}.
Variable new_ok : heap T → Z → bool.
Implicit Types (h : heap T) (v : Vector) (xs ys : list T) (c : call T).

Lemma destroy_n_nullptr n h h' : destroy_n nullptr n h = Ok h' → h' = h.
Proof. destruct n; simpl; [by intros [= <-]|done]. Qed.

Lemma Resize_owns h0 n v h v' h' :
  n ≤ Capacity v → owns h0 h v →
  Resize new_ok n v h = Ok (v', h') → owns h0 h' v'.
Proof.
  intros Hn Ho H. destruct (buffer_ (data_ v)) as [|a i] eqn:Hbuf.
  - unfold Resize, Capacity, GetAddress in *.
    bind_inv H. destruct a as [v1 h1]. injection H as <- <-.
    unfold owns in *. simpl. destruct (_ >? _).
    + rewrite Hbuf in E. bind_inv E. injection E as <- <-.
      apply destroy_n_nullptr in E0 as ->. by rewrite Hbuf in *.
    + destruct (Z.ltb_spec (RawMemory_Capacity (data_ v)) n).
      * unfold RawMemory_Capacity in *. lia.
      * injection E as <- <-. by rewrite Hbuf in *.
  - destruct (Resize_within new_ok n v h v' h' a i Hbuf Hn H) as [Hw Hd].
    by eapply owns_within.
Qed.

Lemma owns_rest h v xs :
  repr h v xs →
  owns (match buffer_ (data_ v) with nullptr => h | Ptr a _ => delete a h end) h v.
Proof.
  intros Hr. apply repr_cases in Hr as (extra & _ & _ & _ & Hbuf).
  unfold owns. destruct Hbuf as [(-> & _ & _)|(a & -> & Ha)]; [done|].
  split; [apply lookup_delete_eq|].
  eexists. by rewrite insert_delete_eq, insert_id.
Qed.

(** A vector that does not share its block with what [h0] holds keeps its
    elements whatever is done to the block [h] has in addition. *)
Lemma repr_frame h0 h v w xs :
  repr h0 w xs → owns h0 h v → repr h w xs.
Proof.
  intros (extra & Hst & Hrest) Ho. exists extra. split; [|done].
  unfold storage, owns in *.
  destruct (buffer_ (data_ w)) as [|b j]; [done|].
  destruct (j =? 0); [|done].
  destruct (buffer_ (data_ v)) as [|a i]; [by subst|].
  destruct Ho as [Hnone [blk ->]].
  rewrite lookup_insert_ne; [done|]. intros ->. by rewrite Hnone in Hst.
Qed.

Lemma list_call_length c xs xs' :
  list_call c xs = Some xs' → (length xs' ≤ length xs + 1)%nat.
Proof.
  destruct c; simpl; try case_decide; intros [= <-];
    rewrite ?length_app; simpl; rewrite ?length_take, ?length_drop; lia.
Qed.

Lemma run_call_step h0 c h v xs xs' :
  repr h v xs → owns h0 h v →
  list_call c xs = Some xs' →
  (∀ h' n, new_ok h' n = true) →
  2 * Z.of_nat (length xs) * sizeof_T < size_modulus →
  ∃ v' h', run_call new_ok c v h = Ok (v', h') ∧ repr h' v' xs' ∧ owns h0 h' v'.
Proof.
  intros Hr Ho Hc Hok Hn.
  pose proof (repr_size _ _ _ Hr) as Hsz. unfold Size in Hsz.
  assert (Hfull : Size v = Capacity v →
            2 * Size v * sizeof_T < size_modulus ∧
            new_ok h (if Size v =? 0 then 1 else wrap (Size v * 2)) = true).
  { intros _. split; [unfold Size; by rewrite Hsz|apply Hok]. }
  destruct c as [x| |k x|k|n|n]; simpl in Hc; simpl.
  - injection Hc as <-.
    destruct (Emplace_owns new_ok h0 h v xs [] x) as (v' & h' & Hrun & Hr' & Ho' & _);
      [by rewrite app_nil_r | done | done |].
    unfold PushBack, EmplaceBack. rewrite Hsz, Hrun, bind_Ok. by exists v', h'.
  - case_decide as Hxs; [done|]. injection Hc as <-.
    destruct xs as [|l ys _] using rev_ind; [done|].
    destruct (PopBack_spec h v ys l Hr) as (a & blk & Hbuf & Ha & Hrun & Hr').
    rewrite Hrun. eexists _, _. split; [done|].
    rewrite length_app. simpl.
    replace (length ys + 1 - 1)%nat with (length ys) by lia.
    rewrite take_app_length. split; [done|].
    eapply (owns_within h0 h _ v _ a 0); [done|done|done|].
    right. by eexists.
  - case_decide as Hk; [|done]. injection Hc as <-.
    destruct (Emplace_owns new_ok h0 h v (take k xs) (drop k xs) x)
      as (v' & h' & Hrun & Hr' & Ho' & _);
      [by rewrite take_drop | done | done |].
    rewrite length_take_le in Hrun by lia.
    unfold Insert, drop_result. rewrite Hrun, bind_Ok. by exists v', h'.
  - case_decide as Hk; [|done]. injection Hc as <-.
    destruct (lookup_lt_is_Some_2 xs k Hk) as [x Hx].
    rewrite <- (take_drop_middle xs k x Hx) in Hr.
    destruct (Erase_spec h v (take k xs) x (drop (S k) xs) Hr)
      as (v' & h' & Hrun & Hr' & _).
    rewrite length_take_le in Hrun by lia.
    unfold drop_result. rewrite Hrun, bind_Ok. exists v', h'.
    split; [done|]. split; [done|].
    apply repr_cases in Hr as (extra & _ & _ & _ & [(_ & Hnil & _)|(a & Hbuf & _)]).
    { by destruct (take k xs). }
    destruct (Erase_within _ _ _ _ _ _ a 0 Hbuf Hrun) as [Hw Hd].
    by eapply owns_within.
  - case_decide as Hrange; [|done]. injection Hc as <-.
    destruct (Z_le_gt_dec n (Capacity v)) as [Hle|Hgt].
    + rewrite Reserve_noop by done. by exists v, h.
    + destruct Hrange as [_ Hfit].
      rewrite (Reserve_grow_heap new_ok h v xs n) by (done || lia || apply Hok).
      destruct (Reserve_grow new_ok h v xs n) as (v' & h' & Hrun & Hr' & _);
        [done | lia | done | apply Hok |].
      rewrite (Reserve_grow_heap new_ok h v xs n) in Hrun
        by (done || lia || apply Hok).
      injection Hrun as <- <-.
      eexists _, _. split; [done|]. split; [done|].
      by apply owns_realloc.
  - case_decide as Hk; [|done]. injection Hc as <-.
    rewrite <- (take_drop n xs) in Hr.
    destruct (Resize_truncates new_ok h v (take n xs) (drop n xs) Hr)
      as (h' & Hrun & Hr').
    rewrite length_take_le in Hrun, Hr' by lia.
    rewrite Hrun. eexists _, _. split; [done|]. split; [done|].
    eapply Resize_owns; [|done|exact Hrun].
    apply repr_cases in Hr as (extra & Hcap & _).
    rewrite Hcap, length_app, length_take_le, length_drop by lia. lia.
Qed.

Lemma run_calls_steps h0 cs h v xs xs' :
  repr h v xs → owns h0 h v →
  list_calls cs xs = Some xs' →
  (∀ h' n, new_ok h' n = true) →
  2 * Z.of_nat (length xs + length cs) * sizeof_T ≤ size_modulus →
  ∃ v' h', run_calls new_ok cs v h = Ok (v', h') ∧ repr h' v' xs' ∧ owns h0 h' v'.
Proof.
  pose proof sizeof_T_pos as Hs.
  revert h v xs. induction cs as [|c cs IH]; intros h v xs Hr Ho Hcs Hok Hn; simpl in *.
  - injection Hcs as <-. by exists v, h.
  - destruct (list_call c xs) as [xs1|] eqn:Hc; [|done]. simpl in Hcs.
    pose proof (list_call_length _ _ _ Hc) as Hlen.
    destruct (run_call_step h0 c h v xs xs1) as (v1 & h1 & Hrun & Hr1 & Ho1);
      [done | done | done | done | nia |].
    rewrite Hrun, bind_Ok. eapply IH; [done | done | done | done | nia].
Qed.

End CallFacts.

(** * The growth policy, and Resize on an empty vector *)

Section Growth.
Context {T : Type} `{!Element T}.
Variable new_ok : heap T → Z → bool.
Implicit Types (h : heap T) (v : Vector) (xs ys vs : list T).

Lemma doubled_step (n : nat) c :
  doubled n c → 2 * Z.of_nat n < size_modulus →
  doubled (S n)
    (if Z.of_nat n =? c then if Z.of_nat n =? 0 then 1 else wrap (Z.of_nat n * 2)
     else c).
Proof.
  intros [[-> ->]|(k & -> & Hk)] Hn.
  - simpl. right. exists 0%nat. simpl. lia.
  - right. destruct (Z.eqb_spec (Z.of_nat n) (2 ^ Z.of_nat k)) as [He|Hne].
    + destruct (Z.eqb_spec (Z.of_nat n) 0); [lia|].
      rewrite wrap_small by (unfold is_size_t; lia).
      exists (S k). rewrite Nat2Z.inj_succ, Z.pow_succ_r by lia. lia.
    + exists k. lia.
Qed.

Lemma append_all_doubled vs h v xs :
  repr h v xs → doubled (length xs) (Capacity v) →
  (∀ h' n, new_ok h' n = true) →
  2 * Z.of_nat (length xs + length vs) * sizeof_T ≤ size_modulus →
  ∃ v' h', append_all new_ok vs v h = Ok (v', h') ∧
           repr h' v' (xs ++ vs) ∧ doubled (length (xs ++ vs)) (Capacity v').
Proof.
  pose proof sizeof_T_pos as Hs.
  revert h v xs. induction vs as [|x vs IH]; intros h v xs Hr Hd Hok Hn; simpl.
  - exists v, h. by rewrite app_nil_r.
  - pose proof (repr_size _ _ _ Hr) as Hsz.
    destruct (Emplace_spec new_ok h v xs [] x) as (v1 & h1 & Hrun & Hr1 & _).
    { by rewrite app_nil_r. }
    { intros _. split; [|apply Hok]. rewrite Hsz. simpl in Hn. nia. }
    destruct (Emplace_new_capacity new_ok _ _ _ _ _ _ _ Hrun) as [Hc1 _].
    unfold PushBack, EmplaceBack. unfold Size in Hsz. rewrite Hsz, Hrun, bind_Ok.
    destruct (IH h1 v1 (xs ++ [x])) as (v2 & h2 & Hrun2 & Hr2 & Hd2); [done| |done| |].
    { rewrite length_app, Nat.add_1_r, Hc1. unfold Size. rewrite Hsz.
      apply doubled_step; [done|]. simpl in Hn. nia. }
    { rewrite length_app. simpl in *. nia. }
    exists v2, h2. by rewrite <- app_assoc in Hr2, Hd2.
Qed.

Lemma Resize_empty_grows h v n :
  repr h v [] → Capacity v < n → n * sizeof_T < size_modulus →
  new_ok h n = true →
  ∃ v' h', Resize new_ok n v h = Ok (v', h') ∧
           repr h' v' (replicate (Z.to_nat n) value_init) ∧ Capacity v' = n.
Proof.
  intros Hr Hgt Hfit Hok.
  pose proof (repr_size _ _ _ Hr) as Hsz. unfold Size in Hsz. simpl in Hsz.
  pose proof Hr as (extra & _ & Hcap & _).
  assert (Hlt : n < size_modulus) by (apply bytes_is_size_t; [lia|done]).
  unfold Resize. unfold Capacity in *.
  destruct (Z.gtb_spec (RawMemory_Capacity (data_ v)) n); [lia|].
  destruct (Z.ltb_spec (RawMemory_Capacity (data_ v)) n); [|lia].
  rewrite (Reserve_grow_heap new_ok h v [] n) by done.
  rewrite bind_Ok. unfold GetAddress. cbn [data_ buffer_ size_].
  rewrite Hsz, Z.sub_0_r, wrap_small by (unfold is_size_t, RawMemory_Capacity in *; lia).
  set (b := fresh (dom h)). simpl. rewrite Nat.sub_0_r.
  replace (uninitialized_value_construct_n (Ptr b 0) (Z.to_nat n))
    with (uninitialized_value_construct_n (T:=T) (Ptr b 0)
            (length (replicate (Z.to_nat n) (@None T))))
    by (by rewrite length_replicate).
  erewrite (uninitialized_value_construct_n_block _ b 0 []
              (replicate (Z.to_nat n) None) []);
    [| by rewrite lookup_insert_eq, app_nil_r | done].
  rewrite !bind_Ok, insert_insert_eq, length_replicate, app_nil_r. simpl.
  eexists _, _. split; [reflexivity|]. split; [|done].
  exists 0%nat. unfold storage. simpl. rewrite lookup_insert_eq.
  rewrite fmap_replicate, app_nil_r, length_replicate.
  unfold RawMemory_Capacity in *. zify_sizes. repeat split; try done; lia.
Qed.

End Growth.

(** * Copy assignment *)

Section CopyAssign.
Context {T : Type} `{!Element T}.
Variable new_ok : heap T → Z → bool.
Implicit Types (h : heap T) (v : Vector) (xs ys : list T).

Lemma assign_elements_blocks h (a b : nat) capA capB
    (preA preB : list (option T)) (olds news : list T) postA postB :
  a ≠ b →
  h !! a = Some (preA ++ (Some <$> olds) ++ postA) →
  h !! b = Some (preB ++ (Some <$> news) ++ postB) →
  length preA = length preB → length olds = length news →
  Z.of_nat (length preA + length news) ≤ capA →
  Z.of_nat (length preA + length news) ≤ capB →
  capA < size_modulus →
  assign_elements {| buffer_ := Ptr a 0; capacity_ := capA |}
    {| buffer_ := Ptr b 0; capacity_ := capB |}
    (Z.of_nat (length preA)) (length news) h
  = Ok (<[a := preA ++ (Some <$> news) ++ postA]> h).
Proof.
  intros Hab. revert h preA preB olds.
  induction news as [|y news IH]; intros h preA preB olds Ha Hb Hpre Hlen HcA HcB HM.
  - destruct olds; [|done]. simpl. by rewrite insert_id.
  - destruct olds as [|o olds]; [done|]. simpl in *.
    unfold RawMemory_at. simpl.
    destruct (Z.ltb_spec (Z.of_nat (length preA)) capB); [|lia].
    destruct (Z.ltb_spec (Z.of_nat (length preA)) capA); [|lia].
    rewrite assert_true, !bind_Ok. unfold ptr_add.
    erewrite (load_middle h b _ preB y); [| done | lia].
    rewrite !bind_Ok. unfold ptr_add.
    erewrite (assign_middle h a _ preA o y); [| done | lia].
    rewrite !bind_Ok.
    rewrite wrap_small by (unfold is_size_t; lia).
    replace (Z.of_nat (length preA) + 1)
      with (Z.of_nat (length (preA ++ [Some y]))) by len.
    erewrite (IH _ (preA ++ [Some y]) (preB ++ [Some y]) olds).
    + by rewrite insert_insert_eq, <- app_assoc.
    + by rewrite lookup_insert_eq, <- app_assoc.
    + by rewrite lookup_insert_ne, <- app_assoc.
    + rewrite !length_app. simpl. lia.
    + lia.
    + rewrite length_app. simpl. lia.
    + rewrite length_app. simpl. lia.
    + done.
Qed.

Lemma repr_insert_ne h w ys (a : nat) blk :
  repr h w ys → (∀ i, buffer_ (data_ w) ≠ Ptr a i) →
  repr (<[a := blk]> h) w ys.
Proof.
  intros (extra & Hst & Hrest) Hne. exists extra. split; [|done].
  unfold storage in *. destruct (buffer_ (data_ w)) as [|b j]; [done|].
  destruct (j =? 0); [|done]. rewrite lookup_insert_ne; [done|].
  intros ->. by apply (Hne j).
Qed.

Lemma repr_delete_ne h w ys (a : nat) :
  repr h w ys → (∀ i, buffer_ (data_ w) ≠ Ptr a i) →
  repr (delete a h) w ys.
Proof.
  intros (extra & Hst & Hrest) Hne. exists extra. split; [|done].
  unfold storage in *. destruct (buffer_ (data_ w)) as [|b j]; [done|].
  destruct (j =? 0); [|done]. rewrite lookup_delete_ne; [done|].
  intros ->. by apply (Hne j).
Qed.

(** The source is not longer than the target: the block is reused. *)
Lemma copy_assign_in_place h this rhs xs ys :
  repr h this xs → repr h rhs ys → separate this rhs →
  (length ys ≤ length xs)%nat →
  ∃ h',
    copy_assign new_ok this rhs h
    = Ok ({| data_ := data_ this; size_ := Size rhs |}, h') ∧
    repr h' {| data_ := data_ this; size_ := Size rhs |} ys ∧
    repr h' rhs ys.
Proof.
  intros Hr Hs Hsep Hlen.
  pose proof Hs as Hs0.
  apply repr_cases in Hr as (eA & HcapA & HltA & HszA & HbufA).
  apply repr_cases in Hs as (eB & HcapB & HltB & HszB & HbufB).
  destruct this as [[bufA capA] szA]. unfold separate in Hsep.
  zify_sizes. subst capA szA.
  unfold copy_assign, RawMemory_Capacity, GetAddress. cbn [data_ size_ capacity_ buffer_].
  rewrite HszB.
  destruct (Z.gtb_spec (Z.of_nat (length ys)) (Z.of_nat (length xs + eA))); [lia|].
  rewrite <- (take_drop (length ys) xs) in HbufA.
  set (xs1 := take (length ys) xs) in *. set (xs2 := drop (length ys) xs) in *.
  assert (Hl1 : length xs1 = length ys) by (subst xs1; rewrite length_take; lia).
  assert (Hl2 : length xs = (length ys + length xs2)%nat)
    by (subst xs2; rewrite length_drop; lia).
  (* the loop over the common prefix *)
  assert (∃ h1,
    assign_elements {| buffer_ := bufA; capacity_ := Z.of_nat (length xs + eA) |}
      (data_ rhs) 0 (Z.to_nat (Z.of_nat (length ys))) h = Ok h1 ∧
    (bufA = nullptr ∧ xs = [] ∧ eA = 0%nat ∧ h1 = h ∨
     ∃ a, bufA = Ptr a 0 ∧
          h1 = <[a := (Some <$> ys) ++ (Some <$> xs2) ++ replicate eA None]> h))
    as (h1 & Hloop & Hh1).
  { rewrite Nat2Z.id. destruct ys as [|y ys'].
    - exists h. split; [done|].
      destruct HbufA as [(-> & Hnil & ->)|(a & -> & Ha)].
      + left. apply app_eq_nil in Hnil as [_ Hx2]. subst xs2.
        rewrite drop_0 in Hx2. by subst.
      + right. exists a. split; [done|]. simpl. subst xs1 xs2.
        rewrite take_0, drop_0 in *. simpl in Ha. by rewrite insert_id.
    - destruct HbufA as [(_ & Hnil & _)|(a & -> & Ha)].
      { apply app_eq_nil in Hnil as [Hx1 _]. by destruct xs1. }
      destruct HbufB as [(_ & Hnil & _)|(b & HbB & Hb)]; [done|].
      destruct rhs as [[bufB capB] szB]. simpl in *. subst bufB.
      assert (Hab : a ≠ b). { intros ->. by apply (Hsep b 0 0). }
      rewrite fmap_app, <- app_assoc in Ha.
      eexists. split; [|right; exists a; split; [done|reflexivity]].
      apply (assign_elements_blocks h a b _ _ [] [] xs1 (y :: ys')
               ((Some <$> xs2) ++ replicate eA None) (replicate eB None));
        try done; simpl in *; lia. }
  destruct (Z.ltb_spec (Z.of_nat (length ys)) (Z.of_nat (length xs))) as [Hshort|Hsame].
  - rewrite Hloop, bind_Ok. rewrite wrap_small by (zify_sizes; lia).
    destruct Hh1 as [(_ & -> & _)|(a & -> & ->)]; [simpl in *; lia|].
    unfold ptr_add.
    erewrite (destroy_n_slots _ a _ _ (Some <$> ys) xs2 (replicate eA None));
      [| by rewrite lookup_insert_eq | rewrite length_fmap; lia | lia].
    rewrite bind_Ok, insert_insert_eq.
    eexists. split; [reflexivity|]. split.
    + exists (length xs2 + eA)%nat. unfold storage. simpl.
      rewrite lookup_insert_eq, replicate_add.
      replace (Z.to_nat (Z.of_nat (length xs) - Z.of_nat (length ys)))
        with (length xs2) by lia.
      zify_sizes. repeat split; try done; lia.
    + apply repr_insert_ne; [done|]. intros i Hi. by apply (Hsep a 0 i).
  - replace (Z.of_nat (length xs)) with (Z.of_nat (length ys)) by lia.
    rewrite Hloop, bind_Ok.
    replace (Z.of_nat (length ys) - Z.of_nat (length ys)) with 0 by lia.
    rewrite (wrap_small 0) by (zify_sizes; lia). simpl. rewrite bind_Ok.
    assert (xs2 = []) as Hx2 by (destruct xs2; [done|simpl in *; lia]).
    eexists. split; [reflexivity|].
    destruct Hh1 as [(-> & -> & -> & ->)|(a & -> & ->)].
    + split; [|done]. destruct ys; [|simpl in *; lia]. by exists 0%nat.
    + rewrite Hx2. simpl. split.
      * exists eA. unfold storage. simpl. rewrite lookup_insert_eq.
        zify_sizes. repeat split; try done; lia.
      * apply repr_insert_ne; [done|]. intros i Hi. by apply (Hsep a 0 i).
Qed.

(** The source is longer than the target's capacity: copy and swap. *)
Lemma copy_assign_swap h this rhs xs ys :
  repr h this xs → repr h rhs ys → separate this rhs →
  Capacity this < Size rhs → Size rhs * sizeof_T < size_modulus →
  new_ok h (Size rhs) = true →
  ∃ this' h',
    copy_assign new_ok this rhs h = Ok (this', h') ∧
    repr h' this' ys ∧ repr h' rhs ys ∧
    Capacity this' = Size rhs ∧
    h' = <[fresh (dom h) := Some <$> ys]>
           (match buffer_ (data_ this) with
            | nullptr => h
            | Ptr a _ => delete a h
            end).
Proof.
  intros Hr Hs Hsep Hgt Hfit Hok.
  assert (ys ≠ []) as Hys.
  { intros ->. apply repr_size in Hs. pose proof Hr as (e & _ & Hc & _).
    simpl in Hs. lia. }
  destruct (Vector_copy_spec new_ok h rhs ys Hs Hfit (λ _, Hok))
    as (c & h1 & Hcopy & Hrc & Hcc & [[Hnull _]|[Hcb ->]]).
  { apply repr_cases in Hrc as (e & _ & _ & _ & [(_ & ? & _)|(a & Ha & _)]);
      [done|by rewrite Hnull in Ha]. }
  set (f := fresh (dom h)) in *.
  unfold copy_assign. unfold Capacity in Hgt.
  destruct (Z.gtb_spec (size_ rhs) (RawMemory_Capacity (data_ this))) as [_|Hle];
    [|unfold Size in Hgt; lia].
  rewrite Hcopy, bind_Ok.
  destruct this as [[bufA capA] szA], c as [[bufC capC] szC].
  cbn [Swap RawMemory_Swap data_ size_ buffer_ capacity_] in *.
  assert (Hfa : ∀ i, bufA ≠ Ptr f i).
  { intros i ->.
    apply repr_cases in Hr as (e & _ & _ & _ & [(? & _)|(a & Ha & Hb)]); [done|].
    simpl in Ha. injection Ha as <- _. unfold f in Hb.
    by rewrite fresh_lookup in Hb. }
  assert (Hr1 : repr (<[f := Some <$> ys]> h)
                  {| data_ := {| buffer_ := bufA; capacity_ := capA |};
                     size_ := szA |} xs)
    by (by apply repr_insert_ne).
  rewrite (Vector_destroy_spec _ _ xs Hr1), bind_Ok. cbn [data_ buffer_].
  eexists _, _. split; [reflexivity|].
  assert (Hfb : ∀ i, buffer_ (data_ rhs) ≠ Ptr f i).
  { intros i Hi.
    apply repr_cases in Hs as (e & _ & _ & _ & [(? & _)|(b & Hb & Hl)]);
      [congruence|].
    rewrite Hb in Hi. injection Hi as -> _. unfold f in Hl.
    by rewrite fresh_lookup in Hl. }
  simpl in Hcb. subst bufC.
  destruct bufA as [|a i].
  - split; [done|]. split; [by apply repr_insert_ne|]. done.
  - assert (f ≠ a) as Hne by (intros <-; by apply (Hfa i)).
    split; [|split; [|split]].
    + apply repr_delete_ne; [done|]. simpl. intros j [= ->]. done.
    + apply repr_delete_ne; [by apply repr_insert_ne|].
      intros j Hj. by apply (Hsep a i j).
    + done.
    + by rewrite delete_insert_ne.
Qed.

End CopyAssign.

(** * References into the vector as arguments, Swap, failed allocations *)

Section OwnElements.
Context {T : Type} `{!Element T}.
Variable new_ok : heap T → Z → bool.
Implicit Types (h : heap T) (v : Vector) (xs ys : list T).

Lemma load_insert_fresh h p x blk :
  load p h = Ok x → load p (<[fresh (dom h) := blk]> h) = Ok x.
Proof.
  unfold load, slot_at. destruct p as [|b i]; [done|].
  destruct (0 <=? i); [|done].
  destruct (h !! b) as [old|] eqn:Hb; [|done].
  rewrite lookup_insert_ne; [by rewrite Hb|].
  intros <-. by rewrite fresh_lookup in Hb.
Qed.

(** When the vector is full, or the position is the end, [Emplace] reads
    its argument before it has changed any slot of the old block: a
    reference to an element behaves as that element's value. *)
Lemma Emplace_ConstRef_early pos p x v h :
  load p h = Ok x →
  size_ v = RawMemory_Capacity (data_ v) ∨
  (distance (cbegin v) pos = Ok (size_ v) ∧ is_size_t (size_ v)) →
  Emplace new_ok pos (ConstRef p) v h = Emplace new_ok pos (Value x) v h.
Proof.
  intros Hload Hcase. unfold Emplace.
  destruct (distance (cbegin v) pos) as [d| |] eqn:Hd; [|done..].
  rewrite !bind_Ok. cbv zeta.
  destruct (Z.eqb_spec (size_ v) (RawMemory_Capacity (data_ v))) as [Hfull|Hroom].
  - destruct (distance pos (cend v)) as [e| |]; [|done..].
    rewrite !bind_Ok. unfold RawMemory_new, Allocate.
    set (n := if size_ v =? 0 then 1 else wrap (size_ v * 2)).
    destruct (n =? 0).
    + rewrite !bind_Ok. unfold construct_from. by rewrite Hload.
    + destruct (new_ok h n); [|done].
      rewrite !bind_Ok. unfold construct_from.
      by rewrite (load_insert_fresh _ _ x _ Hload).
  - destruct Hcase as [?|[[= ->] Hsz]]; [done|].
    rewrite (wrap_small _ Hsz), Z.eqb_refl. cbn [negb].
    unfold construct_from. by rewrite Hload.
Qed.

Lemma Emplace_refused h v xs ys (a : arg T) :
  repr h v (xs ++ ys) → Size v = Capacity v → 2 * Size v * sizeof_T < size_modulus →
  new_ok h (if Size v =? 0 then 1 else wrap (Size v * 2)) = false →
  Emplace new_ok (ptr_add (begin v) (Z.of_nat (length xs))) a v h = BadAlloc.
Proof.
  intros Hr Hfull Hdbl Hno.
  apply repr_cases in Hr as (extra & Hcap & Hlt & Hsz & Hbuf).
  destruct v as [[buf cap] sz]. zify_sizes.
  assert ((if sz =? 0 then 1 else wrap (sz * 2)) ≠ 0) as Hnz.
  { pose proof sizeof_T_pos as Hs. destruct (Z.eqb_spec sz 0); [done|].
    rewrite wrap_small by (unfold is_size_t; rewrite size_modulus_eq; nia). lia. }
  unfold Emplace. zify_sizes.
  assert (∃ d e, distance buf (ptr_add buf (Z.of_nat (length xs))) = Ok d ∧
                 distance (ptr_add buf (Z.of_nat (length xs))) (ptr_add buf sz) = Ok e)
    as (d & e & -> & ->).
  { destruct Hbuf as [(-> & _ & _)|(b & -> & _)].
    - by exists 0, 0.
    - unfold ptr_add. rewrite !distance_Ptr. by eexists _, _. }
  rewrite !bind_Ok.
  destruct (Z.eqb_spec sz cap); [|lia].
  rewrite ?bind_Ok. unfold RawMemory_new, Allocate.
  destruct (Z.eqb_spec (if sz =? 0 then 1 else wrap (sz * 2)) 0); [done|].
  by rewrite Hno.
Qed.

End OwnElements.

(** * Further properties of the operations *)

Section Extras.
Context {T : Type} `{!Element T}.
Variable new_ok : heap T → Z → bool.
Implicit Types (h : heap T) (v : Vector) (xs ys : list T).

Lemma Vector_destroy_owns h0 h v xs :
  repr h v xs → owns h0 h v → Vector_destroy v h = Ok h0.
Proof.
  intros Hr Ho. rewrite (Vector_destroy_spec _ _ _ Hr). unfold owns in Ho.
  destruct (buffer_ (data_ v)) as [|a i]; [by subst|].
  destruct Ho as (Hn & blk & ->). by rewrite delete_insert_id.
Qed.

Lemma owns_same_block h0 h h' v v' (a : nat) i :
  buffer_ (data_ v) = Ptr a i → data_ v' = data_ v →
  owns h0 h v → owns h0 h' v' → within a h h'.
Proof.
  unfold owns. intros Hb Hd. rewrite Hd, Hb.
  intros (_ & blk & ->) (_ & blk' & ->). right. exists blk'.
  by rewrite insert_insert_eq.
Qed.

Lemma owns_fresh h blk cap sz :
  owns h (<[fresh (dom h) := blk]> h)
    {| data_ := {| buffer_ := Ptr (fresh (dom h)) 0; capacity_ := cap |};
       size_ := sz |}.
Proof. split; [apply fresh_lookup|by exists blk]. Qed.

(** X1.  [Vector(n)]: when the byte count [n * sizeof(T)] is a [size_t]
    and the allocator serves the request (none is made for [n = 0]) the
    constructor returns a vector of size and capacity [n] holding [n]
    value-initialised elements; the heap afterwards is the heap before with
    the vector's block added, and for [n = 0] it is the heap before. *)
Theorem Vector_sized_elements h n :
  is_size_t n → n * sizeof_T < size_modulus → (n ≠ 0 → new_ok h n = true) →
  ∃ v h',
    Vector_sized new_ok n h = Ok (v, h') ∧
    repr h' v (replicate (Z.to_nat n) value_init) ∧
    Size v = n ∧ Capacity v = n ∧ owns h h' v ∧ (n = 0 → h' = h).
Proof.
  intros Hn Hfit Hok.
  destruct (Vector_sized_spec new_ok h n Hn Hfit Hok) as (v & h' & Hrun & Hr & Hc).
  exists v, h'. split; [done|]. split; [done|].
  split; [rewrite (repr_size _ _ _ Hr), length_replicate; unfold is_size_t in Hn; lia|].
  split; [done|].
  destruct (Z.eq_dec n 0) as [->|Hnz].
  - rewrite Vector_sized_zero in Hrun. injection Hrun as <- <-. done.
  - rewrite (Vector_sized_heap new_ok h n Hn Hfit Hnz (Hok Hnz)) in Hrun.
    injection Hrun as <- <-. split; [apply owns_fresh|done].
Qed.

(** X2.  The copy constructor: when the allocator serves the request (none
    is made for an empty source) the new vector holds the source's elements
    in a block of its own that was not part of the heap before, its capacity
    is the source's size, and the source still holds its elements.  The
    source's elements take fewer than [2^64] bytes, as those of a vector in
    memory do. *)
Theorem Vector_copy_is_deep h other xs :
  repr h other xs → Size other * sizeof_T < size_modulus →
  (xs ≠ [] → new_ok h (Size other) = true) →
  ∃ c h',
    Vector_copy new_ok other h = Ok (c, h') ∧
    repr h' c xs ∧ repr h' other xs ∧
    Capacity c = Size other ∧ owns h h' c.
Proof.
  intros Hr Hfit Hok.
  destruct (Vector_copy_spec new_ok h other xs Hr Hfit Hok)
    as (c & h' & Hrun & Hc & Hcap & Hheap).
  assert (owns h h' c) as Ho.
  { unfold owns. destruct Hheap as [[-> ->]|[-> ->]]; [done|].
    split; [apply fresh_lookup|by eexists]. }
  exists c, h'. repeat split; try done. by apply (repr_frame h h' c other xs).
Qed.

(** X3.  [v[i]] on a vector holding [xs]: the [i]-th element of [xs] when
    [i < Size()], and a failed assertion for every other index, also one
    below the capacity. *)
Theorem subscript_spec h v xs i :
  repr h v xs → 0 ≤ i →
  get v i h = match xs !! Z.to_nat i with Some x => Ok x | None => Fault end.
Proof.
  intros Hr Hi. destruct (xs !! Z.to_nat i) as [x|] eqn:Hx.
  - rewrite <- (Z2Nat.id i) by done. by eapply repr_get.
  - apply lookup_ge_None in Hx. apply repr_size in Hr.
    unfold get, Vector_at. unfold Size in Hr.
    destruct (Z.ltb_spec i (size_ v)); [lia|]. reflexivity.
Qed.

(** X4.  [Erase] at position [length xs] of a vector holding
    [xs ++ x :: ys]: it returns the position it was given, the vector holds
    [xs ++ ys] in the same block with the same capacity, the size is one
    less, and no other block of the heap changes. *)
Theorem Erase_removes_element h v xs x ys :
  repr h v (xs ++ x :: ys) →
  ∃ v' h' a,
    Erase (ptr_add (begin v) (Z.of_nat (length xs))) v h
    = Ok (ptr_add (begin v) (Z.of_nat (length xs)), v', h') ∧
    repr h' v' (xs ++ ys) ∧
    data_ v' = data_ v ∧ Size v' = Size v - 1 ∧
    buffer_ (data_ v) = Ptr a 0 ∧ within a h h'.
Proof.
  intros Hr.
  destruct (Erase_spec h v xs x ys Hr) as (v' & h' & Hrun & Hr' & Hcap).
  pose proof Hr as Hc.
  apply repr_cases in Hc as (e & _ & _ & _ & [(_ & Hnil & _)|(a & Ha & _)]).
  { by destruct xs. }
  destruct (Erase_within _ _ _ _ _ _ _ _ Ha Hrun) as [Hw Hd].
  pose proof (repr_size _ _ _ Hr) as Hs. pose proof (repr_size _ _ _ Hr') as Hs'.
  rewrite length_app in Hs, Hs'. simpl in Hs.
  replace (begin v') with (begin v) in Hrun by (unfold begin; by rewrite Hd).
  exists v', h', a. split; [done|]. split; [done|]. split; [done|]. split; [lia|]. done.
Qed.

(** X5.  [PopBack()] on an empty vector, whatever its capacity: the index
    [size_ - 1] wraps around and the assertion of [RawMemory::operator[]]
    fails. *)
Theorem PopBack_on_empty_faults h v :
  repr h v [] → PopBack v h = Fault.
Proof.
  intros (extra & _ & Hcap & Hlt & Hsz). unfold PopBack, RawMemory_at.
  zify_sizes. rewrite Hsz.
  assert (Hw : wrap (Z.of_nat 0 - 1) = 18446744073709551615) by reflexivity.
  rewrite Hw.
  destruct (Z.ltb_spec 18446744073709551615 (capacity_ (data_ v))); [lia|].
  reflexivity.
Qed.

(** X6.  [PushBack] of a value from outside on a vector with room left
    ([Size() < Capacity()]): it succeeds with any allocator, the vector keeps
    its block and capacity, holds the old elements followed by the new one,
    and no other block of the heap changes. *)
Theorem PushBack_with_room_keeps_block h v xs x :
  repr h v xs → Size v < Capacity v →
  ∃ h' a,
    PushBack new_ok (Value x) v h
    = Ok ({| data_ := data_ v; size_ := Size v + 1 |}, h') ∧
    repr h' {| data_ := data_ v; size_ := Size v + 1 |} (xs ++ [x]) ∧
    buffer_ (data_ v) = Ptr a 0 ∧ within a h h'.
Proof.
  intros Hr Hroom.
  pose proof (owns_rest _ _ _ Hr) as Ho.
  pose proof (repr_size _ _ _ Hr) as Hsz.
  pose proof Hr as Hc.
  apply repr_cases in Hc as (e & Hcap & Hlt & _ & [(Hb & -> & ->)|(a & Ha & _)]).
  { simpl in *. lia. }
  rewrite <- (app_nil_r xs) in Hr.
  destruct (Emplace_owns new_ok _ h v xs [] x Hr Ho) as (v' & h' & Hrun & Hr' & Ho' & Hd);
    [lia|].
  specialize (Hd Hroom).
  destruct (Emplace_new_capacity new_ok _ _ _ _ _ _ _ Hrun) as [_ Hsz'].
  rewrite wrap_small in Hsz' by (unfold is_size_t; lia).
  assert (v' = {| data_ := data_ v; size_ := Size v + 1 |}) as ->.
  { destruct v'. simpl in *. unfold Size in Hsz'. simpl in Hsz'. by subst. }
  exists h', a. unfold PushBack, EmplaceBack. unfold Size in *.
  rewrite <- Hsz in Hrun. rewrite Hrun, bind_Ok.
  repeat split; try done.
  eapply owns_same_block; [exact Ha| |exact Ho|exact Ho']. done.
Qed.

(** X7.  The iterator that [Insert] returns: it is at distance [length xs]
    from the new [begin()], and it designates the inserted element. *)
Theorem Insert_returns_position h v xs ys x :
  repr h v (xs ++ ys) →
  (Size v = Capacity v →
   2 * Size v * sizeof_T < size_modulus ∧
   new_ok h (if Size v =? 0 then 1 else wrap (Size v * 2)) = true) →
  ∃ q v' h',
    Insert new_ok (ptr_add (begin v) (Z.of_nat (length xs))) (Value x) v h
    = Ok (q, v', h') ∧
    distance (begin v') q = Ok (Z.of_nat (length xs)) ∧
    load q h' = Ok x ∧
    get v' (Z.of_nat (length xs)) h' = Ok x.
Proof.
  intros Hr Hfull.
  destruct (Emplace_spec new_ok h v xs ys x Hr Hfull) as (v' & h' & Hrun & Hr' & _).
  assert ((xs ++ x :: ys) !! length xs = Some x) as Hx by apply list_lookup_middle, eq_refl.
  eexists _, v', h'. split; [exact Hrun|].
  split; [|split; [by apply (repr_load _ _ _ _ _ Hr')|by apply (repr_get _ _ _ _ _ Hr')]].
  apply repr_cases in Hr' as (e & _ & _ & _ & [(_ & Hnil & _)|(a & Ha & _)]).
  { by destruct xs. }
  unfold begin, GetAddress. rewrite Ha. unfold ptr_add. rewrite distance_Ptr.
  f_equal. lia.
Qed.

(** X8.  The growth policy: after [n >= 1] appends to an empty vector the
    capacity is the power of two [c] with [n <= c < 2 * n]; with no append it
    stays 0.  The allocator serves every request and [2 * n * sizeof(T)],
    the largest byte count a doubling can ask for, does not exceed [2^64]. *)
Theorem append_all_capacity_doubles vs h :
  (∀ h' n, new_ok h' n = true) →
  2 * Z.of_nat (length vs) * sizeof_T ≤ size_modulus →
  ∃ v' h',
    append_all new_ok vs Vector_default h = Ok (v', h') ∧
    doubled (length vs) (Capacity v').
Proof.
  intros Hok Hn.
  destruct (append_all_doubled new_ok vs h Vector_default [])
    as (v' & h' & Hrun & _ & Hd);
    [apply repr_default | by left | done | done |].
  by exists v', h'.
Qed.

(** X9.  [Resize(n)] with [n <= Size()]: the vector keeps its block and
    capacity and holds its first [n] elements, and no other block of the
    heap changes. *)
Theorem Resize_shrinks_in_place h v xs ys :
  repr h v (xs ++ ys) →
  ∃ h',
    Resize new_ok (Z.of_nat (length xs)) v h
    = Ok ({| data_ := data_ v; size_ := Z.of_nat (length xs) |}, h') ∧
    repr h' {| data_ := data_ v; size_ := Z.of_nat (length xs) |} xs ∧
    ∀ (a : nat) i, buffer_ (data_ v) = Ptr a i → within a h h'.
Proof.
  intros Hr.
  destruct (Resize_truncates new_ok h v xs ys Hr) as (h' & Hrun & Hr').
  exists h'. split; [done|]. split; [done|]. intros a i Ha.
  apply repr_cases in Hr as (e & Hcap & _ & _ & _). rewrite length_app in Hcap.
  eapply (Resize_within new_ok _ v h _ h' a i Ha); [|exact Hrun]. lia.
Qed.

(** X10.  Copy assignment [this = rhs] between two objects with separate
    blocks, when [rhs] is not longer than [this]: the assignment succeeds
    without any allocation, [this] keeps its block and capacity and holds
    the elements of [rhs], and [rhs] still holds them. *)
Theorem copy_assign_reuses_block w (this rhs : nat) a b xs ys :
  this ≠ rhs → objs w !! this = Some a → objs w !! rhs = Some b →
  repr (mem w) a xs → repr (mem w) b ys → separate a b →
  (length ys ≤ length xs)%nat →
  ∃ h',
    Vector_copy_assign new_ok this rhs w
    = Ok {| mem := h';
            objs := <[this := {| data_ := data_ a; size_ := Size b |}]> (objs w) |} ∧
    repr h' {| data_ := data_ a; size_ := Size b |} ys ∧
    repr h' b ys.
Proof.
  intros Hne Ha Hb Hra Hrb Hsep Hlen.
  destruct (copy_assign_in_place new_ok (mem w) a b xs ys Hra Hrb Hsep Hlen)
    as (h' & Hrun & Hr1 & Hr2).
  exists h'. unfold Vector_copy_assign. rewrite Ha, Hb.
  rewrite bool_decide_eq_true_2 by done. by rewrite Hrun, bind_Ok.
Qed.

(** X11.  Copy assignment [this = rhs] between two objects with separate
    blocks, when [rhs] has more elements than [this] has capacity and the
    allocator serves the request for [rhs.Size()] elements: [this] ends up
    with a copy of the elements in a new block of capacity [rhs.Size()], the
    block it had is released, and [rhs] still holds its elements.  The
    elements of [rhs] take fewer than [2^64] bytes, as those of a vector in
    memory do. *)
Theorem copy_assign_reallocates w (this rhs : nat) a b xs ys :
  this ≠ rhs → objs w !! this = Some a → objs w !! rhs = Some b →
  repr (mem w) a xs → repr (mem w) b ys → separate a b →
  Capacity a < Size b → Size b * sizeof_T < size_modulus →
  new_ok (mem w) (Size b) = true →
  ∃ a' h',
    Vector_copy_assign new_ok this rhs w
    = Ok {| mem := h'; objs := <[this := a']> (objs w) |} ∧
    repr h' a' ys ∧ repr h' b ys ∧ Capacity a' = Size b ∧
    ∀ (c : nat) i, buffer_ (data_ a) = Ptr c i → h' !! c = None.
Proof.
  intros Hne Ha Hb Hra Hrb Hsep Hcap Hfit Hok.
  destruct (copy_assign_swap new_ok (mem w) a b xs ys Hra Hrb Hsep Hcap Hfit Hok)
    as (a' & h' & Hrun & Hr1 & Hr2 & Hc & Hh).
  exists a', h'. unfold Vector_copy_assign. rewrite Ha, Hb.
  rewrite bool_decide_eq_true_2 by done. rewrite Hrun, bind_Ok.
  repeat split; try done. intros c i Hbuf. rewrite Hh, Hbuf.
  apply repr_cases in Hra as (e & _ & _ & _ & [(Hn & _)|(c' & Hc' & Hl)]);
    [congruence|].
  rewrite Hbuf in Hc'. injection Hc' as <- _.
  rewrite lookup_insert_ne; [by rewrite lookup_delete_eq|].
  intros Hf. rewrite <- Hf, fresh_lookup in Hl. done.
Qed.

(** X12.  [Insert(pos, a[j])] on a full vector, the case in which [Emplace]
    reallocates: the element is read and constructed in the new block before
    anything is moved, so the vector holds the old elements with the value
    that [a[j]] had before the call inserted at [pos]. *)
Theorem Insert_own_element_on_growth h v xs ys (j : nat) x :
  repr h v (xs ++ ys) → (xs ++ ys) !! j = Some x →
  Size v = Capacity v → 2 * Size v * sizeof_T < size_modulus →
  new_ok h (if Size v =? 0 then 1 else wrap (Size v * 2)) = true →
  ∃ v' h',
    Insert new_ok (ptr_add (begin v) (Z.of_nat (length xs)))
      (ConstRef (ptr_add (begin v) (Z.of_nat j))) v h
    = Ok (ptr_add (begin v') (Z.of_nat (length xs)), v', h') ∧
    repr h' v' (xs ++ x :: ys).
Proof.
  intros Hr Hj Hfull Hdbl Hok.
  destruct (Emplace_spec new_ok h v xs ys x Hr) as (v' & h' & Hrun & Hr' & _); [done|].
  exists v', h'. split; [|done]. unfold Insert.
  rewrite (Emplace_ConstRef_early new_ok _ _ x); [done| |by left].
  by apply (repr_load _ _ _ _ _ Hr).
Qed.

(** X13.  [PushBack(a[j])]: with or without reallocation the vector
    afterwards holds its old elements followed by the value that [a[j]] had
    before the call. *)
Theorem PushBack_own_element h v xs (j : nat) x :
  repr h v xs → xs !! j = Some x →
  (Size v = Capacity v →
   2 * Size v * sizeof_T < size_modulus ∧
   new_ok h (if Size v =? 0 then 1 else wrap (Size v * 2)) = true) →
  ∃ v' h',
    PushBack new_ok (ConstRef (ptr_add (begin v) (Z.of_nat j))) v h = Ok (v', h') ∧
    repr h' v' (xs ++ [x]).
Proof.
  intros Hr Hj Hfull.
  pose proof (repr_size _ _ _ Hr) as Hsz.
  pose proof (repr_load _ _ _ _ _ Hr Hj) as Hload.
  pose proof Hr as Hc.
  apply repr_cases in Hc as (e & Hcap & Hlt & _ & [(_ & -> & _)|(a & Ha & _)]); [done|].
  rewrite <- (app_nil_r xs) in Hr.
  destruct (Emplace_spec new_ok h v xs [] x Hr Hfull) as (v' & h' & Hrun & Hr' & _).
  exists v', h'. split; [|done]. unfold PushBack, EmplaceBack. unfold Size in *.
  rewrite (Emplace_ConstRef_early new_ok _ _ x); [|done|].
  - rewrite Hsz, Hrun. by rewrite bind_Ok.
  - right. split; [|unfold is_size_t; lia].
    unfold cbegin, begin, GetAddress. rewrite Ha. unfold ptr_add.
    rewrite distance_Ptr. f_equal. lia.
Qed.

(** X14.  [Swap]: the two vectors exchange their elements and capacities
    without any access to the heap, and swapping twice gives back the two
    vectors. *)
Theorem Swap_exchanges_contents h a b xs ys :
  repr h a xs → repr h b ys →
  repr h (Swap a b).1 ys ∧ repr h (Swap a b).2 xs ∧
  Capacity (Swap a b).1 = Capacity b ∧ Capacity (Swap a b).2 = Capacity a ∧
  Swap (Swap a b).1 (Swap a b).2 = (a, b).
Proof. by destruct a as [[??]?], b as [[??]?]. Qed.

(** X15.  [Emplace] of a value from outside at a position of a vector in a
    valid state never trips an assertion or touches raw or foreign storage;
    it throws [std::bad_alloc] exactly when the vector is full and the
    allocator refuses the doubled block. *)
Theorem Emplace_fails_only_on_refusal h v xs ys x :
  repr h v (xs ++ ys) →
  (Size v = Capacity v → 2 * Size v * sizeof_T < size_modulus) →
  let r := Emplace new_ok (ptr_add (begin v) (Z.of_nat (length xs))) (Value x) v h in
  r ≠ Fault ∧
  (r = BadAlloc ↔
   Size v = Capacity v ∧
   new_ok h (if Size v =? 0 then 1 else wrap (Size v * 2)) = false).
Proof.
  intros Hr Hdbl r. subst r.
  destruct (decide (Size v = Capacity v)) as [Hfull|Hroom];
    [destruct (new_ok h (if Size v =? 0 then 1 else wrap (Size v * 2))) eqn:Hok|].
  - destruct (Emplace_spec new_ok h v xs ys x Hr) as (v' & h' & -> & _); [auto|].
    split; [done|]. split; [done|]. by intros [_ ?].
  - rewrite (Emplace_refused new_ok h v xs ys (Value x) Hr Hfull (Hdbl Hfull) Hok).
    done.
  - destruct (Emplace_spec new_ok h v xs ys x Hr) as (v' & h' & -> & _); [done|].
    split; [done|]. split; [done|]. by intros [? _].
Qed.

(** X16.  Sequences of [PushBack], [PopBack], [Insert], [Erase], [Reserve]
    and shrinking [Resize] calls refine the same operations on lists: when
    every call of the sequence is defined on the list (for [Reserve(n)]:
    the byte count [n * sizeof(T)] is a [size_t]), the allocator serves
    every request and twice the largest size reached, in bytes, does not
    exceed [2^64], the calls succeed and the vector holds the list that the
    list operations compute. *)
Theorem calls_refine_lists cs h v xs xs' :
  repr h v xs → list_calls cs xs = Some xs' →
  (∀ h' n, new_ok h' n = true) →
  2 * Z.of_nat (length xs + length cs) * sizeof_T ≤ size_modulus →
  ∃ v' h', run_calls new_ok cs v h = Ok (v', h') ∧ repr h' v' xs'.
Proof.
  intros Hr Hl Hok Hn.
  destruct (run_calls_steps new_ok _ cs h v xs xs' Hr (owns_rest _ _ _ Hr) Hl Hok Hn)
    as (v' & h' & Hrun & Hr' & _).
  by exists v', h'.
Qed.

(** X17.  No leak: a vector that starts empty, goes through any such
    sequence of calls and is then destroyed leaves the heap exactly as it
    was before the vector existed; every block obtained on the way has been
    released.  The calls are defined on the list, with the byte counts of
    their requests in [size_t], as in X16. *)
Theorem calls_then_destroy_restore_heap cs h0 xs' :
  list_calls cs [] = Some xs' →
  (∀ h' n, new_ok h' n = true) →
  2 * Z.of_nat (length cs) * sizeof_T ≤ size_modulus →
  ∃ v' h',
    run_calls new_ok cs Vector_default h0 = Ok (v', h') ∧
    Vector_destroy v' h' = Ok h0.
Proof.
  intros Hl Hok Hn.
  destruct (run_calls_steps new_ok h0 cs h0 Vector_default [] xs')
    as (v' & h' & Hrun & Hr' & Ho); [apply repr_default|done|done|done|done|].
  exists v', h'. split; [done|]. by apply (Vector_destroy_owns h0 h' v' xs').
Qed.

(** X18.  A copy is independent of its source: whatever sequence of such
    calls runs on the copy (defined on the list, with the byte counts of
    their requests in [size_t], as in X16), the source still holds its
    elements. *)
Theorem copy_is_independent cs h a xs xs' :
  repr h a xs → list_calls cs xs = Some xs' →
  (∀ h' n, new_ok h' n = true) →
  2 * Z.of_nat (length xs + length cs) * sizeof_T ≤ size_modulus →
  ∃ c h1 c' h2,
    Vector_copy new_ok a h = Ok (c, h1) ∧
    run_calls new_ok cs c h1 = Ok (c', h2) ∧
    repr h2 c' xs' ∧ repr h2 a xs.
Proof.
  intros Hr Hl Hok Hn.
  destruct (Vector_copy_spec new_ok h a xs Hr) as (c & h1 & Hcopy & Hc & _ & Hheap);
    [|intros _; apply Hok|].
  { rewrite (repr_size _ _ _ Hr). pose proof sizeof_T_pos as Hs.
    rewrite size_modulus_eq in *. nia. }
  assert (owns h h1 c) as Ho.
  { unfold owns. destruct Hheap as [[-> ->]|[-> ->]]; [done|].
    split; [apply fresh_lookup|by eexists]. }
  destruct (run_calls_steps new_ok h cs h1 c xs xs' Hc Ho Hl Hok Hn)
    as (c' & h2 & Hrun & Hr' & Ho').
  exists c, h1, c', h2. repeat split; try done.
  by apply (repr_frame h h2 c' a xs).
Qed.

(** X19.  [Reserve(k)] beyond the capacity, when the byte count
    [k * sizeof(T)] is a [size_t] and the allocator serves the request: the
    elements end up in a block that was not part of the heap before, of
    capacity exactly [k], and the block the vector had is released, so
    pointers into it no longer designate anything. *)
Theorem Reserve_moves_to_fresh_block h v xs k :
  repr h v xs → Capacity v < k → k * sizeof_T < size_modulus →
  new_ok h k = true →
  ∃ v' h' (b : nat),
    Reserve new_ok k v h = Ok (v', h') ∧
    buffer_ (data_ v') = Ptr b 0 ∧ h !! b = None ∧
    Capacity v' = k ∧ repr h' v' xs ∧
    (∀ (a : nat) i, buffer_ (data_ v) = Ptr a i → h' !! a = None) ∧
    (∀ h0, owns h0 h v → owns h0 h' v').
Proof.
  intros Hr Hk Hlt Hok.
  destruct (Reserve_grow new_ok h v xs k Hr Hk Hlt Hok) as (v' & h' & Hrun & Hr' & Hc & _).
  pose proof (Reserve_grow_heap new_ok h v xs k Hr Hk Hlt Hok) as Hrun'.
  pose proof (eq_trans (eq_sym Hrun) Hrun') as Heq. injection Heq as -> ->.
  eexists _, _, (fresh (dom h)). split; [exact Hrun'|].
  split; [done|]. split; [apply fresh_lookup|]. split; [done|]. split; [done|].
  split.
  - intros a i Ha. rewrite Ha.
    apply repr_cases in Hr as (e & _ & _ & _ & [(Hn & _)|(a' & Ha' & Hl)]);
      [congruence|].
    rewrite Ha in Ha'. injection Ha' as <- _.
    rewrite lookup_insert_ne; [by rewrite lookup_delete_eq|].
    intros Hf. rewrite <- Hf, fresh_lookup in Hl. done.
  - intros h0 Ho. by apply owns_realloc.
Qed.

(** X20.  [Resize(n)] on an empty vector with [n] above the capacity, when
    the byte count [n * sizeof(T)] is a [size_t] and the allocator serves
    the request: the vector ends up with size and capacity [n], holding [n]
    value-initialised elements. *)
Theorem Resize_of_empty_vector h v n :
  repr h v [] → Capacity v < n → n * sizeof_T < size_modulus →
  new_ok h n = true →
  ∃ v' h',
    Resize new_ok n v h = Ok (v', h') ∧
    repr h' v' (replicate (Z.to_nat n) value_init) ∧
    Size v' = n ∧ Capacity v' = n.
Proof.
  intros Hr Hk Hlt Hok.
  destruct (Resize_empty_grows new_ok h v n Hr Hk Hlt Hok) as (v' & h' & Hrun & Hr' & Hc).
  exists v', h'. repeat split; try done.
  rewrite (repr_size _ _ _ Hr'), length_replicate.
  apply repr_cases in Hr as (e & Hcap & _). lia.
Qed.

(** X21.  Moves transfer the block and touch nothing in the heap.  Move
    construction from a vector holding [xs], and move assignment from it
    into a vector that has no block, return with the heap as it was; the
    destination holds [xs] in the source's block, the destructor of the
    source then has nothing to release, and the destructor of the
    destination releases the block. *)
Theorem move_transfers_ownership h0 h this b xs :
  repr h b xs → owns h0 h b → buffer_ (data_ this) = nullptr →
  ∃ a' b',
    Vector_move b h = Ok (a', b', h) ∧
    move_assign this b h = Ok (a', b', h) ∧
    data_ a' = data_ b ∧ repr h a' xs ∧
    Vector_destroy b' h = Ok h ∧
    Vector_destroy a' h = Ok h0.
Proof.
  intros Hr Ho Hnull.
  destruct this as [[bufA capA] szA], b as [[buf cap] sz]. simpl in Hnull. subst bufA.
  eexists _, _. split; [reflexivity|]. split; [reflexivity|].
  split; [done|]. split; [done|]. split.
  - exact (Vector_destroy_spec h Vector_default [] (repr_default h)).
  - by apply (Vector_destroy_owns h0 h _ xs).
Qed.

(** X22.  [Reserve(k)] with a byte count [k * sizeof(T)] that is a
    [size_t], on a vector in a valid state, never fails an assertion or
    touches storage outside its blocks; it throws [std::bad_alloc] exactly
    when [k] exceeds the capacity and the allocator refuses the request. *)
Theorem Reserve_fails_only_on_refusal h v xs k :
  repr h v xs → is_size_t k → k * sizeof_T < size_modulus →
  Reserve new_ok k v h ≠ Fault ∧
  (Reserve new_ok k v h = BadAlloc ↔ Capacity v < k ∧ new_ok h k = false).
Proof.
  intros Hr [Hk0 _] Hk.
  destruct (Z.le_gt_cases k (Capacity v)) as [Hle|Hgt].
  - rewrite (Reserve_noop new_ok h v k Hle). split; [done|].
    split; [done|]. intros [? _]. lia.
  - destruct (new_ok h k) eqn:Hok.
    + destruct (Reserve_grow new_ok h v xs k Hr Hgt Hk Hok) as (v' & h' & -> & _).
      split; [done|]. split; [done|]. by intros [_ ?].
    + assert (Reserve new_ok k v h = BadAlloc) as ->; [|done].
      unfold Reserve. unfold Capacity in Hgt.
      destruct (Z.leb_spec k (RawMemory_Capacity (data_ v))); [lia|].
      unfold RawMemory_new, Allocate.
      apply repr_cases in Hr as (e & Hcap & _). unfold Capacity in Hcap.
      destruct (Z.eqb_spec k 0); [lia|]. by rewrite Hok.
Qed.

End Extras.

(** * The further properties at concrete inputs *)

Lemma Vector_sized_elements_witness :
  is_size_t 2 ∧ 2 * sizeof_T (T := Z) < size_modulus ∧
  (2 ≠ 0 → always ∅ 2 = true) ∧
  ∃ v h',
    Vector_sized always 2 ∅ = Ok (v, h') ∧
    repr h' v (replicate (Z.to_nat 2) value_init) ∧
    Size v = 2 ∧ Capacity v = 2 ∧ owns ∅ h' v ∧ (2 = 0 → h' = ∅).
Proof.
  assert (H1 : is_size_t 2) by (unfold is_size_t; rewrite size_modulus_eq; lia).
  assert (H2 : 2 * sizeof_T (T := Z) < size_modulus) by reflexivity.
  assert (H3 : 2 ≠ 0 → always (∅ : heap Z) 2 = true) by reflexivity.
  split; [exact H1|]. split; [exact H2|]. split; [exact H3|].
  exact (Vector_sized_elements always ∅ 2 H1 H2 H3).
Defined.

Lemma Vector_copy_is_deep_witness :
  repr h123 v123 [1; 2; 3] ∧
  Size v123 * sizeof_T (T := Z) < size_modulus ∧
  ([1; 2; 3] ≠ [] → always h123 (Size v123) = true) ∧
  ∃ c h',
    Vector_copy always v123 h123 = Ok (c, h') ∧
    repr h' c [1; 2; 3] ∧ repr h' v123 [1; 2; 3] ∧
    Capacity c = Size v123 ∧ owns h123 h' c.
Proof.
  assert (H1 : repr h123 v123 [1; 2; 3]) by concrete_repr 1%nat.
  assert (H2 : Size v123 * sizeof_T (T := Z) < size_modulus) by reflexivity.
  assert (H3 : [1; 2; 3] ≠ [] → always h123 (Size v123) = true) by reflexivity.
  split; [exact H1|]. split; [exact H2|]. split; [exact H3|].
  exact (Vector_copy_is_deep always h123 v123 [1; 2; 3] H1 H2 H3).
Defined.

Lemma subscript_spec_witness :
  repr h123 v123 [1; 2; 3] ∧ 0 ≤ 1 ∧
  get v123 1 h123
  = match [1; 2; 3] !! Z.to_nat 1 with Some x => Ok x | None => Fault end.
Proof.
  assert (H1 : repr h123 v123 [1; 2; 3]) by concrete_repr 1%nat.
  assert (H2 : 0 ≤ 1) by lia.
  split; [exact H1|]. split; [exact H2|].
  exact (subscript_spec h123 v123 [1; 2; 3] 1 H1 H2).
Defined.

Lemma Erase_removes_element_witness :
  repr h123 v123 ([1] ++ 2 :: [3]) ∧
  ∃ v' h' a,
    Erase (ptr_add (begin v123) (Z.of_nat (length [1]))) v123 h123
    = Ok (ptr_add (begin v123) (Z.of_nat (length [1])), v', h') ∧
    repr h' v' ([1] ++ [3]) ∧
    data_ v' = data_ v123 ∧ Size v' = Size v123 - 1 ∧
    buffer_ (data_ v123) = Ptr a 0 ∧ within a h123 h'.
Proof.
  assert (H1 : repr h123 v123 ([1] ++ 2 :: [3])) by concrete_repr 1%nat.
  split; [exact H1|].
  exact (Erase_removes_element h123 v123 [1] 2 [3] H1).
Defined.

Lemma PopBack_on_empty_faults_witness :
  repr (∅ : heap Z) Vector_default [] ∧ PopBack Vector_default (∅ : heap Z) = Fault.
Proof.
  assert (H1 : repr (∅ : heap Z) Vector_default []) by concrete_repr 0%nat.
  split; [exact H1|].
  exact (PopBack_on_empty_faults ∅ Vector_default H1).
Defined.

Lemma PushBack_with_room_keeps_block_witness :
  repr h123 v123 [1; 2; 3] ∧ Size v123 < Capacity v123 ∧
  ∃ h' a,
    PushBack never (Value 4) v123 h123
    = Ok ({| data_ := data_ v123; size_ := Size v123 + 1 |}, h') ∧
    repr h' {| data_ := data_ v123; size_ := Size v123 + 1 |} ([1; 2; 3] ++ [4]) ∧
    buffer_ (data_ v123) = Ptr a 0 ∧ within a h123 h'.
Proof.
  assert (H1 : repr h123 v123 [1; 2; 3]) by concrete_repr 1%nat.
  assert (H2 : Size v123 < Capacity v123) by reflexivity.
  split; [exact H1|]. split; [exact H2|].
  exact (PushBack_with_room_keeps_block never h123 v123 [1; 2; 3] 4 H1 H2).
Defined.

Lemma Insert_returns_position_witness :
  repr h123_full v123_full ([1] ++ [2; 3]) ∧
  (Size v123_full = Capacity v123_full →
   2 * Size v123_full * sizeof_T (T := Z) < size_modulus ∧
   always h123_full
     (if Size v123_full =? 0 then 1 else wrap (Size v123_full * 2)) = true) ∧
  ∃ q v' h',
    Insert always (ptr_add (begin v123_full) (Z.of_nat (length [1]))) (Value 9)
      v123_full h123_full
    = Ok (q, v', h') ∧
    distance (begin v') q = Ok (Z.of_nat (length [1])) ∧
    load q h' = Ok 9 ∧
    get v' (Z.of_nat (length [1])) h' = Ok 9.
Proof.
  assert (H1 : repr h123_full v123_full ([1] ++ [2; 3])) by concrete_repr 0%nat.
  assert (H2 : Size v123_full = Capacity v123_full →
               2 * Size v123_full * sizeof_T (T := Z) < size_modulus ∧
               always h123_full
                 (if Size v123_full =? 0 then 1 else wrap (Size v123_full * 2)) = true)
    by (intros _; split; [vm_compute; reflexivity | reflexivity]).
  split; [exact H1|]. split; [exact H2|].
  exact (Insert_returns_position always h123_full v123_full [1] [2; 3] 9 H1 H2).
Defined.

Lemma append_all_capacity_doubles_witness :
  (∀ (h : heap Z) n, always h n = true) ∧
  2 * Z.of_nat (length [1; 2; 3]) * sizeof_T (T := Z) ≤ size_modulus ∧
  ∃ v' h',
    append_all always [1; 2; 3] Vector_default ∅ = Ok (v', h') ∧
    doubled (length [1; 2; 3]) (Capacity v').
Proof.
  assert (H1 : ∀ (h : heap Z) n, always h n = true) by reflexivity.
  assert (H2 : 2 * Z.of_nat (length [1; 2; 3]) * sizeof_T (T := Z) ≤ size_modulus)
    by (rewrite size_modulus_eq; simpl; lia).
  split; [exact H1|]. split; [exact H2|].
  exact (append_all_capacity_doubles always [1; 2; 3] ∅ H1 H2).
Defined.

Lemma Resize_shrinks_in_place_witness :
  repr h123 v123 ([1] ++ [2; 3]) ∧
  ∃ h',
    Resize always (Z.of_nat (length [1])) v123 h123
    = Ok ({| data_ := data_ v123; size_ := Z.of_nat (length [1]) |}, h') ∧
    repr h' {| data_ := data_ v123; size_ := Z.of_nat (length [1]) |} [1] ∧
    ∀ (a : nat) i, buffer_ (data_ v123) = Ptr a i → within a h123 h'.
Proof.
  assert (H1 : repr h123 v123 ([1] ++ [2; 3])) by concrete_repr 1%nat.
  split; [exact H1|].
  exact (Resize_shrinks_in_place always h123 v123 [1] [2; 3] H1).
Defined.

Lemma copy_assign_reuses_block_witness :
  let a := {| data_ := {| buffer_ := Ptr 2 0; capacity_ := 2 |}; size_ := 2 |} in
  let b := {| data_ := {| buffer_ := Ptr 0 0; capacity_ := 2 |}; size_ := 1 |} in
  1%nat ≠ 0%nat ∧
  objs short_and_long_world !! 1%nat = Some a ∧
  objs short_and_long_world !! 0%nat = Some b ∧
  repr (mem short_and_long_world) a [7; 8] ∧
  repr (mem short_and_long_world) b [1] ∧
  separate a b ∧ (length [1] ≤ length [7; 8])%nat ∧
  ∃ h',
    Vector_copy_assign always 1 0 short_and_long_world
    = Ok {| mem := h';
            objs := <[1%nat := {| data_ := data_ a; size_ := Size b |}]>
                      (objs short_and_long_world) |} ∧
    repr h' {| data_ := data_ a; size_ := Size b |} [1] ∧
    repr h' b [1].
Proof.
  intros a b.
  assert (H1 : 1%nat ≠ 0%nat) by lia.
  assert (H2 : objs short_and_long_world !! 1%nat = Some a) by (vm_compute; reflexivity).
  assert (H3 : objs short_and_long_world !! 0%nat = Some b) by (vm_compute; reflexivity).
  assert (H4 : repr (mem short_and_long_world) a [7; 8]) by concrete_repr 0%nat.
  assert (H5 : repr (mem short_and_long_world) b [1]) by concrete_repr 1%nat.
  assert (H6 : separate a b) by (intros c i j Ha Hb; simpl in *; congruence).
  assert (H7 : (length [1] ≤ length [7; 8])%nat) by (simpl; lia).
  repeat (split; [assumption|]).
  exact (copy_assign_reuses_block always short_and_long_world 1 0 a b [7; 8] [1]
           H1 H2 H3 H4 H5 H6 H7).
Defined.

Lemma copy_assign_reallocates_witness :
  0%nat ≠ 1%nat ∧
  objs two_objects !! 0%nat = Some Vector_default ∧
  objs two_objects !! 1%nat = Some v123 ∧
  repr (mem two_objects) Vector_default [] ∧
  repr (mem two_objects) v123 [1; 2; 3] ∧
  separate Vector_default v123 ∧
  Capacity Vector_default < Size v123 ∧
  Size v123 * sizeof_T (T := Z) < size_modulus ∧
  always (mem two_objects) (Size v123) = true ∧
  ∃ a' h',
    Vector_copy_assign always 0 1 two_objects
    = Ok {| mem := h'; objs := <[0%nat := a']> (objs two_objects) |} ∧
    repr h' a' [1; 2; 3] ∧ repr h' v123 [1; 2; 3] ∧
    Capacity a' = Size v123 ∧
    ∀ (c : nat) i, buffer_ (data_ Vector_default) = Ptr c i → h' !! c = None.
Proof.
  assert (H1 : 0%nat ≠ 1%nat) by lia.
  assert (H2 : objs two_objects !! 0%nat = Some Vector_default)
    by (vm_compute; reflexivity).
  assert (H3 : objs two_objects !! 1%nat = Some v123) by (vm_compute; reflexivity).
  assert (H4 : repr (mem two_objects) Vector_default []) by concrete_repr 0%nat.
  assert (H5 : repr (mem two_objects) v123 [1; 2; 3]) by concrete_repr 1%nat.
  assert (H6 : separate Vector_default v123) by (intros c i j Ha; discriminate Ha).
  assert (H7 : Capacity Vector_default < Size v123) by reflexivity.
  assert (H8 : Size v123 * sizeof_T (T := Z) < size_modulus) by reflexivity.
  assert (H9 : always (mem two_objects) (Size v123) = true) by reflexivity.
  repeat (split; [assumption|]).
  exact (copy_assign_reallocates always two_objects 0 1 Vector_default v123 []
           [1; 2; 3] H1 H2 H3 H4 H5 H6 H7 H8 H9).
Defined.

Lemma Insert_own_element_on_growth_witness :
  repr h123_full v123_full ([] ++ [1; 2; 3]) ∧
  ([] ++ [1; 2; 3]) !! 1%nat = Some 2 ∧
  Size v123_full = Capacity v123_full ∧
  2 * Size v123_full * sizeof_T (T := Z) < size_modulus ∧
  always h123_full
    (if Size v123_full =? 0 then 1 else wrap (Size v123_full * 2)) = true ∧
  ∃ v' h',
    Insert always (ptr_add (begin v123_full) (Z.of_nat (length (@nil Z))))
      (ConstRef (ptr_add (begin v123_full) (Z.of_nat 1))) v123_full h123_full
    = Ok (ptr_add (begin v') (Z.of_nat (length (@nil Z))), v', h') ∧
    repr h' v' ([] ++ 2 :: [1; 2; 3]).
Proof.
  assert (H1 : repr h123_full v123_full ([] ++ [1; 2; 3])) by concrete_repr 0%nat.
  assert (H2 : ([] ++ [1; 2; 3]) !! 1%nat = Some 2) by reflexivity.
  assert (H3 : Size v123_full = Capacity v123_full) by reflexivity.
  assert (H4 : 2 * Size v123_full * sizeof_T (T := Z) < size_modulus) by (vm_compute; reflexivity).
  assert (H5 : always h123_full
                 (if Size v123_full =? 0 then 1 else wrap (Size v123_full * 2)) = true)
    by reflexivity.
  repeat (split; [assumption|]).
  exact (Insert_own_element_on_growth always h123_full v123_full [] [1; 2; 3] 1 2
           H1 H2 H3 H4 H5).
Defined.

Lemma PushBack_own_element_witness :
  repr h123_full v123_full [1; 2; 3] ∧
  [1; 2; 3] !! 0%nat = Some 1 ∧
  (Size v123_full = Capacity v123_full →
   2 * Size v123_full * sizeof_T (T := Z) < size_modulus ∧
   always h123_full
     (if Size v123_full =? 0 then 1 else wrap (Size v123_full * 2)) = true) ∧
  ∃ v' h',
    PushBack always (ConstRef (ptr_add (begin v123_full) (Z.of_nat 0)))
      v123_full h123_full = Ok (v', h') ∧
    repr h' v' ([1; 2; 3] ++ [1]).
Proof.
  assert (H1 : repr h123_full v123_full [1; 2; 3]) by concrete_repr 0%nat.
  assert (H2 : [1; 2; 3] !! 0%nat = Some 1) by reflexivity.
  assert (H3 : Size v123_full = Capacity v123_full →
               2 * Size v123_full * sizeof_T (T := Z) < size_modulus ∧
               always h123_full
                 (if Size v123_full =? 0 then 1 else wrap (Size v123_full * 2)) = true)
    by (intros _; split; [vm_compute; reflexivity | reflexivity]).
  repeat (split; [assumption|]).
  exact (PushBack_own_element always h123_full v123_full [1; 2; 3] 0 1 H1 H2 H3).
Defined.

Lemma Swap_exchanges_contents_witness :
  repr h123 v123 [1; 2; 3] ∧ repr h123 Vector_default [] ∧
  repr h123 (Swap v123 Vector_default).1 [] ∧
  repr h123 (Swap v123 Vector_default).2 [1; 2; 3] ∧
  Capacity (Swap v123 Vector_default).1 = Capacity Vector_default ∧
  Capacity (Swap v123 Vector_default).2 = Capacity v123 ∧
  Swap (Swap v123 Vector_default).1 (Swap v123 Vector_default).2
  = (v123, Vector_default).
Proof.
  assert (H1 : repr h123 v123 [1; 2; 3]) by concrete_repr 1%nat.
  assert (H2 : repr h123 Vector_default []) by concrete_repr 0%nat.
  split; [exact H1|]. split; [exact H2|].
  exact (Swap_exchanges_contents h123 v123 Vector_default [1; 2; 3] [] H1 H2).
Defined.

Lemma Emplace_fails_only_on_refusal_witness :
  repr h123_full v123_full ([1] ++ [2; 3]) ∧
  (Size v123_full = Capacity v123_full →
   2 * Size v123_full * sizeof_T (T := Z) < size_modulus) ∧
  let r := Emplace never (ptr_add (begin v123_full) (Z.of_nat (length [1])))
             (Value 9) v123_full h123_full in
  r ≠ Fault ∧
  (r = BadAlloc ↔
   Size v123_full = Capacity v123_full ∧
   never h123_full
     (if Size v123_full =? 0 then 1 else wrap (Size v123_full * 2)) = false).
Proof.
  assert (H1 : repr h123_full v123_full ([1] ++ [2; 3])) by concrete_repr 0%nat.
  assert (H2 : Size v123_full = Capacity v123_full →
               2 * Size v123_full * sizeof_T (T := Z) < size_modulus)
    by (intros _; vm_compute; reflexivity).
  split; [exact H1|]. split; [exact H2|].
  exact (Emplace_fails_only_on_refusal never h123_full v123_full [1] [2; 3] 9 H1 H2).
Defined.

Lemma calls_refine_lists_witness :
  let cs := [CallPushBack 1; CallPushBack 2; CallInsert 0 3; CallErase 1;
             CallReserve 8; CallPopBack] in
  repr h123 v123 [1; 2; 3] ∧
  list_calls cs [1; 2; 3] = Some [3; 2; 3; 1] ∧
  (∀ (h : heap Z) n, always h n = true) ∧
  2 * Z.of_nat (length [1; 2; 3] + length cs) * sizeof_T (T := Z) ≤ size_modulus ∧
  ∃ v' h', run_calls always cs v123 h123 = Ok (v', h') ∧ repr h' v' [3; 2; 3; 1].
Proof.
  intros cs.
  assert (H1 : repr h123 v123 [1; 2; 3]) by concrete_repr 1%nat.
  assert (H2 : list_calls cs [1; 2; 3] = Some [3; 2; 3; 1]) by (vm_compute; reflexivity).
  assert (H3 : ∀ (h : heap Z) n, always h n = true) by reflexivity.
  assert (H4 : 2 * Z.of_nat (length [1; 2; 3] + length cs) * sizeof_T (T := Z)
               ≤ size_modulus)
    by (rewrite size_modulus_eq; simpl; lia).
  repeat (split; [assumption|]).
  exact (calls_refine_lists always cs h123 v123 [1; 2; 3] [3; 2; 3; 1] H1 H2 H3 H4).
Defined.

Lemma calls_then_destroy_restore_heap_witness :
  let cs := [CallPushBack 1; CallPushBack 2; CallInsert 0 3; CallErase 1;
             CallPopBack] in
  list_calls cs [] = Some [3] ∧
  (∀ (h : heap Z) n, always h n = true) ∧
  2 * Z.of_nat (length cs) * sizeof_T (T := Z) ≤ size_modulus ∧
  ∃ v' h',
    run_calls always cs Vector_default h123 = Ok (v', h') ∧
    Vector_destroy v' h' = Ok h123.
Proof.
  intros cs.
  assert (H1 : list_calls cs [] = Some [3]) by (vm_compute; reflexivity).
  assert (H2 : ∀ (h : heap Z) n, always h n = true) by reflexivity.
  assert (H3 : 2 * Z.of_nat (length cs) * sizeof_T (T := Z) ≤ size_modulus)
    by (rewrite size_modulus_eq; simpl; lia).
  repeat (split; [assumption|]).
  exact (calls_then_destroy_restore_heap always cs h123 [3] H1 H2 H3).
Defined.

Lemma copy_is_independent_witness :
  let cs := [CallPushBack 4; CallErase 0] in
  repr h123 v123 [1; 2; 3] ∧
  list_calls cs [1; 2; 3] = Some [2; 3; 4] ∧
  (∀ (h : heap Z) n, always h n = true) ∧
  2 * Z.of_nat (length [1; 2; 3] + length cs) * sizeof_T (T := Z) ≤ size_modulus ∧
  ∃ c h1 c' h2,
    Vector_copy always v123 h123 = Ok (c, h1) ∧
    run_calls always cs c h1 = Ok (c', h2) ∧
    repr h2 c' [2; 3; 4] ∧ repr h2 v123 [1; 2; 3].
Proof.
  intros cs.
  assert (H1 : repr h123 v123 [1; 2; 3]) by concrete_repr 1%nat.
  assert (H2 : list_calls cs [1; 2; 3] = Some [2; 3; 4]) by (vm_compute; reflexivity).
  assert (H3 : ∀ (h : heap Z) n, always h n = true) by reflexivity.
  assert (H4 : 2 * Z.of_nat (length [1; 2; 3] + length cs) * sizeof_T (T := Z)
               ≤ size_modulus)
    by (rewrite size_modulus_eq; simpl; lia).
  repeat (split; [assumption|]).
  exact (copy_is_independent always cs h123 v123 [1; 2; 3] [2; 3; 4] H1 H2 H3 H4).
Defined.

Lemma Reserve_moves_to_fresh_block_witness :
  repr h123 v123 [1; 2; 3] ∧ Capacity v123 < 8 ∧
  8 * sizeof_T (T := Z) < size_modulus ∧
  always h123 8 = true ∧
  ∃ v' h' (b : nat),
    Reserve always 8 v123 h123 = Ok (v', h') ∧
    buffer_ (data_ v') = Ptr b 0 ∧ h123 !! b = None ∧
    Capacity v' = 8 ∧ repr h' v' [1; 2; 3] ∧
    (∀ (a : nat) i, buffer_ (data_ v123) = Ptr a i → h' !! a = None) ∧
    (∀ h0, owns h0 h123 v123 → owns h0 h' v').
Proof.
  assert (H1 : repr h123 v123 [1; 2; 3]) by concrete_repr 1%nat.
  assert (H2 : Capacity v123 < 8) by reflexivity.
  assert (H3 : 8 * sizeof_T (T := Z) < size_modulus) by reflexivity.
  assert (H4 : always h123 8 = true) by reflexivity.
  repeat (split; [assumption|]).
  exact (Reserve_moves_to_fresh_block always h123 v123 [1; 2; 3] 8 H1 H2 H3 H4).
Defined.

Lemma Resize_of_empty_vector_witness :
  repr (∅ : heap Z) Vector_default [] ∧ Capacity Vector_default < 2 ∧
  2 * sizeof_T (T := Z) < size_modulus ∧ always ∅ 2 = true ∧
  ∃ v' h',
    Resize always 2 Vector_default ∅ = Ok (v', h') ∧
    repr h' v' (replicate (Z.to_nat 2) value_init) ∧
    Size v' = 2 ∧ Capacity v' = 2.
Proof.
  assert (H1 : repr (∅ : heap Z) Vector_default []) by concrete_repr 0%nat.
  assert (H2 : Capacity Vector_default < 2) by reflexivity.
  assert (H3 : 2 * sizeof_T (T := Z) < size_modulus) by reflexivity.
  assert (H4 : always (∅ : heap Z) 2 = true) by reflexivity.
  repeat (split; [assumption|]).
  exact (Resize_of_empty_vector always ∅ Vector_default 2 H1 H2 H3 H4).
Defined.

Lemma move_transfers_ownership_witness :
  repr h123 v123 [1; 2; 3] ∧ owns ∅ h123 v123 ∧
  buffer_ (data_ Vector_default) = nullptr ∧
  ∃ a' b',
    Vector_move v123 h123 = Ok (a', b', h123) ∧
    move_assign Vector_default v123 h123 = Ok (a', b', h123) ∧
    data_ a' = data_ v123 ∧ repr h123 a' [1; 2; 3] ∧
    Vector_destroy b' h123 = Ok h123 ∧
    Vector_destroy a' h123 = Ok ∅.
Proof.
  assert (H1 : repr h123 v123 [1; 2; 3]) by concrete_repr 1%nat.
  assert (H2 : owns ∅ h123 v123)
    by (split; [reflexivity | eexists; reflexivity]).
  assert (H3 : buffer_ (data_ Vector_default) = nullptr) by reflexivity.
  repeat (split; [assumption|]).
  exact (move_transfers_ownership ∅ h123 Vector_default v123 [1; 2; 3] H1 H2 H3).
Defined.

Lemma Reserve_fails_only_on_refusal_witness :
  repr h123 v123 [1; 2; 3] ∧ is_size_t 8 ∧
  8 * sizeof_T (T := Z) < size_modulus ∧
  Reserve never 8 v123 h123 ≠ Fault ∧
  (Reserve never 8 v123 h123 = BadAlloc ↔
   Capacity v123 < 8 ∧ never h123 8 = false).
Proof.
  assert (H1 : repr h123 v123 [1; 2; 3]) by concrete_repr 1%nat.
  assert (H2 : is_size_t 8) by (unfold is_size_t; rewrite size_modulus_eq; lia).
  assert (H3 : 8 * sizeof_T (T := Z) < size_modulus) by reflexivity.
  split; [exact H1|]. split; [exact H2|]. split; [exact H3|].
  exact (Reserve_fails_only_on_refusal never h123 v123 [1; 2; 3] 8 H1 H2 H3).
Defined.
